(** * renterd worker: parallel slab download engine and price-table cache

    A shallow embedding of [worker/download.go] (the download manager, the
    per-host downloader, the slab download and the slab range selector) and
    of [worker/pricetable.go] (the price-table cache with its single-flight
    refresh), together with the properties of these functions.

    Conventions.
    - Go's fixed-width integers are [Z] with the wrap-around written out
      ([wrap32], [wrap64], [to_int]).
    - A function that can panic returns a [result].
    - Maps keyed by a host public key are [gmap]s; a [types.PublicKey]
      (32 bytes) is read as the number it encodes. *)

From Stdlib Require Import ZArith List Lia Bool.
From Stdlib.Strings Require Import Byte.
From stdpp Require Import base option list gmap strings.

Local Open Scope Z_scope.

(** ** Machine integers and panics *)

Definition MaxUint32 : Z := 4294967295.
Definition wrap32 (z : Z) : Z := z mod 2 ^ 32.
Definition wrap64 (z : Z) : Z := z mod 2 ^ 64.
(** [int(x)] for a [uint64] [x], and the wrap-around of [int] arithmetic
    (64-bit two's complement). *)
Definition to_int (z : Z) : Z := (z + 2 ^ 63) mod 2 ^ 64 - 2 ^ 63.

Definition is_uint32 (z : Z) : Prop := 0 <= z <= MaxUint32.
Definition is_uint64 (z : Z) : Prop := 0 <= z < 2 ^ 64.

Inductive panic : Type :=
  | PanicOverflow          (* panic("slabsForDownload: overflow detected") *)
  | PanicIndexOutOfRange   (* runtime error: index out of range *)
  | PanicCloseOfClosed     (* close of closed channel *)
  | PanicNilDereference.   (* invalid memory address or nil pointer dereference *)

Inductive result (A : Type) : Type :=
  | Ok (a : A)
  | Panic (p : panic).
Arguments Ok {A} a.
Arguments Panic {A} p.

#[global] Instance result_bind : MBind result := fun A B k r =>
  match r with
  | Ok a => k a
  | Panic p => Panic p
  end.
#[global] Instance result_ret : MRet result := fun A a => Ok a.

Definition is_panic {A} (r : result A) : Prop :=
  match r with Panic _ => True | Ok _ => False end.

(** ** Data model *)

Definition PublicKey := N.
Definition Hash256 := N.

(** [object.Sector] *)
Record Sector := mkSector { Host : PublicKey; Root : Hash256 }.

(** [object.Slab]; the encryption key plays no part in what follows. *)
Record Slab := mkSlab { MinShards : Z; Shards : list Sector }.

(** [object.SlabSlice]: an embedded [Slab] with [Offset] and [Length]
    ([uint32]) inside it. *)
Record SlabSlice := mkSlabSlice { slab : Slab; Offset : Z; Length : Z }.

Definition wf_slice (ss : SlabSlice) : Prop :=
  is_uint32 (Offset ss) /\ is_uint32 (Length ss).

(** ** The slab range selector, [slabsForDownload] *)

Module SlabRange.

(** The helper [cast32] of [slabsForDownload]. *)
Definition cast32 (inp : Z) : result Z :=
  if MaxUint32 <? inp then Panic PanicOverflow else Ok (wrap32 inp).

(** First loop: walks the slices while [firstOffset] exceeds the slice's
    length.  Returns the index at which the loop broke (if it did) and the
    final [firstOffset]. *)
Fixpoint firstLoop (rest : list SlabSlice) (i : nat) (firstOffset : Z)
  : option nat * Z :=
  match rest with
  | [] => (None, firstOffset)
  | ss :: tl =>
      if firstOffset <=? Length ss then (Some i, firstOffset)
      else firstLoop tl (S i) (wrap64 (firstOffset - Length ss))
  end.

(** Second loop, same shape, on [lastLength]. *)
Fixpoint lastLoop (rest : list SlabSlice) (i : nat) (lastLength : Z)
  : option nat * Z :=
  match rest with
  | [] => (None, lastLength)
  | ss :: tl =>
      if lastLength <=? Length ss then (Some i, lastLength)
      else lastLoop tl (S i) (wrap64 (lastLength - Length ss))
  end.

(** [slabs[i].f = ...] on a list; out of range panics. *)
Definition update_at (l : list SlabSlice) (i : nat)
    (f : SlabSlice -> SlabSlice) : result (list SlabSlice) :=
  match l !! i with
  | Some ss => Ok (<[i := f ss]> l)
  | None => Panic PanicIndexOutOfRange
  end.

Definition advance (c : Z) (ss : SlabSlice) : SlabSlice :=
  {| slab := slab ss;
     Offset := wrap32 (Offset ss + c);
     Length := wrap32 (Length ss - c) |}.

Definition truncate (c : Z) (ss : SlabSlice) : SlabSlice :=
  {| slab := slab ss; Offset := Offset ss; Length := c |}.

(** [slabsForDownload] on the sequence of slices the argument denotes.  The
    result is the sequence denoted by the returned slice. *)
Definition slabsForDownload (slabs : list SlabSlice) (offset length : Z)
  : result (list SlabSlice) :=
  let '(brk, firstOffset) := firstLoop slabs 0 offset in
  let slabs1 := match brk with Some i => drop i slabs | None => slabs end in
  c ← cast32 firstOffset;
  slabs2 ← update_at slabs1 0 (advance c);
  let '(cut, lastLength) := lastLoop slabs2 0 length in
  let slabs3 := match cut with Some i => take (S i) slabs2 | None => slabs2 end in
  c' ← cast32 lastLength;
  update_at slabs3 (Nat.pred (List.length slabs3)) (truncate c').

Definition total (l : list SlabSlice) : Z :=
  foldr (fun ss acc => Length ss + acc) 0 l.

End SlabRange.

(** ** Slices in a store of backing arrays

    A Go slice is a window on a backing array, and [slabsForDownload]
    writes through its slice ([slabs[0].Offset += ...]).  To account for
    what the caller's array sees, the same function is given on slice
    values over a store of arrays. *)

Module SliceStore.
Import SlabRange.

Record goslice := mkSlice { arr : nat; lo : nat; len : nat }.

Abbreviation store := (gmap nat (list SlabSlice)).

Definition array_of (h : store) (s : goslice) : list SlabSlice :=
  default [] (h !! arr s).

(** The sequence of elements a slice denotes. *)
Definition view (h : store) (s : goslice) : list SlabSlice :=
  take (len s) (drop (lo s) (array_of h s)).

Definition wf_goslice (h : store) (s : goslice) : Prop :=
  is_Some (h !! arr s) /\ (lo s + len s <= List.length (array_of h s))%nat.

(** [append([]object.SlabSlice(nil), slabs...)]: a new array holding the
    elements of [slabs]. *)
Definition append_nil (h : store) (s : goslice) : store * goslice :=
  let a := fresh (dom h) in
  (<[a := view h s]> h, {| arr := a; lo := 0; len := len s |}).

(** [slabs[i:]] and [slabs[:j]] *)
Definition slice_from (s : goslice) (i : nat) : goslice :=
  {| arr := arr s; lo := lo s + i; len := len s - i |}.
Definition slice_to (s : goslice) (j : nat) : goslice :=
  {| arr := arr s; lo := lo s; len := j |}.

(** [slabs[i].f = ...] through the slice. *)
Definition store_update (h : store) (s : goslice) (i : nat)
    (f : SlabSlice -> SlabSlice) : result store :=
  if decide (i < len s)%nat then
    match array_of h s !! (lo s + i)%nat with
    | Some ss => Ok (<[arr s := <[(lo s + i)%nat := f ss]> (array_of h s)]> h)
    | None => Panic PanicIndexOutOfRange
    end
  else Panic PanicIndexOutOfRange.

Definition slabsForDownload (h : store) (slabs : goslice) (offset length : Z)
  : result (store * goslice) :=
  let '(h1, slabs0) := append_nil h slabs in
  let '(brk, firstOffset) := firstLoop (view h1 slabs0) 0 offset in
  let slabs1 := match brk with Some i => slice_from slabs0 i | None => slabs0 end in
  c ← cast32 firstOffset;
  h2 ← store_update h1 slabs1 0 (advance c);
  let '(cut, lastLength) := lastLoop (view h2 slabs1) 0 length in
  let slabs3 := match cut with Some i => slice_to slabs1 (S i) | None => slabs1 end in
  c' ← cast32 lastLength;
  h3 ← store_update h2 slabs3 (Nat.pred (len slabs3)) (truncate c');
  Ok (h3, slabs3).

End SliceStore.

(** ** Errors, channels, requests and responses *)

(** Go [error] values.  [ErrNew] stands for [errors.New] and for the errors
    a host hands back; the other constructors are the [fmt.Errorf] values of
    the download code, kept with their operands. *)
Inductive error : Type :=
  | ErrNew (msg : string)
  | ErrNoDownloader (hk : PublicKey)
      (* "no downloader for host %v" *)
  | ErrNotEnoughHosts (available minShards : Z)
      (* "not enough hosts available to download the slab: %v/%v" *)
  | ErrFailedToDownloadSlab (completed inflight launched downloaders : Z)
      (errs : list HostError)
      (* "failed to download slab: completed=%d, inflight=%d, launched=%d
         downloaders=%d errors=%w" *)
with HostError : Type :=
  | mkHostError (hk : PublicKey) (err : error).   (* &HostError{hk, err} *)

Definition HostErrorSet : Type := list HostError.

(** A [chan struct{}] that is only ever closed: [true] once closed. *)
Definition signal := bool.

Definition close (c : signal) : result signal :=
  if c then Panic PanicCloseOfClosed else Ok true.

Record sectorDownloadReq := mkReq {
  req_length : Z;
  req_offset : Z;
  req_root : Hash256;
  req_hk : PublicKey;
  req_overdrive : bool;
  req_sectorIndex : Z;
  req_responseChan : nat   (* the identity of the response channel *)
}.

(** [sector] is [nil] ([None]) unless the response was built by [succeed];
    [err] is [nil] ([None]) on success. *)
Record sectorDownloadResp := mkResp {
  resp_overdrive : bool;
  resp_hk : PublicKey;
  resp_sectorIndex : Z;
  resp_sector : option (list byte);
  resp_err : option error
}.

Record sectorInfo := mkSectorInfo { si_sector : Sector; index : Z }.

(** [api.ContractMetadata], the fields the download code reads. *)
Record ContractMetadata := mkContract {
  ID : N;
  HostKey : PublicKey;
  SiamuxAddr : string
}.

(** [slabDownload].  The manager pointer [mgr] is passed to the functions
    that follow it; the identifiers and time stamps ([dID], [sID], [created],
    [index], [lastOverdrive]) are read by none of them and are left out. *)
Record slabDownload := mkSlabDownload {
  minShards : Z;         (* int *)
  sd_length : Z;         (* uint32 *)
  sd_offset : Z;         (* uint32 *)
  numCompleted : Z;      (* int *)
  numInflight : Z;       (* uint64 *)
  numLaunched : Z;       (* uint64 *)
  numOverdriving : Z;    (* uint64 *)
  curr : PublicKey;
  hostToSectors : gmap PublicKey (list sectorInfo);
  used : gset PublicKey;
  sectors : list (option (list byte));
  errs : HostErrorSet
}.

Definition set_numCompleted (v : Z) (s : slabDownload) : slabDownload :=
  mkSlabDownload (minShards s) (sd_length s) (sd_offset s) v (numInflight s)
    (numLaunched s) (numOverdriving s) (curr s) (hostToSectors s) (used s)
    (sectors s) (errs s).
Definition set_numInflight (v : Z) (s : slabDownload) : slabDownload :=
  mkSlabDownload (minShards s) (sd_length s) (sd_offset s) (numCompleted s) v
    (numLaunched s) (numOverdriving s) (curr s) (hostToSectors s) (used s)
    (sectors s) (errs s).
Definition set_numLaunched (v : Z) (s : slabDownload) : slabDownload :=
  mkSlabDownload (minShards s) (sd_length s) (sd_offset s) (numCompleted s)
    (numInflight s) v (numOverdriving s) (curr s) (hostToSectors s) (used s)
    (sectors s) (errs s).
Definition set_numOverdriving (v : Z) (s : slabDownload) : slabDownload :=
  mkSlabDownload (minShards s) (sd_length s) (sd_offset s) (numCompleted s)
    (numInflight s) (numLaunched s) v (curr s) (hostToSectors s) (used s)
    (sectors s) (errs s).
Definition set_curr (v : PublicKey) (s : slabDownload) : slabDownload :=
  mkSlabDownload (minShards s) (sd_length s) (sd_offset s) (numCompleted s)
    (numInflight s) (numLaunched s) (numOverdriving s) v (hostToSectors s)
    (used s) (sectors s) (errs s).
Definition set_hostToSectors (v : gmap PublicKey (list sectorInfo))
    (s : slabDownload) : slabDownload :=
  mkSlabDownload (minShards s) (sd_length s) (sd_offset s) (numCompleted s)
    (numInflight s) (numLaunched s) (numOverdriving s) (curr s) v (used s)
    (sectors s) (errs s).
Definition set_used (v : gset PublicKey) (s : slabDownload) : slabDownload :=
  mkSlabDownload (minShards s) (sd_length s) (sd_offset s) (numCompleted s)
    (numInflight s) (numLaunched s) (numOverdriving s) (curr s)
    (hostToSectors s) v (sectors s) (errs s).
Definition set_sectors (v : list (option (list byte))) (s : slabDownload)
  : slabDownload :=
  mkSlabDownload (minShards s) (sd_length s) (sd_offset s) (numCompleted s)
    (numInflight s) (numLaunched s) (numOverdriving s) (curr s)
    (hostToSectors s) (used s) v (errs s).
Definition set_errs (v : HostErrorSet) (s : slabDownload) : slabDownload :=
  mkSlabDownload (minShards s) (sd_length s) (sd_offset s) (numCompleted s)
    (numInflight s) (numLaunched s) (numOverdriving s) (curr s)
    (hostToSectors s) (used s) (sectors s) v.

(** [time.Duration] in nanoseconds, and [Duration.Milliseconds]. *)
Definition Hour : Z := 60 * 60 * 1000000000.
Definition Milliseconds (d : Z) : Z := Z.quot d 1000000.

Definition maxConcurrentSlabsPerDownload : Z := 3.
Definition maxConcurrentSectorsPerHost : Z := 3.

(** ** The download manager, the downloaders and the slab download

    Not in the sources at hand, and taken as parameters: the sample tracker
    [dataPoints] with [newDataPoints] and [Track], the constant
    [statsDecayHalfTime], the [float64] conversion of an [int64], the error
    classifiers [isBalanceInsufficient] ... [isSectorNotFound], and
    [SlabSlice.SectorRegion]. *)

Section DownloadModel.
Set Implicit Arguments.

Variable dataPoints : Type.
Variable float64 : Type.
Variable float64_of_int64 : Z -> float64.
Variable newDataPoints : Z -> dataPoints.
Variable Track : dataPoints -> float64 -> dataPoints.
Variable statsDecayHalfTime : Z.
Variables isBalanceInsufficient isPriceTableExpired
          isPriceTableNotFound isSectorNotFound : error -> bool.
Variable SectorRegion : SlabSlice -> Z * Z.

Record downloader := mkDownloader {
  host : ContractMetadata;   (* what [newHostV3] was given *)
  statsDownloadSpeedBytesPerMS : dataPoints;
  statsSectorDownloadEstimateInMS : dataPoints;
  signalWorkChan : bool;     (* capacity 1: [true] when it holds a token *)
  d_stopChan : signal;
  consecutiveFailures : Z;   (* uint64 *)
  queue : list sectorDownloadReq;
  numDownloads : Z           (* uint64 *)
}.

Record downloadManager := mkDownloadManager {
  maxOverdrive : Z;          (* uint64 *)
  overdriveTimeout : Z;      (* time.Duration *)
  statsOverdrivePct : dataPoints;
  statsSlabDownloadSpeedBytesPerMS : dataPoints;
  stopChan : signal;
  ongoing : gset N;          (* the slab ids of the running slab downloads *)
  downloaders : gmap PublicKey downloader
}.

Definition set_downloaders (v : gmap PublicKey downloader)
    (mgr : downloadManager) : downloadManager :=
  mkDownloadManager (maxOverdrive mgr) (overdriveTimeout mgr)
    (statsOverdrivePct mgr) (statsSlabDownloadSpeedBytesPerMS mgr)
    (stopChan mgr) (ongoing mgr) v.
Definition set_stopChan (v : signal) (mgr : downloadManager)
  : downloadManager :=
  mkDownloadManager (maxOverdrive mgr) (overdriveTimeout mgr)
    (statsOverdrivePct mgr) (statsSlabDownloadSpeedBytesPerMS mgr)
    v (ongoing mgr) (downloaders mgr).
Definition set_ongoing (v : gset N) (mgr : downloadManager)
  : downloadManager :=
  mkDownloadManager (maxOverdrive mgr) (overdriveTimeout mgr)
    (statsOverdrivePct mgr) (statsSlabDownloadSpeedBytesPerMS mgr)
    (stopChan mgr) v (downloaders mgr).

Definition set_queue (v : list sectorDownloadReq) (d : downloader)
  : downloader :=
  mkDownloader (host d) (statsDownloadSpeedBytesPerMS d)
    (statsSectorDownloadEstimateInMS d) (signalWorkChan d) (d_stopChan d)
    (consecutiveFailures d) v (numDownloads d).
Definition set_signalWorkChan (v : bool) (d : downloader) : downloader :=
  mkDownloader (host d) (statsDownloadSpeedBytesPerMS d)
    (statsSectorDownloadEstimateInMS d) v (d_stopChan d)
    (consecutiveFailures d) (queue d) (numDownloads d).
Definition set_d_stopChan (v : signal) (d : downloader) : downloader :=
  mkDownloader (host d) (statsDownloadSpeedBytesPerMS d)
    (statsSectorDownloadEstimateInMS d) (signalWorkChan d) v
    (consecutiveFailures d) (queue d) (numDownloads d).
Definition set_consecutiveFailures (v : Z) (d : downloader) : downloader :=
  mkDownloader (host d) (statsDownloadSpeedBytesPerMS d)
    (statsSectorDownloadEstimateInMS d) (signalWorkChan d) (d_stopChan d)
    v (queue d) (numDownloads d).
Definition set_statsSectorDownloadEstimateInMS (v : dataPoints)
    (d : downloader) : downloader :=
  mkDownloader (host d) (statsDownloadSpeedBytesPerMS d) v
    (signalWorkChan d) (d_stopChan d) (consecutiveFailures d) (queue d)
    (numDownloads d).
Definition set_numDownloads (v : Z) (d : downloader) : downloader :=
  mkDownloader (host d) (statsDownloadSpeedBytesPerMS d)
    (statsSectorDownloadEstimateInMS d) (signalWorkChan d) (d_stopChan d)
    (consecutiveFailures d) (queue d) v.

Definition newDownloadManager (maxOverdrive overdriveTimeout : Z)
  : downloadManager :=
  {| maxOverdrive := maxOverdrive;
     overdriveTimeout := overdriveTimeout;
     statsOverdrivePct := newDataPoints 0;
     statsSlabDownloadSpeedBytesPerMS := newDataPoints 0;
     stopChan := false;
     ongoing := ∅;
     downloaders := ∅ |}.

Definition newDownloader (host : ContractMetadata) : downloader :=
  {| host := host;
     statsSectorDownloadEstimateInMS := newDataPoints statsDecayHalfTime;
     statsDownloadSpeedBytesPerMS := newDataPoints 0;
     signalWorkChan := false;
     d_stopChan := false;
     consecutiveFailures := 0;
     queue := [];
     numDownloads := 0 |}.

(** *** The downloader *)

(** [enqueue]: append to the queue, then a non-blocking send on
    [signalWorkChan]. *)
Definition enqueue (d : downloader) (download : sectorDownloadReq)
  : downloader :=
  set_signalWorkChan true (set_queue (queue d ++ [download]) d).

Definition pop (d : downloader) : downloader * option sectorDownloadReq :=
  match queue d with
  | j :: q => (set_queue q d, Some j)
  | [] => (d, None)
  end.

(** [fillBatch]: pop until the batch holds [maxConcurrentSectorsPerHost]
    requests or the queue is empty; a request whose context is done
    ([done req = true] when it is popped) is dropped.  Every turn of the
    loop that goes on has popped a request, so [fuel] beyond the length of
    the queue is never used up; [None] stands for running out of it. *)
Fixpoint fillBatch_loop (fuel : nat) (done : sectorDownloadReq -> bool)
    (d : downloader) (batch : list sectorDownloadReq)
  : option (downloader * list sectorDownloadReq) :=
  match fuel with
  | O => None
  | S fuel' =>
      if decide (Z.of_nat (List.length batch) < maxConcurrentSectorsPerHost)
      then
        match pop d with
        | (d', None) => Some (d', batch)
        | (d', Some req) =>
            if done req then fillBatch_loop fuel' done d' batch
            else fillBatch_loop fuel' done d' (batch ++ [req])
        end
      else Some (d, batch)
  end.

Definition fillBatch (done : sectorDownloadReq -> bool) (d : downloader)
  : option (downloader * list sectorDownloadReq) :=
  fillBatch_loop (S (List.length (queue d))) done d [].

Definition trackFailure (d : downloader) (err : option error) : downloader :=
  match err with
  | None => set_consecutiveFailures 0 d
  | Some e =>
      if isBalanceInsufficient e || isPriceTableExpired e ||
         isPriceTableNotFound e || isSectorNotFound e
      then d   (* host is not to blame for these errors *)
      else
        set_statsSectorDownloadEstimateInMS
          (Track (statsSectorDownloadEstimateInMS d)
                 (float64_of_int64 (Milliseconds Hour)))
          (set_consecutiveFailures (wrap64 (consecutiveFailures d + 1)) d)
  end.

(** [req.succeed] and [req.fail]: the response is handed over unless the
    request's context is done first ([delivered = false]). *)
Definition succeed (req : sectorDownloadReq) (sector : list byte)
    (delivered : bool) : option sectorDownloadResp :=
  if delivered then
    Some {| resp_hk := req_hk req;
            resp_overdrive := req_overdrive req;
            resp_sectorIndex := req_sectorIndex req;
            resp_sector := Some sector;
            resp_err := None |}
  else None.

Definition fail (req : sectorDownloadReq) (err : error) (delivered : bool)
  : option sectorDownloadResp :=
  if delivered then
    Some {| resp_err := Some err;
            resp_hk := req_hk req;
            resp_overdrive := req_overdrive req;
            resp_sectorIndex := 0;
            resp_sector := None |}
  else None.

(** [execute]; [outcome] is what [host.DownloadSector] did: an error, or the
    bytes it wrote to [buf].  Returns the response handed over, if any, and
    the error. *)
Definition execute (d : downloader) (req : sectorDownloadReq)
    (outcome : error + list byte) (delivered : bool)
  : downloader * option sectorDownloadResp * option error :=
  match outcome with
  | inl err => (d, fail req err delivered, Some err)
  | inr buf =>
      (set_numDownloads (wrap64 (numDownloads d + 1)) d,
       succeed req buf delivered, None)
  end.

(** *** The manager *)

Definition numDownloaders (mgr : downloadManager) : Z :=
  Z.of_nat (size (downloaders mgr)).

Definition ongoingDownloads (mgr : downloadManager) : Z :=
  Z.of_nat (size (ongoing mgr)).

(** [downloadManager.launch] *)
Definition mgr_launch (mgr : downloadManager) (req : sectorDownloadReq)
  : downloadManager * option error :=
  match downloaders mgr !! req_hk req with
  | None => (mgr, Some (ErrNoDownloader (req_hk req)))
  | Some d =>
      (set_downloaders (<[req_hk req := enqueue d req]> (downloaders mgr)) mgr,
       None)
  end.

(** [Stop].  Go ranges over the map in an unspecified order; closing is the
    same for every order. *)
Definition close_downloader (acc : result (gmap PublicKey downloader))
    (kd : PublicKey * downloader) : result (gmap PublicKey downloader) :=
  ds ← acc;
  c ← close (d_stopChan kd.2);
  Ok (<[kd.1 := set_d_stopChan c kd.2]> ds).

Definition Stop (mgr : downloadManager) : result downloadManager :=
  c ← close (stopChan mgr);
  ds ← foldl close_downloader (Ok (downloaders mgr))
             (map_to_list (downloaders mgr));
  Ok (set_downloaders ds (set_stopChan c mgr)).

(** What a call of [Stop] leaves of the manager, also when it panics: the
    channels are closed in place, so a panic keeps what was closed before it
    and touches nothing after it. *)
Definition close_in_place (acc : gmap PublicKey downloader * bool)
    (kd : PublicKey * downloader) : gmap PublicKey downloader * bool :=
  if acc.2 then acc   (* the panic has ended the loop *)
  else
    match close (d_stopChan kd.2) with
    | Ok c => (<[kd.1 := set_d_stopChan c kd.2]> acc.1, false)
    | Panic _ => (acc.1, true)
    end.

Definition Stop_in_place (mgr : downloadManager) : downloadManager :=
  match close (stopChan mgr) with
  | Panic _ => mgr
  | Ok c =>
      set_downloaders
        (foldl close_in_place (downloaders mgr, false)
               (map_to_list (downloaders mgr))).1
        (set_stopChan c mgr)
  end.

Definition prune (want : gmap PublicKey ContractMetadata)
    (acc : result (gmap PublicKey downloader)) (kd : PublicKey * downloader)
  : result (gmap PublicKey downloader) :=
  ds ← acc;
  match want !! kd.1 with
  | None => _ ← close (d_stopChan kd.2); Ok (delete kd.1 ds)
  | Some _ => Ok ds
  end.

(** [refreshDownloaders]: downloaders of hosts without a contract are
    stopped and dropped, hosts with a contract and no downloader get a new
    one, the others are kept as they are. *)
Definition refreshDownloaders (mgr : downloadManager)
    (contracts : list ContractMetadata) : result downloadManager :=
  let want : gmap PublicKey ContractMetadata :=
    foldl (fun w c => <[HostKey c := c]> w) ∅ contracts in
  kept ← foldl (prune want) (Ok (downloaders mgr))
               (map_to_list (downloaders mgr));
  let missing :=
    filter (fun kc => downloaders mgr !! kc.1 = None) want in
  Ok (set_downloaders ((newDownloader <$> missing) ∪ kept) mgr).

(** *** The slab download *)

(** The loop of [newSlabDownload] that files every shard under its host. *)
Fixpoint buildHostToSectors (shards : list Sector) (sI : Z)
    (m : gmap PublicKey (list sectorInfo)) : gmap PublicKey (list sectorInfo) :=
  match shards with
  | [] => m
  | s :: tl =>
      buildHostToSectors tl (sI + 1)
        (<[Host s := default [] (m !! Host s) ++ [mkSectorInfo s sI]]> m)
  end.

(** [newSlabDownload]; [sID] is the random slab id. *)
Definition newSlabDownload (mgr : downloadManager) (sID : N)
    (slice : SlabSlice) : downloadManager * slabDownload :=
  let '(offset, length) := SectorRegion slice in
  (set_ongoing ({[sID]} ∪ ongoing mgr) mgr,
   {| minShards := MinShards (slab slice);
      sd_offset := offset;
      sd_length := length;
      numCompleted := 0;
      numInflight := 0;
      numLaunched := 0;
      numOverdriving := 0;
      curr := 0%N;
      hostToSectors := buildHostToSectors (Shards (slab slice)) 0 ∅;
      used := ∅;
      sectors := replicate (List.length (Shards (slab slice))) None;
      errs := [] |}).

Definition sectorsOf (s : slabDownload) (hk : PublicKey) : list sectorInfo :=
  default [] (hostToSectors s !! hk).

(** [nextRequest].  [fastest] is the answer of [mgr.fastest], which compares
    the [float64] latency estimates of the downloaders; it is an argument
    here.  Returns [None] for a [nil] request. *)
Definition nextRequest (fastest : list PublicKey -> PublicKey)
    (s : slabDownload) (responseChan : nat) (overdrive : bool)
  : slabDownload * option sectorDownloadReq :=
  let s1 :=
    if decide (List.length (sectorsOf s (curr s)) = 0%nat) then
      let hosts :=
        filter (fun h => h ∉ used s) (map_to_list (hostToSectors s)).*1 in
      let c := fastest hosts in
      set_used ({[c]} ∪ used s) (set_curr c s)
    else s in
  match sectorsOf s1 (curr s1) with
  | [] => (s1, None)   (* no more sectors to download *)
  | sector :: rest =>
      (set_hostToSectors (<[curr s1 := rest]> (hostToSectors s1)) s1,
       Some {| req_offset := sd_offset s1;
               req_length := sd_length s1;
               req_root := Root (si_sector sector);
               req_hk := Host (si_sector sector);
               req_overdrive := overdrive;
               req_sectorIndex := index sector;
               req_responseChan := responseChan |})
  end.

(** [slabDownload.launch] *)
Definition launch (mgr : downloadManager) (s : slabDownload)
    (req : option sectorDownloadReq)
  : downloadManager * slabDownload * option error :=
  match req with
  | None => (mgr, s, Some (ErrNew "no request given"))
  | Some r =>
      match mgr_launch mgr r with
      | (mgr', Some err) => (mgr', s, Some err)
      | (mgr', None) =>
          let s1 := set_numInflight (wrap64 (numInflight s + 1)) s in
          let s2 := set_numLaunched (wrap64 (numLaunched s1 + 1)) s1 in
          let s3 :=
            if req_overdrive r
            then set_numOverdriving (wrap64 (numOverdriving s2 + 1)) s2
            else s2 in
          (mgr', s3, None)
      end
  end.

(** [slabDownload.receive]: the new state and [(finished, next)]. *)
Definition receive (mgr : downloadManager) (s : slabDownload)
    (resp : sectorDownloadResp) : result (slabDownload * (bool * bool)) :=
  let s1 :=
    if resp_overdrive resp
    then set_numOverdriving (wrap64 (numOverdriving s - 1)) s
    else s in
  let s2 := set_numInflight (wrap64 (numInflight s1 - 1)) s1 in
  match resp_err resp with
  | Some e =>
      Ok (set_errs (errs s2 ++ [mkHostError (resp_hk resp) e]) s2,
          (false, false))
  | None =>
      if decide (0 <= resp_sectorIndex resp
                 < Z.of_nat (List.length (sectors s2))) then
        let s3 :=
          set_sectors (<[Z.to_nat (resp_sectorIndex resp) := resp_sector resp]>
                         (sectors s2)) s2 in
        let s4 := set_numCompleted (to_int (numCompleted s3 + 1)) s3 in
        Ok (s4,
            (minShards s4 <=? numCompleted s4,
             minShards s4 <=?
               to_int (numCompleted s4 + to_int (maxOverdrive mgr))))
      else Panic PanicIndexOutOfRange
  end.

(** [slabDownload.finish]: the shard matrix, or the error. *)
Definition finish (mgr : downloadManager) (s : slabDownload)
  : list (option (list byte)) + error :=
  if numCompleted s <? minShards s then
    inr (ErrFailedToDownloadSlab (numCompleted s) (numInflight s)
           (numLaunched s) (numDownloaders mgr) (errs s))
  else inl (sectors s).

Definition inflight (s : slabDownload) : Z := numInflight s.

(** The first loop of [downloadShards]: [n] primary requests, one after the
    other; a failed launch ends the slab download. *)
Fixpoint launchPrimaries (n : nat) (fastest : list PublicKey -> PublicKey)
    (mgr : downloadManager) (s : slabDownload) (respChan : nat)
  : downloadManager * slabDownload * option error :=
  match n with
  | O => (mgr, s, None)
  | S n' =>
      let '(s1, req) := nextRequest fastest s respChan false in
      match launch mgr s1 req with
      | (mgr', s2, Some _) => (mgr', s2, Some (ErrNew "no hosts available"))
      | (mgr', s2, None) => launchPrimaries n' fastest mgr' s2 respChan
      end
  end.

(** *** The start of [DownloadObject] *)

(** The producer's count of the shards whose host has a contract
    ([var available uint8]). *)
Definition availableShards (hosts : gset PublicKey) (shards : list Sector)
  : Z :=
  foldl (fun available s =>
           if decide (Host s ∈ hosts) then (available + 1) mod 2 ^ 8
           else available) 0 shards.

(** How [DownloadObject] sets out. *)
Inductive downloadStart : Type :=
  | ReturnNil
      (* [len(slabs) == 0]: [return nil] *)
  | SlabFailed (err : error)
      (* the producer reports an error for slab 0 *)
  | SlabStarted (started : downloadManager * slabDownload * option error).
      (* [downloadSlab] of slab 0 has run the primary dispatch of
         [downloadShards] *)

(** [DownloadObject] up to the primary dispatch of the first slab. *)
Definition DownloadObject_start (mgr : downloadManager)
    (o_Slabs : list SlabSlice) (offset length : Z)
    (contracts : list ContractMetadata)
    (sID : N) (respChan : nat) (fastest : list PublicKey -> PublicKey)
  : result downloadStart :=
  slabs ← SlabRange.slabsForDownload o_Slabs offset length;
  match slabs with
  | [] => Ok ReturnNil
  | next :: _ =>
      mgr1 ← refreshDownloaders mgr contracts;
      let hosts : gset PublicKey := list_to_set (HostKey <$> contracts) in
      let available := availableShards hosts (Shards (slab next)) in
      if available <? MinShards (slab next) then
        Ok (SlabFailed (ErrNotEnoughHosts available (MinShards (slab next))))
      else
        let '(mgr2, s) := newSlabDownload mgr1 sID next in
        Ok (SlabStarted
              (launchPrimaries (Z.to_nat (minShards s)) fastest mgr2 s
                 respChan))
  end.

(** *** One slab download and its surroundings, step by step

    [sys_executing] holds the requests a downloader has popped and is
    executing, [sys_chan] the responses handed to this slab's response
    channel and not yet received, [sys_received] the responses [receive] has
    processed so far. *)
Record system := mkSystem {
  sys_mgr : downloadManager;
  sys_slab : slabDownload;
  sys_executing : list sectorDownloadReq;
  sys_chan : list sectorDownloadResp;
  sys_received : list sectorDownloadResp
}.

(** The steps of a slab download whose response channel is [me], of the
    downloaders serving it, and of the rest of the worker. *)
Inductive step (me : nat) : system -> system -> Prop :=
  | step_dispatch σ fastest overdrive s1 req mgr' s2 err :
      (* [launch(nextRequest(...))], by [downloadShards] or the overdrive
         timer *)
      nextRequest fastest (sys_slab σ) me overdrive = (s1, req) ->
      launch (sys_mgr σ) s1 req = (mgr', s2, err) ->
      step me σ (mkSystem mgr' s2 (sys_executing σ) (sys_chan σ)
                   (sys_received σ))
  | step_pop σ hk d d1 req (taken : bool) :
      (* a downloader pops a request; it drops it when its context is done
         ([taken = false]) *)
      downloaders (sys_mgr σ) !! hk = Some d ->
      pop d = (d1, Some req) ->
      step me σ
        (mkSystem (set_downloaders (<[hk := d1]> (downloaders (sys_mgr σ)))
                     (sys_mgr σ))
           (sys_slab σ)
           (if taken then sys_executing σ ++ [req] else sys_executing σ)
           (sys_chan σ) (sys_received σ))
  | step_execute σ i req hk d outcome delivered d1 resp err :
      (* a worker of downloader [hk] executes a popped request *)
      sys_executing σ !! i = Some req ->
      downloaders (sys_mgr σ) !! hk = Some d ->
      execute d req outcome delivered = (d1, resp, err) ->
      step me σ
        (mkSystem
           (set_downloaders
              (<[hk := trackFailure d1 err]> (downloaders (sys_mgr σ)))
              (sys_mgr σ))
           (sys_slab σ)
           (delete i (sys_executing σ))
           (if decide (req_responseChan req = me)
            then sys_chan σ ++ option_list resp else sys_chan σ)
           (sys_received σ))
  | step_receive σ i resp s' flags :
      (* [downloadShards] takes a response off the channel *)
      sys_chan σ !! i = Some resp ->
      receive (sys_mgr σ) (sys_slab σ) resp = Ok (s', flags) ->
      step me σ (mkSystem (sys_mgr σ) s' (sys_executing σ)
                   (delete i (sys_chan σ)) (sys_received σ ++ [resp]))
  | step_other_launch σ r mgr' err :
      (* another slab download launches a request of its own *)
      req_responseChan r ≠ me ->
      mgr_launch (sys_mgr σ) r = (mgr', err) ->
      step me σ (mkSystem mgr' (sys_slab σ) (sys_executing σ) (sys_chan σ)
                   (sys_received σ))
  | step_refresh σ contracts mgr' :
      (* another download refreshes the downloaders *)
      refreshDownloaders (sys_mgr σ) contracts = Ok mgr' ->
      step me σ (mkSystem mgr' (sys_slab σ) (sys_executing σ) (sys_chan σ)
                   (sys_received σ))
  | step_stop σ mgr' :
      Stop (sys_mgr σ) = Ok mgr' ->
      step me σ (mkSystem mgr' (sys_slab σ) (sys_executing σ) (sys_chan σ)
                   (sys_received σ)).

(** The states a slab download of [slice] can reach. *)
Inductive reachable (me : nat) (slice : SlabSlice) : system -> Prop :=
  | reachable_new (mgr : downloadManager) sID mgr' s executing :
      (* the response channel is new: no request around carries it *)
      (forall hk d r, downloaders mgr !! hk = Some d -> r ∈ queue d ->
                      req_responseChan r ≠ me) ->
      (forall r, r ∈ executing -> req_responseChan r ≠ me) ->
      newSlabDownload mgr sID slice = (mgr', s) ->
      reachable me slice (mkSystem mgr' s executing [] [])
  | reachable_step σ σ' :
      reachable me slice σ -> step me σ σ' -> reachable me slice σ'.

Unset Implicit Arguments.
End DownloadModel.

Arguments ReturnNil {dataPoints}.
Arguments SlabFailed {dataPoints} err.

(** ** The choice of the fastest host

    [estimate], [tryRecomputeStats] and [fastest].  The statistics
    ([P90], [Average], [Recompute]), the arithmetic and the comparisons of
    [float64] and the constant [statsRecomputeMinInterval] are not part of
    the sources at hand; they are parameters.  [mgr.lastRecompute] is kept
    beside the manager. *)
Section FastestModel.

Variables dataPoints float64 : Type.
Variables P90 Average : dataPoints -> float64.
Variable Recompute : dataPoints -> dataPoints.
Variable float64_of_int : Z -> float64.
Variable fmul : float64 -> float64 -> float64.
Variables flt feq : float64 -> float64 -> bool.
Variables float_zero float_one MaxFloat64 : float64.
Variable statsRecomputeMinInterval : Z.

Definition estimate (d : downloader dataPoints) : float64 :=
  let p90 := P90 (statsSectorDownloadEstimateInMS d) in
  let estimateP90 :=
    if feq p90 float_zero then
      let avg := Average (statsSectorDownloadEstimateInMS d) in
      if flt float_zero avg then avg else float_one
    else p90 in
  fmul (float64_of_int (to_int (Z.of_nat (List.length (queue d)) + 1)))
       estimateP90.

Definition recompute (d : downloader dataPoints) : downloader dataPoints :=
  mkDownloader (host d)
    (Recompute (statsDownloadSpeedBytesPerMS d))
    (Recompute (statsSectorDownloadEstimateInMS d))
    (signalWorkChan d) (d_stopChan d) (consecutiveFailures d) (queue d)
    (numDownloads d).

(** [tryRecomputeStats] at time [now]; returns the new [lastRecompute]
    too. *)
Definition tryRecomputeStats (mgr : downloadManager dataPoints)
    (lastRecompute now : Z) : downloadManager dataPoints * Z :=
  if now - lastRecompute <? statsRecomputeMinInterval then (mgr, lastRecompute)
  else (set_downloaders (recompute <$> downloaders mgr) mgr, now).

(** One turn of the loop of [fastest]: [acc] is [(lowest, fastest)]. *)
Definition fastest_step (mgr : downloadManager dataPoints)
    (acc : float64 * PublicKey) (h : PublicKey) : float64 * PublicKey :=
  match downloaders mgr !! h with
  | None => acc
  | Some d => if flt (estimate d) acc.1 then (estimate d, h) else acc
  end.

Definition fastest (mgr : downloadManager dataPoints) (lastRecompute now : Z)
    (hosts : list PublicKey) : downloadManager dataPoints * Z * PublicKey :=
  let '(mgr1, last1) := tryRecomputeStats mgr lastRecompute now in
  (mgr1, last1, (foldl (fastest_step mgr1) (MaxFloat64, 0%N) hosts).2).

End FastestModel.

(** ** The collector of [DownloadObject]

    The loop of [DownloadObject] that takes the slab responses off
    [responseChan], keeps those that come early in a map and recovers the
    slabs in the order of the object.  [Decrypt] and [Recover] belong to
    the object codec; [Recover ss shards] is [None] when the slab was
    written to the cipher writer, and the error otherwise. *)
Section Collector.

Variable Decrypt :
  SlabSlice -> list (option (list byte)) -> list (option (list byte)).
Variable Recover : SlabSlice -> list (option (list byte)) -> option error.

Record slabDownloadResponse := mkSlabResponse {
  sdr_shards : list (option (list byte));
  sdr_index : Z;             (* int *)
  sdr_err : option error
}.

(** [recovered] is what has been written so far: the index of each slab
    recovered and its decrypted shards, in the order of the writes. *)
Record collector := mkCollector {
  responses : gmap Z slabDownloadResponse;
  respIndex : Z;             (* int *)
  recovered : list (Z * list (option (list byte)))
}.

Definition newCollector : collector := mkCollector ∅ 0 [].

(** The inner loop: recover what is there, in order.  Every turn that goes
    on has deleted an entry of the map, so [fuel] beyond its size is never
    used up; [None] stands for running out of it.  The result is the
    collector and the error of [Recover], if any. *)
Fixpoint flush (fuel : nat) (slabs : list SlabSlice) (c : collector)
  : option (result (collector * option error)) :=
  match fuel with
  | O => None
  | S fuel' =>
      match responses c !! respIndex c with
      | None => Some (Ok (c, None))
      | Some next =>
          match (if decide (0 <= respIndex c < Z.of_nat (List.length slabs))
                 then slabs !! Z.to_nat (respIndex c) else None) with
          | None => Some (Panic PanicIndexOutOfRange)
          | Some ss =>
              let shards := Decrypt ss (sdr_shards next) in
              match Recover ss shards with
              | Some err => Some (Ok (c, Some err))
              | None =>
                  flush fuel' slabs
                    {| responses := delete (respIndex c) (responses c);
                       respIndex := to_int (respIndex c + 1);
                       recovered := recovered c ++ [(respIndex c, shards)] |}
              end
          end
      end
  end.

(** How the loop stands after a response: still collecting, or
    [DownloadObject] has returned [err]. *)
Inductive collectResult : Type :=
  | Collecting (c : collector)
  | Done (err : option error) (c : collector).

(** One response taken off [responseChan]. *)
Definition collect (slabs : list SlabSlice) (c : collector)
    (resp : slabDownloadResponse) : option (result collectResult) :=
  match sdr_err resp with
  | Some e => Some (Ok (Done (Some e) c))
  | None =>
      let c1 :=
        {| responses := <[sdr_index resp := resp]> (responses c);
           respIndex := respIndex c;
           recovered := recovered c |} in
      match flush (S (size (responses c1))) slabs c1 with
      | None => None
      | Some (Panic p) => Some (Panic p)
      | Some (Ok (c2, Some err)) => Some (Ok (Done (Some err) c2))
      | Some (Ok (c2, None)) =>
          if decide (respIndex c2 = Z.of_nat (List.length slabs))
          then Some (Ok (Done None c2))   (* the exit condition *)
          else Some (Ok (Collecting c2))
      end
  end.

(** The responses in the order they arrive, until the loop returns. *)
Fixpoint collect_all (slabs : list SlabSlice) (c : collector)
    (rs : list slabDownloadResponse) : option (result collectResult) :=
  match rs with
  | [] => Some (Ok (Collecting c))
  | resp :: rs' =>
      match collect slabs c resp with
      | Some (Ok (Collecting c')) => collect_all slabs c' rs'
      | other => other
      end
  end.

(** What has been recovered is the slabs [0 .. respIndex - 1] in order,
    each from a response of [seen] with that index. *)
Record in_order (slabs : list SlabSlice) (seen : list slabDownloadResponse)
    (c : collector) : Prop := mkInOrder {
  ord_index : 0 <= respIndex c <= Z.of_nat (List.length slabs);
  ord_indices : (recovered c).*1 = seqZ 0 (respIndex c);
  ord_from : forall i sh, (i, sh) ∈ recovered c ->
    exists resp ss,
      resp ∈ seen /\ sdr_index resp = i /\ sdr_err resp = None /\
      slabs !! Z.to_nat i = Some ss /\ sh = Decrypt ss (sdr_shards resp)
}.

(** The invariant of the loop: besides, the map holds responses of [seen]
    under their index, and every response of [seen] is recovered or in the
    map. *)
Record collecting (slabs : list SlabSlice) (seen : list slabDownloadResponse)
    (c : collector) : Prop := mkCollecting {
  col_order : in_order slabs seen c;
  col_buffered : forall i resp, responses c !! i = Some resp ->
    resp ∈ seen /\ sdr_index resp = i /\ sdr_err resp = None;
  col_seen : forall resp, resp ∈ seen ->
    sdr_index resp < respIndex c \/
    is_Some (responses c !! sdr_index resp)
}.

End Collector.

(** ** The price-table cache, [worker/pricetable.go] *)

Module PriceTables.

(** [time.Time] is a point of an ideal clock, [time.Duration] a number of
    nanoseconds. *)
Definition Second : Z := 1000000000.

(** The number of time before the actual expiry of a price table when we
    start considering it invalid. *)
Definition priceTableValidityLeeway : Z := 30 * Second.

(** [rhpv3.HostPriceTable], the fields that matter here. *)
Record HostPriceTable := mkHostPriceTable {
  UID : N;
  Validity : Z;              (* time.Duration *)
  UpdatePriceTableCost : N
}.

(** [rhpv3.HostPriceTable{}] *)
Definition zeroHostPriceTable : HostPriceTable :=
  mkHostPriceTable 0%N 0 0%N.

(** [priceTableUpdate]; [u_pt] is a pointer, [nil] when [None]. *)
Record priceTableUpdate := mkUpdate {
  u_err : option error;
  u_done : signal;
  u_pt : option HostPriceTable
}.

(** [priceTable]; [pt] is a pointer, [nil] when [None]; [ongoingUpdate]
    points into the update objects of [priceTables]. *)
Record priceTable := mkPriceTable {
  pt : option HostPriceTable;
  hk : PublicKey;
  expiry : Z;
  ongoingUpdate : option nat
}.

(** [priceTables] with the [priceTableUpdate] objects allocated so far. *)
Record priceTables := mkPriceTables {
  tables : gmap PublicKey priceTable;
  updates : list priceTableUpdate
}.

Definition newPriceTables : priceTables := mkPriceTables ∅ [].

(** [pts.priceTable(hk)]: the entry of the host, made on first use. *)
Definition priceTable_of (pts : priceTables) (k : PublicKey)
  : priceTables * priceTable :=
  match tables pts !! k with
  | Some p => (pts, p)
  | None =>
      let p := {| pt := None; hk := k; expiry := 0; ongoingUpdate := None |} in
      (mkPriceTables (<[k := p]> (tables pts)) (updates pts), p)
  end.

(** [PriceTable(hk)] at time [now]. *)
Definition PriceTable (pts : priceTables) (k : PublicKey) (now : Z)
  : priceTables * (HostPriceTable * bool) :=
  let '(pts', p) := priceTable_of pts k in
  match pt p with
  | None => (pts', (zeroHostPriceTable, false))
  | Some t => (pts', (t, now <? expiry p + priceTableValidityLeeway))
  end.

(** *** [Update], one critical section at a time

    A call of [Update] is at one of these places. *)
Inductive pc : Type :=
  | Entering
  | Leading (u : nat)
      (* [performUpdate]: about to call [withTransport] *)
  | Publishing (u : nat) (hpt : HostPriceTable) (err : option error)
      (* [withTransport] is back with [hpt, err] *)
  | Waiting (u : nat)
      (* blocked in the [select] on [ongoing.done] and [ctx.Done()] *)
  | Returned (hpt : HostPriceTable) (err : option error)
  | Panicked (p : panic).

Record call := mkCall { c_hk : PublicKey; c_pc : pc }.

(** The cache, the calls of [Update] under way, and the hosts
    [withTransport] was invoked for, latest first. *)
Record state := mkState {
  st_pts : priceTables;
  calls : list call;
  transports : list PublicKey
}.

(** Lines 62-75: fetch the entry and join or start an update. *)
Definition Update_enter (pts : priceTables) (k : PublicKey)
  : priceTables * pc :=
  let '(pts1, p) := priceTable_of pts k in
  match ongoingUpdate p with
  | Some u => (pts1, Waiting u)
  | None =>
      let u := List.length (updates pts1) in
      (mkPriceTables
         (<[k := mkPriceTable (pt p) (hk p) (expiry p) (Some u)]> (tables pts1))
         (updates pts1 ++ [mkUpdate None false None]),
       Leading u)
  end.

(** Lines 99-112: store the result and signal that the update is over. *)
Definition Update_publish (pts : priceTables) (k : PublicKey) (u : nat)
    (hpt : HostPriceTable) (err : option error) (now : Z)
  : option (result (priceTables * pc)) :=
  p ← tables pts !! k;
  upd ← updates pts !! u;
  let p1 :=
    match err with
    | None => mkPriceTable (Some hpt) (hk p) (now + Validity hpt)
                (ongoingUpdate p)
    | Some _ => p
    end in
  Some (d ← close (u_done upd);
        Ok (mkPriceTables
              (<[k := mkPriceTable (pt p1) (hk p1) (expiry p1) None]>
                 (tables pts))
              (<[u := mkUpdate err d (u_pt upd)]> (updates pts)),
            Returned hpt err)).

(** Lines 85-89, once [ongoing.done] is closed. *)
Definition Update_wake (pts : priceTables) (u : nat) : option pc :=
  upd ← updates pts !! u;
  if u_done upd then
    match u_err upd with
    | Some e => Some (Returned zeroHostPriceTable (Some e))
    | None =>
        match u_pt upd with
        | Some t => Some (Returned t None)
        | None => Some (Panicked PanicNilDereference)   (* [*ongoing.pt] *)
        end
    end
  else None.

(** Line 82, when the caller's context is done. *)
Definition Update_cancel : pc :=
  Returned zeroHostPriceTable
    (Some (ErrNew "timeout while blocking for pricetable update")).

Inductive event : Type :=
  | Enter (t : nat)
  | Transport (t : nat) (hpt : HostPriceTable) (err : option error)
      (* [withTransport] runs [RPCPriceTable], with this result *)
  | Publish (t : nat) (now : Z)
  | Wake (t : nat)
  | Cancel (t : nat).

Definition set_pc (t : nat) (c : call) (p : pc) (l : list call) : list call :=
  <[t := mkCall (c_hk c) p]> l.

(** One step of one call; [None] when the call cannot take it. *)
Definition step (e : event) (st : state) : option state :=
  match e with
  | Enter t =>
      c ← calls st !! t;
      match c_pc c with
      | Entering =>
          let '(pts', p) := Update_enter (st_pts st) (c_hk c) in
          Some (mkState pts' (set_pc t c p (calls st)) (transports st))
      | _ => None
      end
  | Transport t hpt err =>
      c ← calls st !! t;
      match c_pc c with
      | Leading u =>
          Some (mkState (st_pts st)
                  (set_pc t c (Publishing u hpt err) (calls st))
                  (c_hk c :: transports st))
      | _ => None
      end
  | Publish t now =>
      c ← calls st !! t;
      match c_pc c with
      | Publishing u hpt err =>
          r ← Update_publish (st_pts st) (c_hk c) u hpt err now;
          match r with
          | Ok (pts', p) =>
              Some (mkState pts' (set_pc t c p (calls st)) (transports st))
          | Panic x =>
              Some (mkState (st_pts st) (set_pc t c (Panicked x) (calls st))
                      (transports st))
          end
      | _ => None
      end
  | Wake t =>
      c ← calls st !! t;
      match c_pc c with
      | Waiting u =>
          p ← Update_wake (st_pts st) u;
          Some (mkState (st_pts st) (set_pc t c p (calls st)) (transports st))
      | _ => None
      end
  | Cancel t =>
      c ← calls st !! t;
      match c_pc c with
      | Waiting u =>
          Some (mkState (st_pts st) (set_pc t c Update_cancel (calls st))
                  (transports st))
      | _ => None
      end
  end.

(** A schedule, run from left to right. *)
Fixpoint run (es : list event) (st : state) : option state :=
  match es with
  | [] => Some st
  | e :: es' => st' ← step e st; run es' st'
  end.

(** [n] calls of [Update] for host [k] on a cache [pts]. *)
Definition start (pts : priceTables) (k : PublicKey) (n : nat) : state :=
  mkState pts (replicate n (mkCall k Entering)) [].

Inductive reachable (init : state) : state -> Prop :=
  | reachable_init : reachable init init
  | reachable_step st e st' :
      reachable init st -> step e st = Some st' -> reachable init st'.

End PriceTables.

(** * The vocabulary of the properties *)

(** ** Windows of a slice list, and sample objects *)

(** What it means for [res] to be the window of [S] that starts at slice
    [i], entered [fo] bytes into that slice: same slabs in the same order,
    the first [Offset] moved on by [fo] (in [uint32]), every [Length] but
    the last the part of the slice from there on, the last one cut. *)
Definition available (fo : Z) (k : nat) (s : SlabSlice) : Z :=
  if decide (k = 0%nat) then Length s - fo else Length s.

Definition is_window (S : list SlabSlice) (i : nat) (fo : Z)
    (res : list SlabSlice) : Prop :=
  res ≠ [] /\ (i + List.length res <= List.length S)%nat /\
  forall k r, res !! k = Some r ->
    exists s, S !! (i + k)%nat = Some s /\ slab r = slab s /\
      Offset r = (if decide (k = 0%nat) then wrap32 (Offset s + fo)
                  else Offset s) /\
      0 <= Length r /\
      (if decide (Datatypes.S k = List.length res)
       then Length r <= available fo k s
       else Length r = available fo k s).

(** The bytes a slice stands for, as positions in the data of its slab,
    and the bytes of an object. *)
Definition slice_bytes (ss : SlabSlice) : list (Slab * Z) :=
  (fun p => (slab ss, p)) <$> seqZ (Offset ss) (Length ss).

Definition object_bytes (S : list SlabSlice) : list (Slab * Z) :=
  S ≫= slice_bytes.

(** An object of three slices of one slab, and the slice value for it. *)
Definition example_slab : Slab := mkSlab 1 [mkSector 7%N 11%N].

Definition example_slices : list SlabSlice :=
  [mkSlabSlice example_slab 0 10; mkSlabSlice example_slab 5 10;
   mkSlabSlice example_slab 0 10].

Definition example_store : gmap nat (list SlabSlice) :=
  {[ 0%nat := example_slices ]}.

Definition example_goslice : SliceStore.goslice := SliceStore.mkSlice 0 0 3.

Definition empty_goslice : SliceStore.goslice := SliceStore.mkSlice 0 0 0.

(** ** What a slab download has outstanding, and its invariant *)

Section DownloadVocabulary.
Set Implicit Arguments.

Variable dataPoints : Type.

Implicit Types (mgr : downloadManager dataPoints) (d : downloader dataPoints).
Implicit Types (s : slabDownload).

Definition all_open (ds : gmap PublicKey (downloader dataPoints)) : Prop :=
  forall hk d, ds !! hk = Some d -> d_stopChan d = false.

Definition all_closed (ds : gmap PublicKey (downloader dataPoints)) : Prop :=
  forall hk d, ds !! hk = Some d -> d_stopChan d = true.

(** *** What a slab download has outstanding

    [flat g m] lists what [g] finds in the values of the map [m]: the
    sector indices still filed under a host, the requests queued at the
    downloaders. *)
Definition flat {V A : Type} (g : V -> list A) (m : gmap PublicKey V)
  : list A :=
  map_to_list m ≫= (fun kv => g kv.2).

(** The sector indices of the requests of a list that answer on [me]. *)
Definition own (me : nat) (l : list sectorDownloadReq) : list Z :=
  req_sectorIndex <$> filter (fun r => req_responseChan r = me) l.

(** The sector indices of the successful responses of a list. *)
Definition successes (l : list sectorDownloadResp) : list sectorDownloadResp :=
  filter (fun r => resp_err r = None) l.

Definition queued mgr : list sectorDownloadReq :=
  flat (@queue dataPoints) (downloaders mgr).

Definition remaining s : list Z :=
  flat (fmap index) (hostToSectors s).

Definition outstanding (me : nat) (σ : system dataPoints) : list Z :=
  remaining (sys_slab σ) ++ own me (queued (sys_mgr σ)) ++
  own me (sys_executing σ) ++ (resp_sectorIndex <$> successes (sys_chan σ)).

(** The number of entries of the shard matrix that are not [nil]. *)
Definition filled (l : list (option (list byte))) : nat :=
  List.length (filter (fun o => is_Some o) l).

(** The errors [receive] collects from a list of responses. *)
Definition collected (l : list sectorDownloadResp) : HostErrorSet :=
  omap (fun r => mkHostError (resp_hk r) <$> resp_err r) l.

(** *** The invariant of a slab download

    No sector index is outstanding twice, an outstanding index is not
    filled yet, and the shard matrix holds what the successful responses
    received so far carried, one entry for each. *)
Record inv (n me : nat) (σ : system dataPoints) : Prop := mkInv {
  inv_len : List.length (sectors (sys_slab σ)) = n;
  inv_nodup : NoDup (outstanding me σ);
  inv_unfilled : forall i, i ∈ outstanding me σ ->
    0 <= i /\ sectors (sys_slab σ) !! Z.to_nat i = Some None;
  inv_chan : forall r, r ∈ sys_chan σ -> resp_err r = None ->
    is_Some (resp_sector r);
  inv_completed :
    numCompleted (sys_slab σ) = Z.of_nat (filled (sectors (sys_slab σ)));
  inv_count :
    filled (sectors (sys_slab σ))
      = List.length (successes (sys_received σ));
  inv_stored : forall r, r ∈ successes (sys_received σ) ->
    0 <= resp_sectorIndex r /\ is_Some (resp_sector r) /\
    sectors (sys_slab σ) !! Z.to_nat (resp_sectorIndex r)
      = Some (resp_sector r);
  inv_from : forall i b, sectors (sys_slab σ) !! i = Some (Some b) ->
    exists r, r ∈ successes (sys_received σ) /\
              resp_sectorIndex r = Z.of_nat i /\ resp_sector r = Some b;
  inv_errs : errs (sys_slab σ) = collected (sys_received σ)
}.

(** *** The counters of a slab download

    What is under way for the slab download: its requests queued at a
    downloader or being executed, and the responses waiting on its
    channel. *)
Definition pending (me : nat) (σ : system dataPoints) : nat :=
  (List.length (own me (queued (sys_mgr σ))) +
   List.length (own me (sys_executing σ)) +
   List.length (sys_chan σ))%nat.

(** [numLaunched] and the sector indices not handed out yet stay within the
    [n] shards; [numInflight] is what was launched and not received, and
    covers what is under way. *)
Record accounts (n me : nat) (σ : system dataPoints) : Prop := mkAccounts {
  acc_launched : 0 <= numLaunched (sys_slab σ);
  acc_budget :
    numLaunched (sys_slab σ) + Z.of_nat (List.length (remaining (sys_slab σ)))
      <= Z.of_nat n;
  acc_inflight :
    numInflight (sys_slab σ)
      = numLaunched (sys_slab σ) - Z.of_nat (List.length (sys_received σ));
  acc_pending : Z.of_nat (pending me σ) <= numInflight (sys_slab σ)
}.

(** *** The sectors filed under the hosts

    Every sector still filed under a host is a shard of the slab, filed
    with its index and under the host that stores it; the slab download
    carries the region [region] of the sectors. *)
Record filed (shards : list Sector) (region : Z * Z) s : Prop := mkFiled {
  filed_shard : forall hk l si,
    hostToSectors s !! hk = Some l -> si ∈ l ->
    0 <= index si /\ shards !! Z.to_nat (index si) = Some (si_sector si) /\
    Host (si_sector si) = hk;
  filed_region : (sd_offset s, sd_length s) = region
}.

(** *** The overdrive requests under way

    The requests of the slab download queued or executing and the
    responses waiting on its channel, by kind: overdrive ([od = true]) or
    primary. *)
Definition pending_kind (od : bool) (me : nat) (σ : system dataPoints) : nat :=
  (List.length (filter (fun r => req_responseChan r = me /\ req_overdrive r = od)
                  (queued (sys_mgr σ))) +
   List.length (filter (fun r => req_responseChan r = me /\ req_overdrive r = od)
                  (sys_executing σ)) +
   List.length (filter (fun r => resp_overdrive r = od) (sys_chan σ)))%nat.

Record overdrive_accounts (me : nat) (σ : system dataPoints) : Prop :=
  mkOverdriveAccounts {
  od_overdrive :
    Z.of_nat (pending_kind true me σ) <= numOverdriving (sys_slab σ);
  od_primary :
    Z.of_nat (pending_kind false me σ)
      <= numInflight (sys_slab σ) - numOverdriving (sys_slab σ)
}.

Unset Implicit Arguments.
End DownloadVocabulary.

(** ** Sample instances *)

Definition example_contracts : list ContractMetadata :=
  [mkContract 1%N 7%N "host7:9983"].

(** A stand-in for [mgr.fastest]: the first host offered. *)
Definition first_host (hosts : list PublicKey) : PublicKey :=
  default 0%N (head hosts).

(** A sample tracker keeps the samples it was given, latest first; integers
    stand for [float64]; an error is classified by its text. *)
Definition sample_newDataPoints (halfLife : Z) : list Z := [].

Definition sample_Track (d : list Z) (x : Z) : list Z := x :: d.

Definition sample_is (text : string) (e : error) : bool :=
  match e with
  | ErrNew msg => String.eqb msg text
  | _ => false
  end.

Definition sample_SectorRegion (ss : SlabSlice) : Z * Z :=
  (Offset ss, Length ss).

Definition sample_downloader : downloader (list Z) :=
  newDownloader sample_newDataPoints 0 (mkContract 1%N 7%N "host7:9983").

Definition sample_manager : downloadManager (list Z) :=
  set_downloaders {[ 7%N := sample_downloader ]}
    (newDownloadManager sample_newDataPoints 1 0).

Definition sample_slice : SlabSlice := mkSlabSlice example_slab 0 10.

Definition sample_sector : list byte := [x01; x02; x03].

Definition sample_request : sectorDownloadReq :=
  {| req_length := 10; req_offset := 0; req_root := 11%N; req_hk := 7%N;
     req_overdrive := false; req_sectorIndex := 0; req_responseChan := 5 |}.

Definition sample_response : sectorDownloadResp :=
  {| resp_overdrive := false; resp_hk := 7%N; resp_sectorIndex := 0;
     resp_sector := Some sample_sector; resp_err := None |}.

(** The slab download of [sample_slice] on response channel 5: made, ... *)
Definition sample_system0 : system (list Z) :=
  let '(mgr, s) := newSlabDownload sample_SectorRegion sample_manager 3%N
                     sample_slice in
  mkSystem mgr s [] [] [].

(** ... its one request launched, ... *)
Definition sample_system1 : system (list Z) :=
  let '(s1, req) := nextRequest first_host (sys_slab sample_system0) 5 false in
  let '(mgr, s2, _) := launch (sys_mgr sample_system0) s1 req in
  mkSystem mgr s2 [] [] [].

(** ... popped by the downloader of host 7, ... *)
Definition sample_system2 : system (list Z) :=
  mkSystem
    (set_downloaders
       (<[7%N := (pop (set_signalWorkChan true
                         (set_queue [sample_request] sample_downloader))).1]>
          (downloaders (sys_mgr sample_system1)))
       (sys_mgr sample_system1))
    (sys_slab sample_system1) [sample_request] [] [].

(** ... executed with success, ... *)
Definition sample_system3 : system (list Z) :=
  mkSystem
    (set_downloaders
       (<[7%N := set_consecutiveFailures 0
                   (set_numDownloads 1
                      (set_signalWorkChan true sample_downloader))]>
          (downloaders (sys_mgr sample_system2)))
       (sys_mgr sample_system2))
    (sys_slab sample_system2) [] [sample_response] [].

(** ... and the response received. *)
Definition sample_system4 : system (list Z) :=
  mkSystem (sys_mgr sample_system3)
    (set_numCompleted 1
       (set_sectors [Some sample_sector]
          (set_numInflight 0 (sys_slab sample_system3))))
    [] [] [sample_response].

Definition sample_manager_stopped : downloadManager (list Z) :=
  set_downloaders {[ 7%N := set_d_stopChan true sample_downloader ]}
    (set_stopChan true sample_manager).

(** A codec that leaves the shards as they are and always recovers, and
    the responses for the three slabs of [example_slices], the last one
    first. *)
Definition sample_Decrypt (ss : SlabSlice) (shards : list (option (list byte)))
  : list (option (list byte)) := shards.

Definition sample_Recover (ss : SlabSlice) (shards : list (option (list byte)))
  : option error := None.

Definition sample_slab_responses : list slabDownloadResponse :=
  [mkSlabResponse [Some sample_sector] 2 None;
   mkSlabResponse [Some sample_sector] 0 None;
   mkSlabResponse [Some sample_sector] 1 None].

(** Stand-ins for the statistics of a sample tracker: the latest sample, or
    0 when there is none. *)
Definition sample_P90 (d : list Z) : Z := default 0 (head d).

Definition sample_MaxFloat64 : Z := 2 ^ 1024.

(** ** Single flight of the price-table refresh *)

Section PriceTableVocabulary.
Import PriceTables.

(** A call leads update [u] while it is between starting it and publishing
    its result. *)
Definition leads (c : call) (u : nat) : Prop :=
  c_pc c = Leading u \/ exists hpt err, c_pc c = Publishing u hpt err.

(** The entry and the update object a leader works on. *)
Definition leader_ok (pts : priceTables) (k : PublicKey) (u : nat) : Prop :=
  exists p upd,
    tables pts !! k = Some p /\ ongoingUpdate p = Some u /\
    updates pts !! u = Some upd /\ u_done upd = false.

(** Single flight: a leader's update is the ongoing update of its host and
    is not done, no two calls lead the same update, and no update object
    ever has its [pt] set. *)
Record pt_inv (st : state) : Prop := mkPtInv {
  inv_leader : forall t c u, calls st !! t = Some c -> leads c u ->
    leader_ok (st_pts st) (c_hk c) u;
  inv_unique : forall t1 t2 c1 c2 u,
    calls st !! t1 = Some c1 -> calls st !! t2 = Some c2 ->
    leads c1 u -> leads c2 u -> t1 = t2;
  inv_nil : forall u upd, updates (st_pts st) !! u = Some upd -> u_pt upd = None
}.

(** Where no update is under way: every call is about to enter. *)
Definition quiescent (st : state) : Prop :=
  (forall t c, calls st !! t = Some c -> c_pc c = Entering) /\
  (forall u upd, updates (st_pts st) !! u = Some upd -> u_pt upd = None).

Definition sample_hpt : HostPriceTable :=
  mkHostPriceTable 1%N (600 * Second) 0%N.

Definition sample_failure : error := ErrNew "host unreachable".

(** One call for host 7 on an empty cache, back from the transport. *)
Definition sample_publishing : state :=
  mkState
    (mkPriceTables {[ 7%N := mkPriceTable None 7%N 0 (Some 0%nat) ]}
       [mkUpdate None false None])
    [mkCall 7%N (Publishing 0 sample_hpt None)]
    [7%N].

(** The calls that have started an update and not yet gone to the
    transport. *)
Definition is_Leading (c : call) : bool :=
  match c_pc c with
  | Leading _ => true
  | _ => false
  end.

Definition leading (l : list call) : nat :=
  List.length (filter (fun c => is_Leading c = true) l).

(** Two calls for host 7 on an empty cache: the first is back from a
    transport that failed, the second waits for it ... *)
Definition sample_failing : state :=
  mkState
    (mkPriceTables {[ 7%N := mkPriceTable None 7%N 0 (Some 0%nat) ]}
       [mkUpdate None false None])
    [mkCall 7%N (Publishing 0 sample_hpt (Some sample_failure));
     mkCall 7%N (Waiting 0)]
    [7%N].

(** ... and the same where the transport succeeded and the first call has
    published at time 1000. *)
Definition sample_published : state :=
  mkState
    (mkPriceTables
       {[ 7%N := mkPriceTable (Some sample_hpt) 7%N (1000 + 600 * Second)
                   None ]}
       [mkUpdate None true None])
    [mkCall 7%N (Returned sample_hpt None); mkCall 7%N (Waiting 0)]
    [7%N].

End PriceTableVocabulary.

(** * Properties *)

(** ** The slab range selector *)

Section SlabRangeFacts.
Import SlabRange.

Lemma total_app l1 l2 : total (l1 ++ l2) = total l1 + total l2.
Proof. induction l1 as [|a l1 IH]; simpl; lia. Qed.

Lemma total_take_drop k l : total (take k l) + total (drop k l) = total l.
Proof. rewrite <- total_app, take_drop. reflexivity. Qed.

Lemma total_nonneg l : Forall wf_slice l -> 0 <= total l.
Proof.
  induction 1 as [|a l [_ [Ha _]] _ IH]; simpl; lia.
Qed.

Lemma wrap64_small z : is_uint64 z -> wrap64 z = z.
Proof. intros H. apply Z.mod_small. exact H. Qed.

Lemma wrap32_small z : is_uint32 z -> wrap32 z = z.
Proof. intros H. apply Z.mod_small. unfold is_uint32, MaxUint32 in H. lia. Qed.

Lemma cast32_small z : is_uint32 z -> cast32 z = Ok z.
Proof.
  intros H. unfold cast32.
  destruct (Z.ltb_spec MaxUint32 z) as [Hlt|_].
  - unfold is_uint32 in H. lia.
  - rewrite wrap32_small; auto.
Qed.

Lemma cast32_large z : MaxUint32 < z -> cast32 z = Panic PanicOverflow.
Proof.
  intros H. unfold cast32.
  destruct (Z.ltb_spec MaxUint32 z); [reflexivity | lia].
Qed.

Lemma lastLoop_firstLoop l : forall i x, lastLoop l i x = firstLoop l i x.
Proof.
  induction l as [|a l IH]; intros i x; simpl; [reflexivity|].
  destruct (x <=? Length a); [reflexivity | apply IH].
Qed.

(** Where a loop stops: at the first slice that holds the running value. *)
Lemma firstLoop_spec l :
  Forall wf_slice l -> forall i0 x, is_uint64 x ->
  match firstLoop l i0 x with
  | (Some i, y) =>
      exists k ss, i = (i0 + k)%nat /\ l !! k = Some ss /\
                   y = x - total (take k l) /\ 0 <= y <= Length ss
  | (None, y) => y = x - total l /\ total l <= x /\ (l ≠ [] -> total l < x)
  end.
Proof.
  induction 1 as [|a l [_ [Ha Ha']] Hl IH]; intros i0 x Hx; simpl.
  - unfold is_uint64 in Hx. repeat split; [lia | lia | congruence].
  - destruct (Z.leb_spec x (Length a)) as [Hle|Hgt].
    + exists 0%nat, a. simpl. unfold is_uint64 in Hx.
      repeat split; [lia | lia | lia | lia].
    + assert (Hx' : is_uint64 (x - Length a))
        by (unfold is_uint64 in *; lia).
      rewrite (wrap64_small _ Hx').
      specialize (IH (Datatypes.S i0) (x - Length a) Hx').
      destruct (firstLoop l (Datatypes.S i0) (x - Length a)) as [[i|] y].
      * destruct IH as (k & ss & -> & Hk & -> & Hy).
        exists (Datatypes.S k), ss. simpl.
        repeat split; [lia | assumption | lia | lia | lia].
      * destruct IH as (-> & Hle & Hlt).
        repeat split; [lia | lia |].
        intros _. destruct l as [|b l'].
        -- simpl. lia.
        -- assert (b :: l' ≠ []) as Hne by discriminate.
           specialize (Hlt Hne). lia.
Qed.

Lemma update_at_Some l i f ss :
  l !! i = Some ss -> update_at l i f = Ok (<[i := f ss]> l).
Proof. intros H. unfold update_at. rewrite H. reflexivity. Qed.

Lemma update_at_None l i f :
  l !! i = None -> update_at l i f = Panic PanicIndexOutOfRange.
Proof. intros H. unfold update_at. rewrite H. reflexivity. Qed.

Lemma bind_Ok {A B} (a : A) (f : A -> result B) : (Ok a ≫= f) = f a.
Proof. reflexivity. Qed.

Lemma advance_Length fo ss :
  is_uint32 (Length ss) -> 0 <= fo <= Length ss ->
  Length (advance fo ss) = Length ss - fo.
Proof.
  intros [H0 H1] Hfo. simpl. apply wrap32_small. unfold is_uint32. lia.
Qed.

Lemma advance_wf fo ss :
  is_uint32 (Length ss) -> 0 <= fo <= Length ss -> wf_slice (advance fo ss).
Proof.
  intros Hl Hfo. split.
  - simpl. unfold is_uint32, wrap32, MaxUint32.
    pose proof (Z.mod_pos_bound (Offset ss + fo) (2 ^ 32)). lia.
  - rewrite advance_Length by assumption.
    destruct Hl. unfold is_uint32. lia.
Qed.

(** The first half: the slices before the range are dropped and the
    first one left is entered [fo] bytes. *)
Lemma slabsForDownload_first_half S offset length :
  S ≠ [] -> Forall wf_slice S -> is_uint64 offset -> offset <= total S ->
  exists i ss,
    let fo := offset - total (take i S) in
    let slabs2 := advance fo ss :: drop (Datatypes.S i) S in
    S !! i = Some ss /\ 0 <= fo <= Length ss /\
    Forall wf_slice slabs2 /\ total slabs2 = total S - offset /\
    slabsForDownload S offset length =
      (let '(cut, lastLength) := lastLoop slabs2 0 length in
       let slabs3 :=
         match cut with
         | Some i => take (Datatypes.S i) slabs2
         | None => slabs2
         end in
       c' ← cast32 lastLength;
       update_at slabs3 (Nat.pred (List.length slabs3)) (truncate c')).
Proof.
  intros Hne Hwf Ho Hrange.
  unfold slabsForDownload.
  pose proof (firstLoop_spec S Hwf 0%nat offset Ho) as H1.
  destruct (firstLoop S 0 offset) as [[i|] fo].
  2:{ destruct H1 as (_ & _ & H1). specialize (H1 Hne). lia. }
  destruct H1 as (k & ss & -> & Hk & Hfo & Hfo'). simpl plus.
  assert (Hss : wf_slice ss).
  { rewrite Forall_lookup in Hwf. eauto. }
  destruct Hss as [Hso Hsl].
  rewrite (drop_S _ _ _ Hk).
  remember (drop (Datatypes.S k) S) as tl eqn:Htl.
  assert (Hfo32 : is_uint32 fo).
  { destruct Hsl. unfold is_uint32. lia. }
  rewrite (cast32_small _ Hfo32), bind_Ok.
  rewrite (update_at_Some _ 0%nat _ ss) by reflexivity.
  rewrite bind_Ok.
  change (<[0%nat:=advance fo ss]> (ss :: tl)) with (advance fo ss :: tl).
  pose proof (advance_Length fo ss Hsl Hfo') as Hadv.
  exists k, ss. cbv zeta. rewrite <- Hfo, <- Htl.
  split; [assumption|]. split; [assumption|]. split; [|split].
  - constructor.
    + apply advance_wf; assumption.
    + subst tl. apply Forall_drop. assumption.
  - pose proof (total_take_drop k S) as Htd.
    rewrite (drop_S _ _ _ Hk), <- Htl in Htd.
    change (total (advance fo ss :: tl))
      with (Length (advance fo ss) + total tl).
    change (total (ss :: tl)) with (Length ss + total tl) in Htd.
    lia.
  - reflexivity.
Qed.

(** The shape of a successful run: the window is [ss' :: tl] cut after
    [j] slices, the last of them truncated. *)
Lemma slabsForDownload_shape S offset length :
  S ≠ [] -> Forall wf_slice S -> is_uint64 offset -> is_uint64 length ->
  offset + length <= total S ->
  exists i j ss tl ls,
    let fo := offset - total (take i S) in
    let ll := length - total (take j (advance fo ss :: tl)) in
    S !! i = Some ss /\ drop (Datatypes.S i) S = tl /\
    0 <= fo <= Length ss /\
    (advance fo ss :: tl) !! j = Some ls /\ 0 <= ll <= Length ls /\
    slabsForDownload S offset length =
      Ok (take j (advance fo ss :: tl) ++ [truncate ll ls]).
Proof.
  intros Hne Hwf Ho Hl Hrange.
  assert (Hin : offset <= total S) by (unfold is_uint64 in Hl; lia).
  destruct (slabsForDownload_first_half S offset length Hne Hwf Ho Hin)
    as (k & ss & Hk & Hfo' & Hwf2 & Htot & ->).
  cbv zeta in *.
  remember (offset - total (take k S)) as fo eqn:Hfo.
  remember (drop (Datatypes.S k) S) as tl eqn:Htl.
  remember (advance fo ss :: tl) as slabs2 eqn:Hs2.
  rewrite lastLoop_firstLoop.
  pose proof (firstLoop_spec _ Hwf2 0%nat length Hl) as H2.
  destruct (firstLoop slabs2 0 length) as [[j|] ll].
  2:{ destruct H2 as (_ & _ & H2).
      assert (slabs2 ≠ []) as Hne2 by (subst slabs2; discriminate).
      specialize (H2 Hne2). lia. }
  destruct H2 as (j' & ls & -> & Hj & Hll & Hll'). simpl plus.
  assert (Hls : wf_slice ls).
  { rewrite Forall_lookup in Hwf2. eauto. }
  rewrite cast32_small, bind_Ok.
  2:{ destruct Hls as [_ [? ?]]. unfold is_uint32. lia. }
  pose proof (lookup_lt_Some _ _ _ Hj) as Hjlt.
  assert (Hlt : List.length (take j' slabs2) = j').
  { rewrite length_take. lia. }
  rewrite (take_S_r _ _ _ Hj).
  rewrite length_app, Hlt. simpl List.length.
  replace (Nat.pred (j' + 1)) with (List.length (take j' slabs2) + 0)%nat
    by lia.
  rewrite (update_at_Some _ _ _ ls).
  2:{ rewrite lookup_app_r by lia.
      replace (List.length (take j' slabs2) + 0
               - List.length (take j' slabs2))%nat with 0%nat by lia.
      reflexivity. }
  rewrite insert_app_r.
  exists k, j', ss, tl, ls. cbv zeta.
  rewrite <- Hfo, <- Hs2, <- Hll.
  repeat split; try assumption; try lia; try (subst tl; reflexivity).
Qed.

Lemma window_lookup S i fo ss k r :
  S !! i = Some ss ->
  (advance fo ss :: drop (Datatypes.S i) S) !! k = Some r ->
  exists s, S !! (i + k)%nat = Some s /\
            r = if decide (k = 0%nat) then advance fo s else s.
Proof.
  intros Hi Hk. destruct k as [|k'].
  - simpl in Hk. injection Hk as <-. exists ss.
    rewrite Nat.add_0_r. split; [assumption | reflexivity].
  - simpl in Hk. rewrite lookup_drop in Hk. exists r.
    replace (i + Datatypes.S k')%nat with (Datatypes.S i + k')%nat by lia.
    split; [assumption | reflexivity].
Qed.

Lemma shape_is_window S i j fo ll ss ls :
  Forall wf_slice S ->
  S !! i = Some ss -> 0 <= fo <= Length ss ->
  (advance fo ss :: drop (Datatypes.S i) S) !! j = Some ls ->
  0 <= ll <= Length ls ->
  is_window S i fo
    (take j (advance fo ss :: drop (Datatypes.S i) S) ++ [truncate ll ls]).
Proof.
  intros Hwf Hi Hfo Hj Hll.
  set (s2 := advance fo ss :: drop (Datatypes.S i) S) in *.
  pose proof (lookup_lt_Some _ _ _ Hj) as Hjlt.
  pose proof (lookup_lt_Some _ _ _ Hi) as Hilt.
  assert (Hlen2 : List.length s2 = (List.length S - i)%nat).
  { unfold s2. simpl. rewrite length_drop. lia. }
  assert (Hlt : List.length (take j s2) = j) by (rewrite length_take; lia).
  assert (Hwfss : wf_slice ss) by (rewrite Forall_lookup in Hwf; eauto).
  split; [|split].
  - intros Habs. apply (f_equal List.length) in Habs.
    rewrite length_app in Habs. simpl in Habs. lia.
  - rewrite length_app, Hlt. simpl. lia.
  - intros k r Hk. rewrite length_app, Hlt. simpl List.length.
    destruct (decide (k < j)%nat) as [Hkj|Hkj].
    + rewrite lookup_app_l in Hk by lia.
      rewrite lookup_take_lt in Hk by lia.
      destruct (window_lookup _ _ _ _ _ _ Hi Hk) as (s & Hs & ->).
      assert (Hwfs : wf_slice s) by (rewrite Forall_lookup in Hwf; eauto).
      exists s. split; [assumption|].
      destruct (decide (Datatypes.S k = (j + 1)%nat)) as [?|_]; [lia|].
      unfold available.
      destruct (decide (k = 0%nat)) as [->|Hk0].
      * rewrite Nat.add_0_r in Hs. assert (s = ss) as -> by congruence.
        rewrite advance_Length by (destruct Hwfss; assumption).
        repeat split; try reflexivity. lia.
      * destruct Hwfs as [_ [? ?]]. repeat split; try reflexivity. lia.
    + rewrite lookup_app_r in Hk by lia. rewrite Hlt in Hk.
      destruct (k - j)%nat as [|n] eqn:Hkj'; [|discriminate Hk].
      assert (k = j) as -> by (apply lookup_lt_Some in Hk; simpl in Hk; lia).
      simpl in Hk. injection Hk as <-.
      destruct (window_lookup _ _ _ _ _ _ Hi Hj) as (s & Hs & ->).
      exists s. split; [assumption|].
      destruct (decide (Datatypes.S j = (j + 1)%nat)) as [_|?]; [|lia].
      unfold available.
      destruct (decide (j = 0%nat)) as [->|Hj0].
      * rewrite Nat.add_0_r in Hs. assert (s = ss) as -> by congruence.
        rewrite advance_Length in Hll by (destruct Hwfss; assumption).
        simpl. repeat split; try reflexivity; lia.
      * simpl. repeat split; try reflexivity; lia.
Qed.

Lemma total_snoc l x : total (l ++ [x]) = total l + Length x.
Proof. rewrite total_app. simpl. lia. Qed.

(** [slabsForDownload] on a non-empty object and a range inside it. *)
Lemma slabsForDownload_window S offset length :
  S ≠ [] -> Forall wf_slice S -> is_uint64 offset -> is_uint64 length ->
  offset + length <= total S ->
  exists res i,
    slabsForDownload S offset length = Ok res /\
    0 <= offset - total (take i S) /\
    is_window S i (offset - total (take i S)) res /\
    total res = length.
Proof.
  intros Hne Hwf Ho Hl Hrange.
  destruct (slabsForDownload_shape S offset length Hne Hwf Ho Hl Hrange)
    as (i & j & ss & tl & ls & Hi & Htl & Hfo & Hj & Hll & Heq).
  subst tl. eexists _, i. split; [exact Heq|].
  split; [lia|]. split.
  - apply shape_is_window; assumption.
  - rewrite total_snoc. simpl. lia.
Qed.

(** [slabs[0]] of an object without slabs is out of range. *)
Lemma slabsForDownload_nil offset length :
  is_uint32 offset ->
  slabsForDownload [] offset length = Panic PanicIndexOutOfRange.
Proof.
  intros H. unfold slabsForDownload. simpl firstLoop. cbv iota beta.
  rewrite (cast32_small _ H), bind_Ok. reflexivity.
Qed.

(** The result is never the empty list: its last element is written. *)
Lemma slabsForDownload_nonempty S offset length res :
  slabsForDownload S offset length = Ok res -> res ≠ [].
Proof.
  unfold slabsForDownload.
  destruct (firstLoop S 0 offset) as [brk fo].
  destruct (cast32 fo) as [c|]; [rewrite bind_Ok | discriminate].
  destruct (update_at _ 0 (advance c)) as [slabs2|];
    [rewrite bind_Ok | discriminate].
  destruct (lastLoop slabs2 0 length) as [cut ll].
  destruct (cast32 ll) as [c'|]; [rewrite bind_Ok | discriminate].
  unfold update_at.
  destruct (_ !! _) eqn:Hlk; [|discriminate].
  intros [= <-] Habs.
  apply (f_equal List.length) in Habs. rewrite length_insert in Habs.
  apply lookup_lt_Some in Hlk. simpl in Habs. lia.
Qed.

(** *** The bytes of the selected slices *)

Lemma length_slice_bytes ss :
  List.length (slice_bytes ss) = Z.to_nat (Length ss).
Proof. unfold slice_bytes. rewrite length_fmap. apply length_seqZ. Qed.

Lemma object_bytes_app l1 l2 :
  object_bytes (l1 ++ l2) = object_bytes l1 ++ object_bytes l2.
Proof. apply bind_app. Qed.

Lemma object_bytes_cons ss l :
  object_bytes (ss :: l) = slice_bytes ss ++ object_bytes l.
Proof. reflexivity. Qed.

Lemma length_object_bytes l :
  Forall wf_slice l -> List.length (object_bytes l) = Z.to_nat (total l).
Proof.
  induction 1 as [|a l [_ [Ha _]] Hl IH]; [reflexivity|].
  rewrite object_bytes_cons, length_app, length_slice_bytes, IH. simpl.
  pose proof (total_nonneg l Hl). lia.
Qed.

Lemma slice_bytes_advance fo ss :
  wf_slice ss -> Offset ss + Length ss <= MaxUint32 ->
  0 <= fo <= Length ss ->
  slice_bytes (advance fo ss) = drop (Z.to_nat fo) (slice_bytes ss).
Proof.
  intros [[Ho _] Hl] Hmax Hfo. unfold slice_bytes.
  rewrite advance_Length by assumption. simpl.
  rewrite wrap32_small by (unfold is_uint32; lia).
  rewrite <- fmap_drop. f_equal.
  replace (Length ss) with (fo + (Length ss - fo)) at 2 by lia.
  rewrite seqZ_app by lia.
  rewrite drop_app_length' by (rewrite length_seqZ; reflexivity).
  reflexivity.
Qed.

Lemma slice_bytes_truncate ll ls :
  0 <= ll <= Length ls ->
  slice_bytes (truncate ll ls) = take (Z.to_nat ll) (slice_bytes ls).
Proof.
  intros Hll. unfold slice_bytes. simpl.
  rewrite <- fmap_take. f_equal.
  replace (Length ls) with (ll + (Length ls - ll)) by lia.
  rewrite seqZ_app by lia.
  rewrite take_app_length' by (rewrite length_seqZ; reflexivity).
  reflexivity.
Qed.

(** X15.  The slices [slabsForDownload] returns stand for exactly the bytes
    asked for: for a non-empty object whose slices lie within the 32 bit
    addresses of their slabs, and a range inside the object, the bytes of
    the returned slices, one slice after the other, are the [length] bytes
    of the object from byte [offset] on. *)
Theorem slabsForDownload_bytes S offset length :
  S ≠ [] -> Forall wf_slice S ->
  Forall (fun ss => Offset ss + Length ss <= MaxUint32) S ->
  is_uint64 offset -> is_uint64 length -> offset + length <= total S ->
  exists res,
    slabsForDownload S offset length = Ok res /\
    object_bytes res
      = take (Z.to_nat length) (drop (Z.to_nat offset) (object_bytes S)).
Proof.
  intros Hne Hwf Hmax Ho Hl Hin.
  destruct (slabsForDownload_shape S offset length Hne Hwf Ho Hl Hin)
    as (i & j & ss & tl & ls & HSi & Htl & Hfo & HXj & Hll & Hres).
  cbv zeta in *.
  set (fo := offset - total (take i S)) in *.
  set (X := advance fo ss :: tl) in *.
  set (ll := length - total (take j X)) in *.
  exists (take j X ++ [truncate ll ls]). split; [exact Hres|].
  assert (Hss : wf_slice ss)
    by (eapply Forall_lookup_1; eassumption).
  assert (Hssmax : Offset ss + Length ss <= MaxUint32)
    by (apply (Forall_lookup_1 _ _ _ _ Hmax HSi)).
  assert (HwfX : Forall wf_slice X).
  { unfold X. constructor; [apply advance_wf; [apply Hss | assumption]|].
    rewrite <- Htl. apply Forall_drop. assumption. }
  (* the object from [offset] on *)
  assert (Hdrop : drop (Z.to_nat offset) (object_bytes S) = object_bytes X).
  { rewrite <- (take_drop_middle S i ss HSi) at 1.
    rewrite object_bytes_app, object_bytes_cons, Htl.
    pose proof (length_object_bytes (take i S) (Forall_take _ _ _ Hwf)) as Hlen.
    pose proof (total_nonneg (take i S) (Forall_take _ _ _ Hwf)) as Hnn.
    rewrite drop_app, drop_ge by lia.
    replace (Z.to_nat offset - List.length (object_bytes (take i S)))%nat
      with (Z.to_nat fo) by (unfold fo; lia).
    rewrite drop_app, length_slice_bytes.
    replace (Z.to_nat fo - Z.to_nat (Length ss))%nat with 0%nat by lia.
    unfold X. rewrite object_bytes_cons, slice_bytes_advance by assumption.
    reflexivity. }
  rewrite Hdrop.
  rewrite <- (take_drop_middle X j ls HXj) at 2.
  rewrite !object_bytes_app, !object_bytes_cons.
  pose proof (length_object_bytes (take j X) (Forall_take _ _ _ HwfX)) as Hlen.
  pose proof (total_nonneg (take j X) (Forall_take _ _ _ HwfX)) as Hnn.
  assert (Hlength : length = total (take j X) + ll) by (unfold ll; lia).
  rewrite take_app, (take_ge (object_bytes (take j X))) by lia.
  replace (Z.to_nat length - List.length (object_bytes (take j X)))%nat
    with (Z.to_nat ll) by (unfold ll; lia).
  rewrite take_app, length_slice_bytes.
  replace (Z.to_nat ll - Z.to_nat (Length ls))%nat with 0%nat by lia.
  rewrite slice_bytes_truncate by assumption.
  simpl. rewrite !app_nil_r. reflexivity.
Qed.

End SlabRangeFacts.

(** A range that overshoots the object by more than 32 bits' worth makes
    [cast32] panic: on [firstOffset] when it starts that far behind the
    end, on [lastLength] when it ends that far behind it. *)
Lemma slabsForDownload_overflow_offset S offset length :
  Forall wf_slice S -> is_uint64 offset ->
  SlabRange.total S + MaxUint32 < offset ->
  SlabRange.slabsForDownload S offset length = Panic PanicOverflow.
Proof.
  intros Hwf Ho Hbig. unfold SlabRange.slabsForDownload.
  pose proof (firstLoop_spec S Hwf 0%nat offset Ho) as H1.
  pose proof (total_nonneg S Hwf) as Hnn.
  destruct (SlabRange.firstLoop S 0 offset) as [[i|] fo].
  - destruct H1 as (k & ss & _ & Hk & Hfo & Hfo').
    assert (Hss : wf_slice ss) by (rewrite Forall_lookup in Hwf; eauto).
    destruct Hss as [_ [_ Hmax]].
    pose proof (total_take_drop k S) as Htd.
    pose proof (total_nonneg (drop k S) (Forall_drop _ _ _ Hwf)) as Hd.
    rewrite (drop_S _ _ _ Hk) in Hd.
    change (SlabRange.total (ss :: drop (Datatypes.S k) S))
      with (Length ss + SlabRange.total (drop (Datatypes.S k) S)) in Hd.
    pose proof (total_nonneg (drop (Datatypes.S k) S) (Forall_drop _ _ _ Hwf)).
    rewrite (drop_S _ _ _ Hk) in Htd.
    change (SlabRange.total (ss :: drop (Datatypes.S k) S))
      with (Length ss + SlabRange.total (drop (Datatypes.S k) S)) in Htd.
    lia.
  - destruct H1 as (-> & _ & _).
    rewrite cast32_large by lia. reflexivity.
Qed.

Lemma slabsForDownload_overflow_length S offset length :
  S ≠ [] -> Forall wf_slice S -> is_uint64 offset -> is_uint64 length ->
  offset <= SlabRange.total S ->
  SlabRange.total S - offset + MaxUint32 < length ->
  SlabRange.slabsForDownload S offset length = Panic PanicOverflow.
Proof.
  intros Hne Hwf Ho Hl Hin Hbig.
  destruct (slabsForDownload_first_half S offset length Hne Hwf Ho Hin)
    as (k & ss & Hk & Hfo & Hwf2 & Htot & ->).
  cbv zeta in *.
  remember (SlabRange.advance (offset - SlabRange.total (take k S)) ss
            :: drop (Datatypes.S k) S) as slabs2 eqn:Hs2.
  rewrite lastLoop_firstLoop.
  pose proof (firstLoop_spec _ Hwf2 0%nat length Hl) as H2.
  destruct (SlabRange.firstLoop slabs2 0 length) as [[j|] ll].
  - destruct H2 as (j' & ls & _ & Hj & Hll & Hll').
    assert (Hls : wf_slice ls) by (rewrite Forall_lookup in Hwf2; eauto).
    destruct Hls as [_ [_ Hmax]].
    pose proof (total_take_drop j' slabs2) as Htd.
    pose proof (total_nonneg (take j' slabs2) (Forall_take _ _ _ Hwf2)).
    pose proof (total_nonneg (drop j' slabs2) (Forall_drop _ _ _ Hwf2)).
    lia.
  - destruct H2 as (-> & _ & _).
    rewrite cast32_large by lia. reflexivity.
Qed.

(** ** [slabsForDownload] through the store *)

Section SliceStoreFacts.
Import SlabRange SliceStore.

Lemma view_length h s : wf_goslice h s -> List.length (view h s) = len s.
Proof.
  intros [_ Hb]. unfold view. rewrite length_take, length_drop. lia.
Qed.

Lemma view_lookup h s i :
  view h s !! i =
    if decide (i < len s)%nat then array_of h s !! (lo s + i)%nat else None.
Proof.
  unfold view. destruct (decide (i < len s)%nat) as [Hlt|Hge].
  - rewrite lookup_take_lt by assumption. apply lookup_drop.
  - apply lookup_take_ge. lia.
Qed.

Lemma view_slice_from h s i :
  (i <= len s)%nat -> view h (slice_from s i) = drop i (view h s).
Proof.
  intros Hi. unfold view, slice_from, array_of. simpl.
  replace (len s) with (i + (len s - i))%nat at 2 by lia.
  rewrite <- take_drop_commute, drop_drop. reflexivity.
Qed.

Lemma view_slice_to h s j :
  (j <= len s)%nat -> view h (slice_to s j) = take j (view h s).
Proof.
  intros Hj. unfold view, slice_to, array_of. simpl.
  rewrite take_take. f_equal. lia.
Qed.

Lemma firstLoop_index l : forall i0 x i y,
  firstLoop l i0 x = (Some i, y) -> (i0 <= i < i0 + List.length l)%nat.
Proof.
  induction l as [|a l IH]; intros i0 x i y; simpl; [discriminate|].
  destruct (x <=? Length a).
  - intros [= <- _]. lia.
  - intros H. apply IH in H. lia.
Qed.

Lemma store_update_refines h s i f :
  wf_goslice h s ->
  match update_at (view h s) i f with
  | Ok l' =>
      exists A', store_update h s i f = Ok (<[arr s := A']> h) /\
                 List.length A' = List.length (array_of h s) /\
                 view (<[arr s := A']> h) s = l'
  | Panic p => store_update h s i f = Panic p
  end.
Proof.
  intros [Hsome Hb]. unfold update_at, store_update.
  rewrite view_lookup.
  destruct (decide (i < len s)%nat) as [Hlt|Hge]; [|reflexivity].
  destruct (array_of h s !! (lo s + i)%nat) as [ss|] eqn:Hlk; [|reflexivity].
  eexists. split; [reflexivity|]. split; [apply length_insert|].
  unfold view, array_of. rewrite lookup_insert_eq. simpl.
  rewrite drop_insert_ge by lia. rewrite take_insert_lt by lia.
  f_equal. lia.
Qed.

Lemma wf_goslice_insert h s A' s' :
  wf_goslice h s -> List.length A' = List.length (array_of h s) ->
  arr s' = arr s -> (lo s' + len s' <= lo s + len s)%nat ->
  wf_goslice (<[arr s := A']> h) s'.
Proof.
  intros [_ Hb] Hlen Harr Hle. split.
  - rewrite Harr, lookup_insert_eq. eauto.
  - unfold array_of. rewrite Harr, lookup_insert_eq. simpl. lia.
Qed.

(** The store version computes what the list version computes, in a new
    array, and leaves every array of the caller as it was. *)
Lemma slabsForDownload_refines h s offset length :
  wf_goslice h s ->
  match SlabRange.slabsForDownload (view h s) offset length with
  | Ok res =>
      exists h' r,
        SliceStore.slabsForDownload h s offset length = Ok (h', r) /\
        view h' r = res /\ (arr r ∉ dom h) /\
        (forall a, a ∈ dom h -> h' !! a = h !! a)
  | Panic p => SliceStore.slabsForDownload h s offset length = Panic p
  end.
Proof.
  intros Hwf.
  unfold SlabRange.slabsForDownload, SliceStore.slabsForDownload, append_nil.
  set (a := fresh (dom h)).
  assert (Ha : a ∉ dom h) by apply is_fresh.
  set (h1 := <[a := view h s]> h).
  set (s0 := {| arr := a; lo := 0; len := len s |}).
  assert (Hlen : List.length (view h s) = len s) by (apply view_length, Hwf).
  assert (Hv0 : view h1 s0 = view h s).
  { unfold view at 1, array_of, h1, s0. simpl. rewrite lookup_insert_eq.
    simpl. rewrite drop_0. apply take_ge. lia. }
  assert (Hwf0 : wf_goslice h1 s0).
  { split; unfold array_of, h1, s0; simpl; rewrite lookup_insert_eq;
      [eauto | simpl; lia]. }
  rewrite Hv0.
  destruct (firstLoop (view h s) 0 offset) as [brk fo] eqn:Hfl.
  set (l1 := match brk with Some i => drop i (view h s) | None => view h s end).
  set (s1 := match brk with Some i => slice_from s0 i | None => s0 end).
  assert (Harr1 : arr s1 = a) by (unfold s1; destruct brk; reflexivity).
  assert (Hwf1 : wf_goslice h1 s1 /\ view h1 s1 = l1).
  { unfold s1, l1. destruct brk as [i|]; [|split; assumption].
    apply firstLoop_index in Hfl. split.
    - destruct Hwf0 as [H0 H1]. split; [exact H0|].
      unfold array_of in *. simpl in *. lia.
    - rewrite view_slice_from by (simpl; lia). rewrite Hv0. reflexivity. }
  destruct Hwf1 as [Hwf1 Hv1].
  destruct (cast32 fo) as [c|p]; [rewrite !bind_Ok | reflexivity].
  pose proof (store_update_refines h1 s1 0 (advance c) Hwf1) as Hup.
  rewrite Hv1 in Hup.
  destruct (update_at l1 0 (advance c)) as [l2|p].
  2:{ rewrite Hup. reflexivity. }
  destruct Hup as (A2 & -> & HlenA2 & Hv2). rewrite !bind_Ok.
  rewrite Harr1 in Hv2 |- *.
  set (h2 := <[a := A2]> h1) in *.
  rewrite Hv2.
  assert (Hwf2 : wf_goslice h2 s1).
  { unfold h2. rewrite <- Harr1.
    apply wf_goslice_insert; [assumption | assumption | reflexivity | lia]. }
  destruct (lastLoop l2 0 length) as [cut ll] eqn:Hll.
  set (l3 := match cut with Some i => take (S i) l2 | None => l2 end).
  set (s3 := match cut with Some i => slice_to s1 (S i) | None => s1 end).
  assert (Harr3 : arr s3 = a) by (unfold s3; destruct cut; assumption).
  assert (Hlen2 : List.length l2 = len s1).
  { rewrite <- Hv2. apply view_length. assumption. }
  assert (Hwf3 : wf_goslice h2 s3 /\ view h2 s3 = l3).
  { unfold s3, l3. destruct cut as [j|]; [|split; assumption].
    rewrite lastLoop_firstLoop in Hll. apply firstLoop_index in Hll. split.
    - destruct Hwf2 as [H0 H1]. split; [exact H0|].
      unfold array_of in *. simpl in *. lia.
    - rewrite view_slice_to by lia. rewrite Hv2. reflexivity. }
  destruct Hwf3 as [Hwf3 Hv3].
  destruct (cast32 ll) as [c'|p]; [rewrite !bind_Ok | reflexivity].
  pose proof (store_update_refines h2 s3 (Nat.pred (len s3)) (truncate c')
                Hwf3) as Hup.
  rewrite Hv3 in Hup.
  replace (List.length l3) with (len s3)
    by (rewrite <- Hv3; symmetry; apply view_length; assumption).
  destruct (update_at l3 (Nat.pred (len s3)) (truncate c')) as [l4|p].
  2:{ rewrite Hup. reflexivity. }
  destruct Hup as (A3 & -> & HlenA3 & Hv4). rewrite bind_Ok.
  eexists _, s3. split; [reflexivity|]. split; [exact Hv4|].
  rewrite Harr3. split; [exact Ha|].
  intros b Hb. unfold h2, h1.
  assert (b ≠ a) by (intros ->; contradiction).
  rewrite !lookup_insert_ne by congruence. reflexivity.
Qed.

End SliceStoreFacts.

(** The selector on an object with at least one slice.  For every
    non-empty slice
    list [S] (the view of a Go slice in the store) and every byte range
    [offset, offset+length) inside it, [slabsForDownload] returns a slice on
    a new array, leaves the arrays of the caller untouched, and the slices
    it returns are a contiguous window of [S]: the same slabs from some
    index [i] on, the first [Offset] advanced by the intra-slab offset
    [fo = offset - (lengths of the slices before i)], the last [Length]
    truncated, the others as they were, and the [Length]s add up to
    [length].  A range that makes the computed [firstOffset] or
    [lastLength] exceed 32 bits panics with the overflow panic. *)
Theorem slabsForDownload_correct
    (h : gmap nat (list SlabSlice)) (s : SliceStore.goslice)
    (offset length : Z) :
  SliceStore.wf_goslice h s ->
  SliceStore.view h s ≠ [] ->
  Forall wf_slice (SliceStore.view h s) ->
  is_uint64 offset -> is_uint64 length ->
  (offset + length <= SlabRange.total (SliceStore.view h s) ->
   exists h' r i,
     let S := SliceStore.view h s in
     let fo := offset - SlabRange.total (take i S) in
     SliceStore.slabsForDownload h s offset length = Ok (h', r) /\
     (SliceStore.arr r ∉ dom h) /\
     (forall a, a ∈ dom h -> h' !! a = h !! a) /\
     SliceStore.view h' s = S /\
     0 <= fo /\
     is_window S i fo (SliceStore.view h' r) /\
     SlabRange.total (SliceStore.view h' r) = length) /\
  (SlabRange.total (SliceStore.view h s) + MaxUint32 < offset ->
   SliceStore.slabsForDownload h s offset length = Panic PanicOverflow) /\
  (offset <= SlabRange.total (SliceStore.view h s) ->
   SlabRange.total (SliceStore.view h s) - offset + MaxUint32 < length ->
   SliceStore.slabsForDownload h s offset length = Panic PanicOverflow).
Proof.
  intros Hwf Hne Hall Ho Hl.
  pose proof (slabsForDownload_refines h s offset length Hwf) as Href.
  split; [|split].
  - intros Hrange.
    destruct (slabsForDownload_window _ offset length Hne Hall Ho Hl Hrange)
      as (res & i & Heq & Hfo & Hwin & Htot).
    rewrite Heq in Href. destruct Href as (h' & r & Hrun & Hv & Hfresh & Hsame).
    exists h', r, i. cbv zeta. subst res.
    split; [exact Hrun|]. split; [exact Hfresh|]. split; [exact Hsame|].
    split; [|split; [exact Hfo|split; [exact Hwin|exact Htot]]].
    unfold SliceStore.view, SliceStore.array_of.
    rewrite Hsame; [reflexivity|].
    apply elem_of_dom. apply Hwf.
  - intros Hbig.
    rewrite (slabsForDownload_overflow_offset _ offset length Hall Ho Hbig)
      in Href. exact Href.
  - intros Hin Hbig.
    rewrite (slabsForDownload_overflow_length _ offset length Hne Hall Ho Hl
               Hin Hbig) in Href. exact Href.
Qed.

Lemma slabsForDownload_correct_witness :
  (SliceStore.wf_goslice example_store example_goslice /\
   SliceStore.view example_store example_goslice ≠ [] /\
   Forall wf_slice (SliceStore.view example_store example_goslice) /\
   is_uint64 12 /\ is_uint64 15 /\
   12 + 15 <= SlabRange.total (SliceStore.view example_store example_goslice))
  /\
  exists h' r i,
    SliceStore.slabsForDownload example_store example_goslice 12 15
      = Ok (h', r) /\
    (SliceStore.arr r ∉ dom example_store) /\
    (forall a, a ∈ dom example_store -> h' !! a = example_store !! a) /\
    SliceStore.view h' example_goslice
      = SliceStore.view example_store example_goslice /\
    0 <= 12 - SlabRange.total
               (take i (SliceStore.view example_store example_goslice)) /\
    is_window (SliceStore.view example_store example_goslice) i
      (12 - SlabRange.total
              (take i (SliceStore.view example_store example_goslice)))
      (SliceStore.view h' r) /\
    SlabRange.total (SliceStore.view h' r) = 15.
Proof.
  assert (H1 : SliceStore.wf_goslice example_store example_goslice).
  { split; [eexists; reflexivity | vm_compute; lia]. }
  assert (H2 : SliceStore.view example_store example_goslice ≠ [])
    by (vm_compute; discriminate).
  assert (H3 : Forall wf_slice
                 (SliceStore.view example_store example_goslice)).
  { change (SliceStore.view example_store example_goslice)
      with example_slices.
    repeat constructor; vm_compute; discriminate. }
  assert (H4 : is_uint64 12) by (split; [lia | reflexivity]).
  assert (H5 : is_uint64 15) by (split; [lia | reflexivity]).
  assert (H6 : 12 + 15 <= SlabRange.total
                           (SliceStore.view example_store example_goslice))
    by (vm_compute; discriminate).
  split; [exact (conj H1 (conj H2 (conj H3 (conj H4 (conj H5 H6)))))|].
  exact (proj1 (slabsForDownload_correct example_store example_goslice 12 15
                  H1 H2 H3 H4 H5) H6).
Defined.

(** C2.  The selector fails on the object without slabs: the range [0, 0)
    lies inside it, and instead of returning a window (the empty one, whose
    [Length]s add up to 0) the code indexes [slabs[0]] and panics with index
    out of range, on the list and on the Go slice in the store alike. *)
Lemma slabsForDownload_empty_object :
  0 + 0 <= SlabRange.total [] /\
  SlabRange.slabsForDownload [] 0 0 = Panic PanicIndexOutOfRange /\
  SliceStore.view {[ 0%nat := [] ]} empty_goslice = [] /\
  SliceStore.slabsForDownload {[ 0%nat := [] ]} empty_goslice 0 0
    = Panic PanicIndexOutOfRange.
Proof.
  split; [vm_compute; discriminate|].
  split; [reflexivity|]. split; reflexivity.
Qed.

Lemma slabsForDownload_bytes_witness :
  (example_slices ≠ [] /\ Forall wf_slice example_slices /\
   Forall (fun ss => Offset ss + Length ss <= MaxUint32) example_slices /\
   is_uint64 12 /\ is_uint64 15 /\
   12 + 15 <= SlabRange.total example_slices) /\
  exists res,
    SlabRange.slabsForDownload example_slices 12 15 = Ok res /\
    object_bytes res
      = take (Z.to_nat 15) (drop (Z.to_nat 12) (object_bytes example_slices)).
Proof.
  assert (H1 : example_slices ≠ []) by discriminate.
  assert (H2 : Forall wf_slice example_slices)
    by (repeat constructor; vm_compute; discriminate).
  assert (H3 : Forall (fun ss => Offset ss + Length ss <= MaxUint32)
                 example_slices)
    by (repeat constructor; vm_compute; discriminate).
  assert (H4 : is_uint64 12) by (split; [lia | reflexivity]).
  assert (H5 : is_uint64 15) by (split; [lia | reflexivity]).
  assert (H6 : 12 + 15 <= SlabRange.total example_slices)
    by (vm_compute; discriminate).
  split; [exact (conj H1 (conj H2 (conj H3 (conj H4 (conj H5 H6)))))|].
  exact (slabsForDownload_bytes example_slices 12 15 H1 H2 H3 H4 H5 H6).
Defined.

(** ** The downloader, the manager and the slab download *)

Section DownloadFacts.

Variable dataPoints : Type.
Variable float64 : Type.
Variable float64_of_int64 : Z -> float64.
Variable newDataPoints : Z -> dataPoints.
Variable Track : dataPoints -> float64 -> dataPoints.
Variable statsDecayHalfTime : Z.
Variables isBalanceInsufficient isPriceTableExpired
          isPriceTableNotFound isSectorNotFound : error -> bool.
Variable SectorRegion : SlabSlice -> Z * Z.

Implicit Types (mgr : downloadManager dataPoints) (d : downloader dataPoints).
Implicit Types (s : slabDownload) (resp : sectorDownloadResp).
Implicit Types (σ : system dataPoints).

(** C6.  [receive] takes one off [numInflight] (and off [numOverdriving]
    for an overdrive response), in [uint64].  A response with an error is
    appended to [errs] and gives [(false, false)].  A response with a
    sector is stored at its index in the shard matrix, [numCompleted] goes
    up by one, and the answer is [done = (numCompleted >= minShards)],
    [next = (numCompleted + int(maxOverdrive) >= minShards)], in the [int]
    arithmetic of the code; nothing else of the slab download changes.  An
    index outside the shard matrix panics.  Where the sums stay inside
    [int], the [int] arithmetic is that of the integers. *)
Theorem receive_spec mgr s resp :
  let inflight' := wrap64 (numInflight s - 1) in
  let overdriving' :=
    if resp_overdrive resp then wrap64 (numOverdriving s - 1)
    else numOverdriving s in
  let completed' := to_int (numCompleted s + 1) in
  let sum' := to_int (completed' + to_int (maxOverdrive mgr)) in
  (0 < numInflight s < 2 ^ 64 -> inflight' = numInflight s - 1) /\
  (0 < numOverdriving s < 2 ^ 64 -> resp_overdrive resp = true ->
   overdriving' = numOverdriving s - 1) /\
  (- 2 ^ 63 <= numCompleted s < 2 ^ 63 - 1 ->
   completed' = numCompleted s + 1) /\
  (0 <= numCompleted s -> 0 <= maxOverdrive mgr ->
   numCompleted s + 1 + maxOverdrive mgr < 2 ^ 63 ->
   sum' = numCompleted s + 1 + maxOverdrive mgr) /\
  (forall e, resp_err resp = Some e ->
     exists s',
       receive mgr s resp = Ok (s', (false, false)) /\
       numInflight s' = inflight' /\ numOverdriving s' = overdriving' /\
       errs s' = errs s ++ [mkHostError (resp_hk resp) e] /\
       sectors s' = sectors s /\ numCompleted s' = numCompleted s /\
       minShards s' = minShards s /\ numLaunched s' = numLaunched s /\
       hostToSectors s' = hostToSectors s /\ used s' = used s /\
       curr s' = curr s) /\
  (resp_err resp = None ->
   0 <= resp_sectorIndex resp < Z.of_nat (List.length (sectors s)) ->
   exists s',
     receive mgr s resp =
       Ok (s', (minShards s <=? completed', minShards s <=? sum')) /\
     numInflight s' = inflight' /\ numOverdriving s' = overdriving' /\
     numCompleted s' = completed' /\
     sectors s' =
       <[Z.to_nat (resp_sectorIndex resp) := resp_sector resp]> (sectors s) /\
     sectors s' !! Z.to_nat (resp_sectorIndex resp) = Some (resp_sector resp) /\
     errs s' = errs s /\ minShards s' = minShards s /\
     numLaunched s' = numLaunched s /\
     hostToSectors s' = hostToSectors s /\ used s' = used s /\
     curr s' = curr s) /\
  (resp_err resp = None ->
   resp_sectorIndex resp < 0 \/
   Z.of_nat (List.length (sectors s)) <= resp_sectorIndex resp ->
   receive mgr s resp = Panic PanicIndexOutOfRange).
Proof.
  assert (Hint : forall z, - 2 ^ 63 <= z < 2 ^ 63 -> to_int z = z).
  { intros z Hz. unfold to_int. rewrite Z.mod_small; lia. }
  assert (Hsec : sectors
                   (set_numInflight
                      (wrap64
                         (numInflight
                            (if resp_overdrive resp
                             then set_numOverdriving
                                    (wrap64 (numOverdriving s - 1)) s
                             else s) - 1))
                      (if resp_overdrive resp
                       then set_numOverdriving
                              (wrap64 (numOverdriving s - 1)) s
                       else s)) = sectors s)
    by (destruct (resp_overdrive resp); reflexivity).
  cbv zeta. split; [|split; [|split; [|split; [|split; [|split]]]]].
  - intros H. apply wrap64_small. unfold is_uint64. lia.
  - intros H ->. apply wrap64_small. unfold is_uint64. lia.
  - intros H. apply Hint. lia.
  - intros Hc Hm Hsum.
    rewrite (Hint (maxOverdrive mgr)) by lia.
    rewrite (Hint (numCompleted s + 1)) by lia.
    apply Hint. lia.
  - intros e He. unfold receive. rewrite He.
    eexists. split; [reflexivity|].
    destruct (resp_overdrive resp); repeat split; reflexivity.
  - intros He Hidx. unfold receive. rewrite He. rewrite Hsec.
    destruct (decide _) as [_|Hno]; [|contradiction].
    eexists. split.
    + f_equal. f_equal.
      destruct (resp_overdrive resp); reflexivity.
    + destruct (resp_overdrive resp); simpl;
        repeat split; try reflexivity;
        apply list_lookup_insert_eq; lia.
  - intros He Hidx. unfold receive. rewrite He. rewrite Hsec.
    destruct (decide _) as [Hin|_]; [lia | reflexivity].
Qed.

(** C10.  [launch] with a [nil] request, or with a request for a host that
    has no downloader, returns an error and leaves the manager and the slab
    download (hence the three counters) as they were.  Otherwise the
    request is appended to the queue of the host's downloader, [numInflight]
    and [numLaunched] go up by one, and [numOverdriving] does for an
    overdrive request and only then.  These cases are all there is, so the
    counters move exactly when the request was enqueued. *)
Theorem launch_spec mgr s (req : option sectorDownloadReq) :
  match req with
  | None => launch mgr s req = (mgr, s, Some (ErrNew "no request given"))
  | Some r =>
      match downloaders mgr !! req_hk r with
      | None =>
          launch mgr s req = (mgr, s, Some (ErrNoDownloader (req_hk r)))
      | Some d =>
          exists mgr' s',
            launch mgr s req = (mgr', s', None) /\
            downloaders mgr' = <[req_hk r := enqueue d r]> (downloaders mgr) /\
            queue (enqueue d r) = queue d ++ [r] /\
            numInflight s' = wrap64 (numInflight s + 1) /\
            numLaunched s' = wrap64 (numLaunched s + 1) /\
            numOverdriving s' =
              (if req_overdrive r then wrap64 (numOverdriving s + 1)
               else numOverdriving s) /\
            numInflight s' ≠ numInflight s mod 2 ^ 64 /\
            numLaunched s' ≠ numLaunched s mod 2 ^ 64
      end
  end.
Proof.
  destruct req as [r|]; [|reflexivity].
  unfold launch, mgr_launch.
  destruct (downloaders mgr !! req_hk r) as [d|]; [|reflexivity].
  eexists _, _. split; [reflexivity|].
  assert (Hne : forall z, wrap64 (z + 1) ≠ z mod 2 ^ 64).
  { intros z. unfold wrap64.
    rewrite <- (Z.add_mod_idemp_l z 1) by lia.
    pose proof (Z.mod_pos_bound z (2 ^ 64) ltac:(lia)) as Hb.
    destruct (Z.eq_dec (z mod 2 ^ 64) (2 ^ 64 - 1)) as [Heq|Hneq].
    - rewrite Heq. replace (2 ^ 64 - 1 + 1) with (1 * 2 ^ 64) by lia.
      rewrite Z.mod_mul by lia. lia.
    - rewrite Z.mod_small by lia. lia. }
  destruct (req_overdrive r); simpl; repeat split; try reflexivity; apply Hne.
Qed.

(** C7.  [trackFailure] on success sets [consecutiveFailures] to 0 and
    leaves the latency estimator alone; on an error the host is not to
    blame for it changes nothing; on any other error it adds one to
    [consecutiveFailures] and tracks one hour, in milliseconds, in the
    estimator of the sector download latency. *)
Theorem trackFailure_spec d (err : option error) :
  let tf := trackFailure float64_of_int64 Track isBalanceInsufficient
              isPriceTableExpired isPriceTableNotFound isSectorNotFound in
  let same_rest d' :=
    host d' = host d /\ queue d' = queue d /\
    numDownloads d' = numDownloads d /\
    d_stopChan d' = d_stopChan d /\ signalWorkChan d' = signalWorkChan d /\
    statsDownloadSpeedBytesPerMS d' = statsDownloadSpeedBytesPerMS d in
  match err with
  | None =>
      consecutiveFailures (tf d err) = 0 /\
      statsSectorDownloadEstimateInMS (tf d err)
        = statsSectorDownloadEstimateInMS d /\
      same_rest (tf d err)
  | Some e =>
      if isBalanceInsufficient e || isPriceTableExpired e ||
         isPriceTableNotFound e || isSectorNotFound e
      then tf d err = d
      else
        consecutiveFailures (tf d err) = wrap64 (consecutiveFailures d + 1) /\
        statsSectorDownloadEstimateInMS (tf d err)
          = Track (statsSectorDownloadEstimateInMS d)
                  (float64_of_int64 3600000) /\
        same_rest (tf d err)
  end.
Proof.
  cbv zeta. unfold trackFailure. destruct err as [e|].
  - destruct (isBalanceInsufficient e || isPriceTableExpired e ||
              isPriceTableNotFound e || isSectorNotFound e).
    + reflexivity.
    + repeat split; reflexivity.
  - repeat split; reflexivity.
Qed.

(** *** [Stop] *)

Lemma close_downloaders_open (l : list (PublicKey * downloader dataPoints)) :
  forall m0,
    Forall (fun kd => d_stopChan kd.2 = false) l ->
    foldl (@close_downloader dataPoints) (Ok m0) l =
      Ok (foldl (fun m kd => <[kd.1 := set_d_stopChan true kd.2]> m) m0 l).
Proof.
  induction l as [|[k d] l IH]; intros m0 Hall; [reflexivity|].
  inversion Hall as [|? ? Hd Hl]; subst. simpl in Hd. simpl.
  rewrite Hd. unfold close. rewrite bind_Ok. apply IH. assumption.
Qed.

Lemma close_downloaders_panic (l : list (PublicKey * downloader dataPoints)) :
  forall p, foldl (@close_downloader dataPoints) (Panic p) l = Panic p.
Proof. induction l as [|kd l IH]; intros p; [reflexivity | apply IH]. Qed.

Lemma close_downloaders_closed (l : list (PublicKey * downloader dataPoints)) :
  forall m0,
    Exists (fun kd => d_stopChan kd.2 = true) l ->
    foldl (@close_downloader dataPoints) (Ok m0) l = Panic PanicCloseOfClosed.
Proof.
  induction l as [|[k d] l IH]; intros m0 Hex; [inversion Hex|].
  simpl. destruct (d_stopChan d) eqn:Hd.
  - unfold close. apply close_downloaders_panic.
  - unfold close. rewrite bind_Ok. apply IH.
    inversion Hex as [? ? Hh|? ? Ht]; subst; [|assumption].
    simpl in Hh. congruence.
Qed.

Lemma foldl_insert_notin (f : downloader dataPoints -> downloader dataPoints)
    (l : list (PublicKey * downloader dataPoints)) :
  forall (m0 : gmap PublicKey (downloader dataPoints)) hk, hk ∉ l.*1 ->
    foldl (fun m kd => <[kd.1 := f kd.2]> m) m0 l !! hk = m0 !! hk.
Proof.
  induction l as [|[k d] l IH]; intros m0 hk Hnot; [reflexivity|].
  simpl in *. apply not_elem_of_cons in Hnot as [Hne Hnot].
  rewrite IH by assumption. apply lookup_insert_ne. congruence.
Qed.

Lemma foldl_insert_in (f : downloader dataPoints -> downloader dataPoints)
    (l : list (PublicKey * downloader dataPoints)) :
  forall (m0 : gmap PublicKey (downloader dataPoints)) hk d,
    NoDup l.*1 -> (hk, d) ∈ l ->
    foldl (fun m kd => <[kd.1 := f kd.2]> m) m0 l !! hk = Some (f d).
Proof.
  induction l as [|[k d'] l IH]; intros m0 hk d Hnd Hin.
  - inversion Hin.
  - simpl in *. apply NoDup_cons in Hnd as [Hk Hnd].
    apply elem_of_cons in Hin as [[= -> ->]|Hin].
    + rewrite foldl_insert_notin by assumption. apply lookup_insert_eq.
    + apply IH; assumption.
Qed.

Lemma Stop_open mgr :
  stopChan mgr = false -> all_open (downloaders mgr) ->
  exists mgr',
    Stop mgr = Ok mgr' /\ stopChan mgr' = true /\
    (forall hk, downloaders mgr' !! hk
                = set_d_stopChan true <$> downloaders mgr !! hk).
Proof.
  intros Hs Hall. unfold Stop. rewrite Hs. unfold close at 1.
  rewrite bind_Ok. rewrite close_downloaders_open.
  2:{ apply Forall_forall. intros [k d] Hin. simpl.
      apply elem_of_map_to_list in Hin. eapply Hall. eassumption. }
  rewrite bind_Ok. eexists. split; [reflexivity|]. split; [reflexivity|].
  intros hk. simpl.
  destruct (downloaders mgr !! hk) as [d|] eqn:Hlk; simpl.
  - apply foldl_insert_in.
    + apply NoDup_fst_map_to_list.
    + apply elem_of_map_to_list. assumption.
  - rewrite foldl_insert_notin; [assumption|].
    intros Hin. apply list_elem_of_fmap in Hin as ([k d] & -> & Hin).
    apply elem_of_map_to_list in Hin. simpl in Hlk. congruence.
Qed.

Lemma Stop_closed mgr : stopChan mgr = true -> Stop mgr = Panic PanicCloseOfClosed.
Proof. intros Hs. unfold Stop. rewrite Hs. reflexivity. Qed.

Lemma close_in_place_open (l : list (PublicKey * downloader dataPoints)) :
  forall m0,
    Forall (fun kd => d_stopChan kd.2 = false) l ->
    foldl (@close_in_place dataPoints) (m0, false) l =
      (foldl (fun m kd => <[kd.1 := set_d_stopChan true kd.2]> m) m0 l, false).
Proof.
  induction l as [|[k d] l IH]; intros m0 Hall; [reflexivity|].
  inversion Hall as [|? ? Hd Hl]; subst. simpl in Hd. simpl.
  unfold close_in_place at 2. simpl. rewrite Hd. simpl.
  apply IH. assumption.
Qed.

Lemma Stop_in_place_closed mgr : stopChan mgr = true -> Stop_in_place mgr = mgr.
Proof. intros Hs. unfold Stop_in_place. rewrite Hs. reflexivity. Qed.

(** C9 (as amended).  A first [Stop], on a manager whose stop signal and
    whose downloaders' stop signals are still open, returns; it closes the
    manager's stop signal and the stop signal of every downloader, and
    changes nothing else of the manager or of a downloader.  [Stop] is not
    idempotent: called again, it panics on closing the closed channel; the
    panic comes before any write, so the manager and the downloaders stay
    in the same stopped state. *)
Theorem Stop_once mgr :
  stopChan mgr = false -> all_open (downloaders mgr) ->
  exists mgr',
    Stop mgr = Ok mgr' /\
    Stop_in_place mgr = mgr' /\
    stopChan mgr' = true /\
    all_closed (downloaders mgr') /\
    (forall hk, downloaders mgr' !! hk
                = set_d_stopChan true <$> downloaders mgr !! hk) /\
    (maxOverdrive mgr' = maxOverdrive mgr /\
     overdriveTimeout mgr' = overdriveTimeout mgr /\
     statsOverdrivePct mgr' = statsOverdrivePct mgr /\
     statsSlabDownloadSpeedBytesPerMS mgr'
       = statsSlabDownloadSpeedBytesPerMS mgr /\
     ongoing mgr' = ongoing mgr) /\
    Stop mgr' = Panic PanicCloseOfClosed /\
    Stop_in_place mgr' = mgr'.
Proof.
  intros Hs Hall.
  assert (Hopen : Forall (fun kd : PublicKey * downloader dataPoints =>
                            d_stopChan kd.2 = false)
                    (map_to_list (downloaders mgr))).
  { apply Forall_forall. intros [k d] Hin. simpl.
    apply elem_of_map_to_list in Hin. eapply Hall. eassumption. }
  destruct (Stop_open mgr Hs Hall) as (mgr' & Hstop & Hc & Hds).
  exists mgr'. split; [assumption|].
  assert (Hplace : Stop_in_place mgr = mgr').
  { revert Hstop. unfold Stop, Stop_in_place. rewrite Hs. unfold close.
    rewrite bind_Ok. rewrite close_downloaders_open by assumption.
    rewrite bind_Ok. rewrite close_in_place_open by assumption.
    intros [= <-]. reflexivity. }
  assert (Hfields : maxOverdrive mgr' = maxOverdrive mgr /\
                    overdriveTimeout mgr' = overdriveTimeout mgr /\
                    statsOverdrivePct mgr' = statsOverdrivePct mgr /\
                    statsSlabDownloadSpeedBytesPerMS mgr'
                      = statsSlabDownloadSpeedBytesPerMS mgr /\
                    ongoing mgr' = ongoing mgr).
  { revert Hstop. unfold Stop. rewrite Hs. unfold close at 1.
    rewrite bind_Ok. rewrite close_downloaders_open by assumption.
    rewrite bind_Ok. intros [= <-]. repeat split; reflexivity. }
  split; [assumption|]. split; [assumption|].
  split; [|split; [assumption|split; [assumption|split]]].
  - intros hk d Hd. rewrite Hds in Hd.
    destruct (downloaders mgr !! hk) as [d0|]; simpl in Hd; [|discriminate].
    injection Hd as <-. reflexivity.
  - apply Stop_closed; assumption.
  - apply Stop_in_place_closed; assumption.
Qed.

Lemma flat_insert {V A : Type} (g : V -> list A) (m : gmap PublicKey V) k v :
  flat g (<[k := v]> m) ≡ₚ g v ++ flat g (delete k m).
Proof.
  unfold flat. rewrite <- insert_delete_eq.
  rewrite map_to_list_insert by apply lookup_delete_eq.
  rewrite bind_cons. reflexivity.
Qed.

Lemma flat_delete {V A : Type} (g : V -> list A) (m : gmap PublicKey V) k v :
  m !! k = Some v -> flat g m ≡ₚ g v ++ flat g (delete k m).
Proof.
  intros Hk. unfold flat.
  rewrite <- (map_to_list_delete m k v Hk). rewrite bind_cons. reflexivity.
Qed.

Lemma flat_empty {V A : Type} (g : V -> list A) :
  flat g (∅ : gmap PublicKey V) = [].
Proof. unfold flat. rewrite map_to_list_empty. reflexivity. Qed.

(** A map whose values are empty, or carry what the values of [m] under
    the same key do, holds no more than [m]. *)
Lemma flat_sub {V A : Type} (g : V -> list A) (m' : gmap PublicKey V) :
  forall m : gmap PublicKey V,
    (forall k v', m' !! k = Some v' ->
       g v' = [] \/ exists v, m !! k = Some v /\ g v' = g v) ->
    flat g m' ⊆+ flat g m.
Proof.
  induction m' as [|k v' m' Hk IH] using map_ind; intros m H.
  - rewrite flat_empty. apply submseteq_nil_l.
  - rewrite flat_insert. rewrite (delete_id _ _ Hk).
    destruct (H k v' (lookup_insert_eq _ _ _)) as [Hnil|(v & Hv & Hg)].
    + rewrite Hnil. simpl. apply IH. intros k2 v2 Hk2.
      apply H. rewrite lookup_insert_ne; [assumption|congruence].
    + rewrite (flat_delete g m k v Hv), Hg.
      apply submseteq_skips_l. apply IH. intros k2 v2 Hk2.
      assert (k ≠ k2) by congruence.
      destruct (H k2 v2) as [?|(v3 & Hv3 & Hg3)];
        [rewrite lookup_insert_ne; assumption | left; assumption |].
      right. exists v3. rewrite lookup_delete_ne by assumption. auto.
Qed.

Lemma submseteq_NoDup {A : Type} (l k : list A) : l ⊆+ k -> NoDup k -> NoDup l.
Proof.
  intros Hsub Hnd. apply submseteq_Permutation in Hsub as [r Hr].
  rewrite Hr in Hnd. apply NoDup_app in Hnd. apply Hnd.
Qed.

Lemma filter_submseteq {A : Type} (P : A -> Prop) `{!forall x, Decision (P x)}
    (l k : list A) :
  l ⊆+ k -> filter P l ⊆+ filter P k.
Proof.
  intros Hsub. apply submseteq_Permutation in Hsub as [r Hr].
  rewrite Hr, filter_app. apply submseteq_inserts_r. reflexivity.
Qed.

Lemma own_submseteq me l k : l ⊆+ k -> own me l ⊆+ own me k.
Proof. intros H. unfold own. apply fmap_submseteq, filter_submseteq, H. Qed.

Lemma own_cons me r l :
  own me (r :: l) =
    if decide (req_responseChan r = me) then req_sectorIndex r :: own me l
    else own me l.
Proof.
  unfold own. rewrite filter_cons.
  destruct (decide (req_responseChan r = me)); reflexivity.
Qed.

Lemma own_app me l k : own me (l ++ k) = own me l ++ own me k.
Proof. unfold own. rewrite filter_app, fmap_app. reflexivity. Qed.

Lemma own_Permutation me l k : l ≡ₚ k -> own me l ≡ₚ own me k.
Proof. intros H. unfold own. rewrite H. reflexivity. Qed.

Lemma filled_le l : (filled l <= List.length l)%nat.
Proof. apply length_filter. Qed.

Lemma filled_insert l : forall i b,
  l !! i = Some None -> filled (<[i := Some b]> l) = S (filled l).
Proof.
  unfold filled. induction l as [|o l IH]; intros i b Hi; [discriminate|].
  destruct i as [|i]; simpl in *.
  - injection Hi as ->. rewrite !filter_cons.
    destruct (decide (is_Some (Some b))) as [_|Hn];
      [|exfalso; apply Hn; eauto].
    destruct (decide (is_Some (@None (list byte)))) as [[? Habs]|_];
      [discriminate | reflexivity].
  - rewrite !filter_cons. destruct (decide (is_Some o)); simpl;
      rewrite (IH _ _ Hi); reflexivity.
Qed.

Lemma filled_replicate n : filled (replicate n None) = 0%nat.
Proof.
  unfold filled. induction n as [|n IH]; [reflexivity|].
  simpl. rewrite filter_cons.
  destruct (decide (is_Some (@None (list byte)))) as [[? Habs]|_];
    [discriminate | exact IH].
Qed.

(** A step that leaves the shard matrix and the log alone keeps the
    invariant if it adds nothing to what is outstanding. *)
Lemma inv_frame n me σ σ' :
  inv n me σ ->
  sectors (sys_slab σ') = sectors (sys_slab σ) ->
  numCompleted (sys_slab σ') = numCompleted (sys_slab σ) ->
  errs (sys_slab σ') = errs (sys_slab σ) ->
  sys_received σ' = sys_received σ ->
  outstanding me σ' ⊆+ outstanding me σ ->
  (forall r, r ∈ sys_chan σ' -> resp_err r = None -> is_Some (resp_sector r)) ->
  inv n me σ'.
Proof.
  intros [Hlen Hnd Hun Hch Hc Hcnt Hst Hfr Her] Hs Hn He Hr Hsub Hch'.
  constructor; rewrite ?Hs, ?Hn, ?He, ?Hr; try assumption.
  - eapply submseteq_NoDup; eassumption.
  - intros i Hi. apply Hun. eapply elem_of_submseteq; eassumption.
Qed.

Lemma nextRequest_spec fastest s me od s1 req :
  nextRequest fastest s me od = (s1, req) ->
  sectors s1 = sectors s /\ numCompleted s1 = numCompleted s /\
  errs s1 = errs s /\ minShards s1 = minShards s /\
  match req with
  | None => remaining s1 = remaining s
  | Some r => req_responseChan r = me /\
              remaining s ≡ₚ req_sectorIndex r :: remaining s1
  end.
Proof.
  unfold nextRequest.
  set (s0 := if decide (List.length (sectorsOf s (curr s)) = 0%nat)
             then _ else s).
  assert (H0 : hostToSectors s0 = hostToSectors s /\ sectors s0 = sectors s /\
               numCompleted s0 = numCompleted s /\ errs s0 = errs s /\
               minShards s0 = minShards s).
  { unfold s0. destruct (decide _); repeat split; reflexivity. }
  destruct H0 as (Hh & Hs & Hn & He & Hm).
  unfold sectorsOf.
  destruct (hostToSectors s0 !! curr s0) as [l|] eqn:Hlk; simpl.
  2:{ intros [= <- <-]. unfold remaining. rewrite Hh. auto 6. }
  destruct l as [|sector rest].
  { intros [= <- <-]. unfold remaining. rewrite Hh. auto 6. }
  intros [= <- <-]. simpl. repeat split; try assumption.
  unfold remaining. simpl. rewrite <- Hh.
  rewrite (flat_delete _ _ _ _ Hlk), flat_insert. reflexivity.
Qed.

Lemma mgr_launch_queued mgr r mgr' err :
  mgr_launch mgr r = (mgr', err) ->
  (err ≠ None /\ mgr' = mgr) \/
  (err = None /\ queued mgr' ≡ₚ r :: queued mgr).
Proof.
  unfold mgr_launch.
  destruct (downloaders mgr !! req_hk r) as [d|] eqn:Hd; intros [= <- <-].
  - right. split; [reflexivity|]. unfold queued. simpl.
    rewrite flat_insert, (flat_delete _ _ _ _ Hd). simpl.
    rewrite <- app_assoc. simpl.
    rewrite <- Permutation_middle. reflexivity.
  - left. split; [discriminate | reflexivity].
Qed.

Lemma launch_frame mgr s req mgr' s' err :
  launch mgr s req = (mgr', s', err) ->
  sectors s' = sectors s /\ numCompleted s' = numCompleted s /\
  errs s' = errs s /\ minShards s' = minShards s /\
  remaining s' = remaining s /\
  (mgr' = mgr \/ exists r, req = Some r /\ queued mgr' ≡ₚ r :: queued mgr).
Proof.
  unfold launch. destruct req as [r|].
  2:{ intros [= <- <- <-]. auto 10. }
  destruct (mgr_launch mgr r) as [m1 [e|]] eqn:Hl.
  - intros [= <- <- <-].
    destruct (mgr_launch_queued _ _ _ _ Hl) as [[_ ->]|[? _]];
      [auto 10 | discriminate].
  - intros [= <- <- <-].
    destruct (mgr_launch_queued _ _ _ _ Hl) as [[Habs _]|[_ Hq]];
      [congruence|].
    destruct (req_overdrive r); simpl; repeat split; eauto.
Qed.

Lemma pop_queue d d1 req : pop d = (d1, Some req) -> queue d = req :: queue d1.
Proof.
  unfold pop. destruct (queue d) as [|j q] eqn:Hq; [discriminate|].
  intros [= <- <-]. reflexivity.
Qed.

Lemma queued_same_queue mgr hk d d' :
  downloaders mgr !! hk = Some d -> queue d' = queue d ->
  queued (set_downloaders (<[hk := d']> (downloaders mgr)) mgr) ≡ₚ queued mgr.
Proof.
  intros Hd Hq. unfold queued. simpl.
  rewrite flat_insert, (flat_delete _ _ _ _ Hd), Hq. reflexivity.
Qed.

Lemma queued_pop mgr hk d d1 req :
  downloaders mgr !! hk = Some d -> queue d = req :: queue d1 ->
  queued mgr
    ≡ₚ req :: queued (set_downloaders (<[hk := d1]> (downloaders mgr)) mgr).
Proof.
  intros Hd Hq. unfold queued. simpl.
  rewrite flat_insert, (flat_delete _ _ _ _ Hd), Hq. reflexivity.
Qed.

Lemma execute_spec d req outcome delivered d1 sent err :
  execute d req outcome delivered = (d1, sent, err) ->
  queue d1 = queue d /\
  forall r, sent = Some r -> resp_err r = None ->
    resp_sectorIndex r = req_sectorIndex req /\ is_Some (resp_sector r).
Proof.
  unfold execute, fail, succeed.
  destruct outcome as [e|buf]; intros [= <- <- <-]; (split; [reflexivity|]);
    destruct delivered; intros r [= <-]; simpl; try discriminate.
  intros _. eauto.
Qed.

Lemma trackFailure_queue d err :
  queue (trackFailure float64_of_int64 Track isBalanceInsufficient
           isPriceTableExpired isPriceTableNotFound isSectorNotFound d err)
  = queue d.
Proof.
  unfold trackFailure. destruct err as [e|]; [|reflexivity].
  destruct (_ || _); reflexivity.
Qed.

Lemma prune_panic want (l : list (PublicKey * downloader dataPoints)) :
  forall p, foldl (prune want) (Panic p) l = Panic p.
Proof. induction l as [|kd l IH]; intros p; [reflexivity | apply IH]. Qed.

Lemma prune_sub want (l : list (PublicKey * downloader dataPoints)) :
  forall (m0 kept : gmap PublicKey (downloader dataPoints)),
    foldl (prune want) (Ok m0) l = Ok kept ->
    forall k d, kept !! k = Some d -> m0 !! k = Some d.
Proof.
  induction l as [|[k0 d0] l IH]; intros m0 kept Hf k d Hk.
  - injection Hf as <-. assumption.
  - simpl in Hf. destruct (want !! k0).
    + eapply IH; eassumption.
    + destruct (d_stopChan d0); simpl in Hf.
      * rewrite prune_panic in Hf. discriminate.
      * specialize (IH _ _ Hf _ _ Hk).
        apply lookup_delete_Some in IH. apply IH.
Qed.

Lemma refreshDownloaders_queued mgr contracts mgr' :
  refreshDownloaders newDataPoints statsDecayHalfTime mgr contracts = Ok mgr' ->
  queued mgr' ⊆+ queued mgr.
Proof.
  unfold refreshDownloaders.
  destruct (foldl _ (Ok (downloaders mgr)) _) as [kept|p] eqn:Hk;
    [|discriminate].
  rewrite bind_Ok. intros [= <-]. unfold queued. simpl.
  apply flat_sub. intros k d' Hd'.
  apply lookup_union_Some_raw in Hd' as [Hnew|[_ Hkept]].
  - left. rewrite lookup_fmap in Hnew.
    destruct (filter _ _ !! k); simpl in Hnew; [|discriminate].
    injection Hnew as <-. reflexivity.
  - right. exists d'. split; [|reflexivity].
    eapply prune_sub; eassumption.
Qed.

Lemma close_fold_sub (l : list (PublicKey * downloader dataPoints)) :
  forall (m0 ds : gmap PublicKey (downloader dataPoints)),
    foldl (@close_downloader dataPoints) (Ok m0) l = Ok ds ->
    forall k d', ds !! k = Some d' ->
      (exists d, (k, d) ∈ l /\ queue d' = queue d) \/ m0 !! k = Some d'.
Proof.
  induction l as [|[k0 d0] l IH]; intros m0 ds Hf k d' Hk.
  - injection Hf as <-. right. assumption.
  - simpl in Hf. destruct (d_stopChan d0); simpl in Hf.
    + rewrite close_downloaders_panic in Hf. discriminate.
    + destruct (IH _ _ Hf _ _ Hk) as [(d & Hin & Hq)|Hm].
      * left. exists d. split; [right; assumption | assumption].
      * destruct (decide (k0 = k)) as [->|Hne].
        -- rewrite lookup_insert_eq in Hm. injection Hm as <-.
           left. exists d0. split; [left | reflexivity].
        -- rewrite lookup_insert_ne in Hm by assumption. right. assumption.
Qed.

Lemma Stop_queued mgr mgr' : Stop mgr = Ok mgr' -> queued mgr' ⊆+ queued mgr.
Proof.
  unfold Stop. destruct (stopChan mgr); [discriminate|].
  unfold close at 1. rewrite bind_Ok.
  destruct (foldl _ _ _) as [ds|p] eqn:Hf; [|discriminate].
  rewrite bind_Ok. intros [= <-]. unfold queued. simpl.
  apply flat_sub. intros k d' Hd'. right.
  destruct (close_fold_sub _ _ _ Hf _ _ Hd') as [(d & Hin & Hq)|Hm].
  - exists d. split; [|assumption]. apply elem_of_map_to_list. assumption.
  - exists d'. split; [assumption | reflexivity].
Qed.

Local Abbreviation step' :=
  (step float64_of_int64 newDataPoints Track statsDecayHalfTime
     isBalanceInsufficient isPriceTableExpired isPriceTableNotFound
     isSectorNotFound).
Local Abbreviation reachable' :=
  (reachable float64_of_int64 newDataPoints Track statsDecayHalfTime
     isBalanceInsufficient isPriceTableExpired isPriceTableNotFound
     isSectorNotFound SectorRegion).

Lemma step_dispatch_inv n me σ fastest od s1 req mgr' s2 err :
  inv n me σ ->
  nextRequest fastest (sys_slab σ) me od = (s1, req) ->
  launch (sys_mgr σ) s1 req = (mgr', s2, err) ->
  inv n me (mkSystem mgr' s2 (sys_executing σ) (sys_chan σ) (sys_received σ)).
Proof.
  intros Hinv Hnext Hlaunch.
  destruct (nextRequest_spec _ _ _ _ _ _ Hnext) as (Hs1 & Hc1 & He1 & _ & Hreq).
  destruct (launch_frame _ _ _ _ _ _ Hlaunch)
    as (Hs2 & Hc2 & He2 & _ & Hrem & Hq).
  apply (inv_frame n me σ _ Hinv); simpl; try congruence; [|apply Hinv].
  unfold outstanding. simpl. rewrite Hrem.
  destruct Hq as [->|(r & -> & Hq)].
  - apply submseteq_skips_r. destruct req as [r|].
    + destruct Hreq as [_ ->]. apply submseteq_cons. reflexivity.
    + rewrite Hreq. reflexivity.
  - destruct Hreq as [Hme Hperm].
    rewrite (own_Permutation _ _ _ Hq), own_cons, decide_True by assumption.
    rewrite Hperm. solve_submseteq.
Qed.

Lemma receive_cases mgr s resp s' flags :
  receive mgr s resp = Ok (s', flags) ->
  hostToSectors s' = hostToSectors s /\ minShards s' = minShards s /\
  match resp_err resp with
  | Some e =>
      sectors s' = sectors s /\ numCompleted s' = numCompleted s /\
      errs s' = errs s ++ [mkHostError (resp_hk resp) e]
  | None =>
      0 <= resp_sectorIndex resp < Z.of_nat (List.length (sectors s)) /\
      sectors s' =
        <[Z.to_nat (resp_sectorIndex resp) := resp_sector resp]> (sectors s) /\
      numCompleted s' = to_int (numCompleted s + 1) /\ errs s' = errs s
  end.
Proof.
  unfold receive.
  set (s2 := set_numInflight _ _).
  assert (H2 : hostToSectors s2 = hostToSectors s /\ sectors s2 = sectors s /\
               numCompleted s2 = numCompleted s /\ errs s2 = errs s /\
               minShards s2 = minShards s).
  { unfold s2. destruct (resp_overdrive resp); repeat split; reflexivity. }
  destruct H2 as (Hh & Hs & Hc & He & Hm). clearbody s2.
  destruct (resp_err resp) as [e|].
  - intros [= <- _]. simpl. rewrite He. auto.
  - destruct (decide _) as [Hin|]; [|discriminate].
    intros [= <- _]. simpl. rewrite Hs in Hin. rewrite Hs, Hc.
    repeat split; try assumption; apply Hin.
Qed.

Lemma successes_snoc l r :
  successes (l ++ [r]) =
    successes l ++ (if decide (resp_err r = None) then [r] else []).
Proof.
  unfold successes. rewrite filter_app. reflexivity.
Qed.

Lemma collected_snoc l r :
  collected (l ++ [r]) =
    collected l ++
    match resp_err r with
    | Some e => [mkHostError (resp_hk r) e]
    | None => []
    end.
Proof.
  unfold collected. rewrite omap_app. f_equal.
  simpl. destruct (resp_err r); reflexivity.
Qed.

Lemma step_receive_inv n me σ i resp s' flags :
  Z.of_nat n < 2 ^ 63 -> inv n me σ ->
  sys_chan σ !! i = Some resp ->
  receive (sys_mgr σ) (sys_slab σ) resp = Ok (s', flags) ->
  inv n me (mkSystem (sys_mgr σ) s' (sys_executing σ)
              (delete i (sys_chan σ)) (sys_received σ ++ [resp])).
Proof.
  intros Hn [Hlen Hnd Hun Hchan Hc Hcnt Hst Hfr Her] Hi Hrecv.
  destruct (receive_cases _ _ _ _ _ Hrecv) as (Hh & _ & Hcase).
  pose proof (delete_Permutation _ _ _ Hi) as Hdel.
  assert (Hin : resp ∈ sys_chan σ) by (eapply list_elem_of_lookup_2; eassumption).
  assert (Hchan' : forall r, r ∈ delete i (sys_chan σ) -> resp_err r = None ->
                             is_Some (resp_sector r)).
  { intros r Hr. apply Hchan. rewrite Hdel. right. assumption. }
  assert (Hrem : remaining s' = remaining (sys_slab σ))
    by (unfold remaining; rewrite Hh; reflexivity).
  assert (Hsucc : successes (sys_chan σ)
                  ≡ₚ (if decide (resp_err resp = None) then [resp] else [])
                     ++ successes (delete i (sys_chan σ))).
  { unfold successes.
    etrans; [apply (filter_Permutation _), Hdel|].
    rewrite filter_cons. destruct (decide _); reflexivity. }
  destruct (resp_err resp) as [e|] eqn:He.
  - destruct Hcase as (Hs & Hc' & He').
    assert (Hout : outstanding me
                     (mkSystem (sys_mgr σ) s' (sys_executing σ)
                        (delete i (sys_chan σ)) (sys_received σ ++ [resp]))
                   ≡ₚ outstanding me σ).
    { unfold outstanding. simpl. rewrite Hrem, Hsucc.
      rewrite decide_False by congruence. reflexivity. }
    constructor; simpl; rewrite ?Hs, ?Hc', ?He'; try assumption.
    + rewrite Hout. assumption.
    + intros j Hj. apply Hun. rewrite <- Hout. assumption.
    + rewrite successes_snoc, decide_False, app_nil_r by congruence.
      assumption.
    + intros r. rewrite successes_snoc, decide_False, app_nil_r by congruence.
      apply Hst.
    + intros j b Hj. rewrite successes_snoc, decide_False, app_nil_r
        by congruence. eapply Hfr. eassumption.
    + rewrite collected_snoc, He, Her. reflexivity.
  - destruct Hcase as (Hidx & Hs & Hc' & He').
    destruct (Hchan resp Hin He) as [b Hb].
    set (idx := resp_sectorIndex resp) in *.
    assert (Hout : outstanding me σ
                   ≡ₚ idx :: outstanding me
                        (mkSystem (sys_mgr σ) s' (sys_executing σ)
                           (delete i (sys_chan σ)) (sys_received σ ++ [resp]))).
    { unfold outstanding. simpl. rewrite Hrem, Hsucc.
      rewrite decide_True by reflexivity. simpl.
      fold idx. solve_Permutation. }
    rewrite Hout in Hnd. apply NoDup_cons in Hnd as [Hnotin Hnd'].
    destruct (Hun idx) as [Hidx0 Hnone]; [rewrite Hout; left|].
    assert (Hother : forall j, 0 <= j -> j ≠ idx ->
                       Z.to_nat idx ≠ Z.to_nat j) by (intros; lia).
    assert (Hfilled : filled (sectors s') = S (filled (sectors (sys_slab σ)))).
    { rewrite Hs, Hb. apply filled_insert. assumption. }
    constructor; simpl.
    + rewrite Hs, length_insert. assumption.
    + assumption.
    + intros j Hj.
      destruct (Hun j) as [Hj0 Hjn]; [rewrite Hout; right; assumption|].
      split; [assumption|].
      rewrite Hs, list_lookup_insert_ne; [assumption|].
      apply Hother; [assumption|]. intros ->. contradiction.
    + assumption.
    + rewrite Hc', Hc, Hfilled.
      pose proof (filled_le (sectors s')) as Hle.
      rewrite Hs, length_insert, Hlen, <- Hs, Hfilled in Hle.
      unfold to_int. rewrite Z.mod_small; lia.
    + rewrite Hfilled, Hcnt, successes_snoc, decide_True by assumption.
      rewrite length_app. simpl. lia.
    + intros r. rewrite successes_snoc, decide_True by assumption.
      intros Hr. apply elem_of_app in Hr as [Hr|Hr].
      * destruct (Hst r Hr) as (Hr0 & Hrs & Hrl).
        repeat split; try assumption.
        rewrite Hs, list_lookup_insert_ne; [assumption|].
        apply Hother; [assumption|]. intros Heq.
        rewrite Heq, Hnone in Hrl. destruct Hrs as [? Hrs].
        rewrite Hrs in Hrl. discriminate.
      * apply list_elem_of_singleton in Hr as ->. fold idx.
        repeat split; [assumption | eauto |].
        rewrite Hs. apply list_lookup_insert_eq.
        apply lookup_lt_Some in Hnone. assumption.
    + intros j b' Hj. rewrite successes_snoc, decide_True by assumption.
      rewrite Hs in Hj.
      destruct (decide (Z.to_nat idx = j)) as [<-|Hne].
      * rewrite list_lookup_insert_eq in Hj
          by (apply lookup_lt_Some in Hnone; assumption).
        exists resp. split; [apply elem_of_app; right; left|].
        fold idx. split; [lia | congruence].
      * rewrite list_lookup_insert_ne in Hj by assumption.
        destruct (Hfr j b' Hj) as (r & Hr & Hri & Hrb).
        exists r. split; [apply elem_of_app; left; assumption | auto].
    + rewrite collected_snoc, He, app_nil_r, He', Her. reflexivity.
Qed.

Lemma step_inv n me σ σ' :
  Z.of_nat n < 2 ^ 63 -> inv n me σ -> step' me σ σ' -> inv n me σ'.
Proof.
  intros Hn Hinv Hstep.
  destruct Hstep as
    [σ fastest od s1 req mgr' s2 err Hnext Hlaunch
    |σ hk d d1 req taken Hd Hpop
    |σ i req hk d outcome delivered d1 sent err Hex Hd Hexec
    |σ i resp s' flags Hch Hrecv
    |σ r mgr' err Hother Hl
    |σ contracts mgr' Href
    |σ mgr' Hstop].
  - eapply step_dispatch_inv; eassumption.
  - (* pop *)
    apply pop_queue in Hpop.
    pose proof (queued_pop _ _ _ _ _ Hd Hpop) as Hq.
    apply (inv_frame n me σ _ Hinv); simpl; try reflexivity; [|apply Hinv].
    unfold outstanding. simpl.
    rewrite (own_Permutation _ _ _ Hq), own_cons.
    destruct taken.
    + rewrite own_app, own_cons. change (own me []) with (@nil Z).
      destruct (decide (req_responseChan req = me)); solve_submseteq.
    + destruct (decide (req_responseChan req = me)); solve_submseteq.
  - (* execute *)
    destruct (execute_spec _ _ _ _ _ _ _ Hexec) as [Hq1 Hsent].
    assert (Hq : queue (trackFailure float64_of_int64 Track
                          isBalanceInsufficient isPriceTableExpired
                          isPriceTableNotFound isSectorNotFound d1 err)
                 = queue d) by (rewrite trackFailure_queue; assumption).
    pose proof (queued_same_queue _ _ _ _ Hd Hq) as Hqq.
    pose proof (delete_Permutation _ _ _ Hex) as Hdel.
    apply (inv_frame n me σ _ Hinv); simpl; try reflexivity.
    + unfold outstanding. simpl.
      rewrite (own_Permutation _ _ _ Hqq).
      rewrite (own_Permutation _ _ _ Hdel), own_cons.
      destruct (decide (req_responseChan req = me)) as [Hme|Hme];
        [|solve_submseteq].
      unfold successes. rewrite filter_app, fmap_app.
      destruct sent as [r|]; simpl; [|solve_submseteq].
      rewrite filter_cons.
      destruct (decide (resp_err r = None)) as [He|He];
        [|simpl; solve_submseteq].
      rewrite fmap_cons, filter_nil, fmap_nil.
      destruct (Hsent r eq_refl He) as [-> _]. solve_submseteq.
    + intros r Hr He.
      destruct (decide (req_responseChan req = me)); [|eapply Hinv; eauto].
      apply elem_of_app in Hr as [Hr|Hr]; [eapply Hinv; eauto|].
      destruct sent as [r0|]; simpl in Hr; [|inversion Hr].
      apply list_elem_of_singleton in Hr as ->.
      apply (Hsent r0 eq_refl He).
  - (* receive *)
    eapply step_receive_inv; eassumption.
  - (* another slab download launches *)
    apply (inv_frame n me σ _ Hinv); simpl; try reflexivity; [|apply Hinv].
    unfold outstanding. simpl. apply submseteq_skips_l.
    apply submseteq_skips_r.
    destruct (mgr_launch_queued _ _ _ _ Hl) as [[_ ->]|[_ Hq]];
      [reflexivity|].
    rewrite (own_Permutation _ _ _ Hq), own_cons, decide_False by assumption.
    reflexivity.
  - (* refresh *)
    apply (inv_frame n me σ _ Hinv); simpl; try reflexivity; [|apply Hinv].
    unfold outstanding. simpl. apply submseteq_skips_l.
    apply submseteq_skips_r. apply own_submseteq.
    eapply refreshDownloaders_queued. eassumption.
  - (* stop *)
    apply (inv_frame n me σ _ Hinv); simpl; try reflexivity; [|apply Hinv].
    unfold outstanding. simpl. apply submseteq_skips_l.
    apply submseteq_skips_r. apply own_submseteq.
    apply Stop_queued. assumption.
Qed.

Lemma buildHostToSectors_remaining (shards : list Sector) :
  forall sI (m : gmap PublicKey (list sectorInfo)),
    flat (fmap index) (buildHostToSectors shards sI m)
    ≡ₚ flat (fmap index) m ++ seqZ sI (Z.of_nat (List.length shards)).
Proof.
  induction shards as [|sh tl IH]; intros sI m.
  - simpl. rewrite app_nil_r. reflexivity.
  - cbn [buildHostToSectors]. rewrite IH, flat_insert.
    rewrite (seqZ_cons sI) by (simpl; lia).
    replace (Z.pred (Z.of_nat (List.length (sh :: tl))))
      with (Z.of_nat (List.length tl)) by (simpl; lia).
    replace (Z.succ sI) with (sI + 1) by lia.
    rewrite fmap_app. simpl.
    destruct (m !! Host sh) as [l|] eqn:Hl; simpl.
    + rewrite (flat_delete _ _ _ _ Hl). solve_Permutation.
    + rewrite (delete_id _ _ Hl). solve_Permutation.
Qed.

Lemma own_none me l :
  (forall r, r ∈ l -> req_responseChan r ≠ me) -> own me l = [].
Proof.
  induction l as [|r l IH]; intros H; [reflexivity|].
  rewrite own_cons, decide_False by (apply H; left).
  apply IH. intros r' Hr'. apply H. right. assumption.
Qed.

Lemma elem_of_queued mgr r :
  r ∈ queued mgr ->
  exists hk d, downloaders mgr !! hk = Some d /\ r ∈ queue d.
Proof.
  unfold queued, flat. intros H.
  apply list_elem_of_bind in H as ([hk d] & Hr & Hin).
  apply elem_of_map_to_list in Hin. eauto.
Qed.

Lemma inv_new me slice (mgr : downloadManager dataPoints) sID mgr' s executing :
  (forall hk d r, downloaders mgr !! hk = Some d -> r ∈ queue d ->
                  req_responseChan r ≠ me) ->
  (forall r, r ∈ executing -> req_responseChan r ≠ me) ->
  newSlabDownload SectorRegion mgr sID slice = (mgr', s) ->
  inv (List.length (Shards (slab slice))) me (mkSystem mgr' s executing [] []).
Proof.
  intros Hq Hex. unfold newSlabDownload.
  destruct (SectorRegion slice) as [offset length]. intros [= <- <-].
  set (n := List.length (Shards (slab slice))).
  assert (Hout : outstanding me
                   (mkSystem (set_ongoing ({[sID]} ∪ ongoing mgr) mgr)
                      {| minShards := MinShards (slab slice);
                         sd_length := length; sd_offset := offset;
                         numCompleted := 0; numInflight := 0;
                         numLaunched := 0; numOverdriving := 0;
                         curr := 0%N;
                         hostToSectors :=
                           buildHostToSectors (Shards (slab slice)) 0 ∅;
                         used := ∅; sectors := replicate n None;
                         errs := [] |} executing [] [])
                 ≡ₚ seqZ 0 (Z.of_nat n)).
  { unfold outstanding, remaining. simpl.
    rewrite buildHostToSectors_remaining, flat_empty.
    rewrite (own_none me executing Hex).
    rewrite own_none.
    - simpl. rewrite app_nil_r. reflexivity.
    - intros r Hr. apply elem_of_queued in Hr as (hk & d & Hd & Hr).
      eapply Hq; eassumption. }
  constructor; simpl.
  - apply length_replicate.
  - rewrite Hout. apply NoDup_seqZ.
  - intros i Hi. rewrite Hout in Hi. apply elem_of_seqZ in Hi.
    split; [lia|]. apply lookup_replicate_2. lia.
  - intros r Hr. inversion Hr.
  - rewrite filled_replicate. reflexivity.
  - rewrite filled_replicate. reflexivity.
  - intros r Hr. inversion Hr.
  - intros i b Hi. apply lookup_replicate in Hi as [Habs _]. discriminate.
  - reflexivity.
Qed.

Lemma reachable_inv me slice σ :
  Z.of_nat (List.length (Shards (slab slice))) < 2 ^ 63 ->
  reachable' me slice σ ->
  inv (List.length (Shards (slab slice))) me σ.
Proof.
  intros Hn Hr. induction Hr as [mgr sID mgr' s ex Hq Hex Hnew|σ σ' _ IH Hstep].
  - eapply inv_new; eassumption.
  - eapply step_inv; eassumption.
Qed.

(** C1.  In every state a slab download can reach, [finish] either returns
    the shard matrix, and then [numCompleted >= minShards], the matrix has
    exactly [numCompleted] entries that are not [nil], as many as
    successful responses were received, and an entry holds bytes exactly
    when a successful response carried them with that index; or
    [numCompleted < minShards] and it returns the error with [numCompleted],
    [numInflight], [numLaunched] and [errs], which holds the error of every
    failed response received, in order. *)
Theorem finish_spec me slice σ :
  Z.of_nat (List.length (Shards (slab slice))) < 2 ^ 63 ->
  reachable' me slice σ ->
  let s := sys_slab σ in
  match finish (sys_mgr σ) s with
  | inl shards =>
      minShards s <= numCompleted s /\
      shards = sectors s /\
      Z.of_nat (filled shards) = numCompleted s /\
      filled shards = List.length (successes (sys_received σ)) /\
      (forall i b, shards !! i = Some (Some b) <->
         exists r, r ∈ sys_received σ /\ resp_err r = None /\
                   resp_sectorIndex r = Z.of_nat i /\ resp_sector r = Some b)
  | inr e =>
      numCompleted s < minShards s /\
      e = ErrFailedToDownloadSlab (numCompleted s) (numInflight s)
            (numLaunched s) (numDownloaders (sys_mgr σ)) (errs s) /\
      errs s = collected (sys_received σ)
  end.
Proof.
  intros Hn Hr. cbv zeta.
  destruct (reachable_inv me slice σ Hn Hr)
    as [Hlen Hnd Hun Hchan Hc Hcnt Hst Hfr Her].
  unfold finish.
  destruct (Z.ltb_spec (numCompleted (sys_slab σ)) (minShards (sys_slab σ)))
    as [Hlt|Hge].
  - split; [assumption|]. split; [reflexivity | assumption].
  - split; [lia|]. split; [reflexivity|]. split; [lia|].
    split; [assumption|].
    intros i b. split.
    + intros Hi. destruct (Hfr i b Hi) as (r & Hrin & Hri & Hrb).
      apply list_elem_of_filter in Hrin as [He Hrin]. eauto.
    + intros (r & Hrin & He & Hri & Hrb).
      destruct (Hst r) as (_ & _ & Hl).
      { apply list_elem_of_filter. auto. }
      rewrite Hri, Nat2Z.id, Hrb in Hl. exact Hl.
Qed.

(** *** The start of [DownloadObject] *)

(** [slabsForDownload] writes the last element of what it returns, so
    [len(slabs) == 0] never holds in [DownloadObject]. *)
Lemma DownloadObject_start_not_nil mgr o_Slabs offset length contracts sID
    respChan fastest :
  DownloadObject_start newDataPoints statsDecayHalfTime SectorRegion mgr
    o_Slabs offset length contracts sID respChan fastest ≠ Ok ReturnNil.
Proof.
  unfold DownloadObject_start.
  destruct (SlabRange.slabsForDownload o_Slabs offset length) as [slabs|p]
    eqn:Hs; [|discriminate].
  rewrite bind_Ok.
  destruct slabs as [|next rest].
  - apply slabsForDownload_nonempty in Hs. congruence.
  - destruct (refreshDownloaders _ _ _ _) as [mgr1|p]; [|discriminate].
    rewrite bind_Ok.
    destruct (_ <? _); [discriminate|].
    destruct (newSlabDownload _ _ _ _). discriminate.
Qed.

(** With [length = 0], [slabsForDownload] keeps the slice the range starts
    in, with [Length] 0. *)
Lemma slabsForDownload_zero_length S offset :
  S ≠ [] -> Forall wf_slice S -> is_uint64 offset ->
  offset <= SlabRange.total S ->
  exists ss, SlabRange.slabsForDownload S offset 0 = Ok [ss] /\ Length ss = 0.
Proof.
  intros Hne Hwf Ho Hin.
  destruct (slabsForDownload_first_half S offset 0 Hne Hwf Ho Hin)
    as (k & ss & Hk & Hfo & Hwf2 & Htot & ->).
  cbv zeta in *.
  assert (Hwfss : wf_slice ss) by (rewrite Forall_lookup in Hwf; eauto).
  pose proof (advance_Length _ ss (proj2 Hwfss) Hfo) as Hadv.
  cbn [SlabRange.lastLoop].
  destruct (Z.leb_spec 0 (Length (SlabRange.advance
                                    (offset - SlabRange.total (take k S)) ss)))
    as [_|Hneg]; [|lia].
  eexists. split; [reflexivity | reflexivity].
Qed.

(** C8, on the code: [DownloadObject] with [length = 0] does not return at
    once.  For an object without slabs, [slabsForDownload] panics on
    [slabs[0]].  For an object of one slab (one shard, on host 7, which has
    a contract), [slabsForDownload] returns that slab with [Length] 0, the
    list is not empty, and the download goes on to launch the slab
    download, which enqueues a sector request at the downloader of
    host 7. *)
Theorem DownloadObject_zero_length (sID : N) (respChan : nat) :
  let mgr := newDownloadManager newDataPoints 0 0 in
  let start :=
    DownloadObject_start newDataPoints statsDecayHalfTime SectorRegion mgr in
  let slice0 := mkSlabSlice example_slab 0 0 in
  start [] 0 0 example_contracts sID respChan first_host
    = Panic PanicIndexOutOfRange /\
  SlabRange.slabsForDownload [mkSlabSlice example_slab 0 10] 0 0
    = Ok [slice0] /\
  exists mgr' s' d,
    start [mkSlabSlice example_slab 0 10] 0 0 example_contracts sID respChan
      first_host = Ok (SlabStarted (mgr', s', None)) /\
    numLaunched s' = 1 /\ numInflight s' = 1 /\
    downloaders mgr' !! 7%N = Some d /\
    queue d = [ {| req_length := (SectorRegion slice0).2;
                   req_offset := (SectorRegion slice0).1;
                   req_root := 11%N; req_hk := 7%N;
                   req_overdrive := false; req_sectorIndex := 0;
                   req_responseChan := respChan |} ].
Proof.
  cbv zeta. split; [reflexivity|]. split; [reflexivity|].
  unfold DownloadObject_start.
  change (SlabRange.slabsForDownload [mkSlabSlice example_slab 0 10] 0 0)
    with (Ok [mkSlabSlice example_slab 0 0]).
  rewrite bind_Ok.
  unfold newSlabDownload.
  destruct (SectorRegion (mkSlabSlice example_slab 0 0)) as [off len].
  eexists _, _, _.
  split; [vm_compute; reflexivity|].
  split; [reflexivity|]. split; [reflexivity|].
  split; [vm_compute; reflexivity | reflexivity].
Qed.

(** *** [refreshDownloaders] *)

Local Abbreviation want_of contracts :=
  (foldl (fun (w : gmap PublicKey ContractMetadata) c => <[HostKey c := c]> w)
         ∅ contracts).

Lemma want_lookup_notin (cs : list ContractMetadata) :
  forall (w0 : gmap PublicKey ContractMetadata) hk,
    hk ∉ HostKey <$> cs ->
    foldl (fun w c => <[HostKey c := c]> w) w0 cs !! hk = w0 !! hk.
Proof.
  induction cs as [|c cs IH]; intros w0 hk Hn; [reflexivity|].
  rewrite fmap_cons in Hn. apply not_elem_of_cons in Hn as [Hne Hn].
  simpl. rewrite IH by assumption. apply lookup_insert_ne. congruence.
Qed.

Lemma want_lookup_in (cs : list ContractMetadata) :
  forall (w0 : gmap PublicKey ContractMetadata) hk,
    hk ∈ HostKey <$> cs ->
    exists c, c ∈ cs /\ HostKey c = hk /\
      foldl (fun w c => <[HostKey c := c]> w) w0 cs !! hk = Some c.
Proof.
  induction cs as [|c cs IH]; intros w0 hk Hin; [inversion Hin|].
  rewrite fmap_cons in Hin. simpl.
  destruct (decide (hk ∈ HostKey <$> cs)) as [Hin'|Hn].
  - destruct (IH (<[HostKey c := c]> w0) hk Hin') as (c' & H1 & H2 & H3).
    exists c'. split; [right; assumption|]. split; assumption.
  - apply elem_of_cons in Hin as [->|Hin]; [|contradiction].
    exists c. split; [left|]. split; [reflexivity|].
    rewrite want_lookup_notin by assumption. apply lookup_insert_eq.
Qed.

Lemma want_of_None (cs : list ContractMetadata) hk :
  want_of cs !! hk = None <-> hk ∉ HostKey <$> cs.
Proof.
  split.
  - intros Hn Hin.
    destruct (want_lookup_in cs ∅ hk Hin) as (c & _ & _ & Hc). congruence.
  - intros Hn. rewrite want_lookup_notin by assumption. apply lookup_empty.
Qed.

Lemma prune_wanted want (l : list (PublicKey * downloader dataPoints)) :
  forall (m0 kept : gmap PublicKey (downloader dataPoints)),
    foldl (prune want) (Ok m0) l = Ok kept ->
    forall k, is_Some (want !! k) -> kept !! k = m0 !! k.
Proof.
  induction l as [|[k0 d0] l IH]; intros m0 kept Hf k Hk.
  - injection Hf as <-. reflexivity.
  - simpl in Hf. destruct (want !! k0) eqn:Hw.
    + eapply IH; eassumption.
    + destruct (d_stopChan d0); simpl in Hf.
      * rewrite prune_panic in Hf. discriminate.
      * rewrite (IH _ _ Hf _ Hk). apply lookup_delete_ne.
        intros ->. rewrite Hw in Hk. destruct Hk; discriminate.
Qed.

Lemma prune_unwanted want (l : list (PublicKey * downloader dataPoints)) :
  forall (m0 kept : gmap PublicKey (downloader dataPoints)),
    foldl (prune want) (Ok m0) l = Ok kept ->
    forall k d, (k, d) ∈ l -> want !! k = None ->
      kept !! k = None /\ d_stopChan d = false.
Proof.
  induction l as [|[k0 d0] l IH]; intros m0 kept Hf k d Hin Hk.
  - inversion Hin.
  - simpl in Hf. apply elem_of_cons in Hin as [[= -> ->]|Hin].
    + rewrite Hk in Hf. destruct (d_stopChan d0); simpl in Hf.
      * rewrite prune_panic in Hf. discriminate.
      * split; [|reflexivity].
        destruct (kept !! k0) as [d'|] eqn:Hd'; [|reflexivity].
        apply (prune_sub _ _ _ _ Hf) in Hd'.
        rewrite lookup_delete_eq in Hd'. discriminate.
    + destruct (want !! k0).
      * eapply IH; eassumption.
      * destruct (d_stopChan d0); simpl in Hf.
        -- rewrite prune_panic in Hf. discriminate.
        -- eapply IH; eassumption.
Qed.

Lemma prune_ok want (l : list (PublicKey * downloader dataPoints)) :
  forall (m0 : gmap PublicKey (downloader dataPoints)),
    Forall (fun kd => want !! kd.1 = None -> d_stopChan kd.2 = false) l ->
    exists kept, foldl (prune want) (Ok m0) l = Ok kept.
Proof.
  induction l as [|[k0 d0] l IH]; intros m0 Hall; [eexists; reflexivity|].
  inversion Hall as [|? ? Hd Hl]; subst. simpl in Hd. simpl.
  destruct (want !! k0); [apply IH; assumption|].
  rewrite Hd by reflexivity. simpl. apply IH. assumption.
Qed.

Lemma prune_closed want (l : list (PublicKey * downloader dataPoints)) :
  forall (m0 : gmap PublicKey (downloader dataPoints)),
    Exists (fun kd => want !! kd.1 = None /\ d_stopChan kd.2 = true) l ->
    foldl (prune want) (Ok m0) l = Panic PanicCloseOfClosed.
Proof.
  induction l as [|[k0 d0] l IH]; intros m0 Hex; [inversion Hex|].
  simpl. inversion Hex as [? ? [Hw Hd]|? ? Ht]; subst; simpl in *.
  - rewrite Hw, Hd. simpl. apply prune_panic.
  - destruct (want !! k0); [apply IH; assumption|].
    destruct (d_stopChan d0); simpl; [apply prune_panic | apply IH; assumption].
Qed.

(** What a refresh that returns leaves in the map of downloaders. *)
Lemma refreshDownloaders_lookup mgr contracts mgr' :
  refreshDownloaders newDataPoints statsDecayHalfTime mgr contracts = Ok mgr' ->
  forall hk,
    downloaders mgr' !! hk =
      match want_of contracts !! hk with
      | None => None
      | Some c =>
          match downloaders mgr !! hk with
          | Some d => Some d
          | None => Some (newDownloader newDataPoints statsDecayHalfTime c)
          end
      end.
Proof.
  unfold refreshDownloaders.
  destruct (foldl _ (Ok (downloaders mgr)) _) as [kept|p] eqn:Hk;
    [|discriminate].
  rewrite bind_Ok. intros [= <-] hk. simpl.
  destruct (want_of contracts !! hk) as [c|] eqn:Hw.
  - assert (Hkept : kept !! hk = downloaders mgr !! hk)
      by (eapply prune_wanted; [eassumption | rewrite Hw; eauto]).
    destruct (downloaders mgr !! hk) as [d|] eqn:Hd.
    + apply lookup_union_Some_raw. right. split; [|assumption].
      rewrite lookup_fmap, map_lookup_filter.
      rewrite Hw. simpl. rewrite option_guard_False; [reflexivity|].
      simpl. congruence.
    + apply lookup_union_Some_raw. left.
      rewrite lookup_fmap, map_lookup_filter.
      rewrite Hw. simpl. rewrite option_guard_True by (simpl; assumption).
      reflexivity.
  - apply lookup_union_None. split.
    + rewrite lookup_fmap, map_lookup_filter. rewrite Hw. reflexivity.
    + destruct (downloaders mgr !! hk) as [d|] eqn:Hd.
      * eapply prune_unwanted; [eassumption| |eassumption].
        apply elem_of_map_to_list. eassumption.
      * destruct (kept !! hk) as [d'|] eqn:Hd'; [|reflexivity].
        apply (prune_sub _ _ _ _ Hk) in Hd'. congruence.
Qed.

Lemma Stop_Ok_open mgr mgr1 :
  Stop mgr = Ok mgr1 -> stopChan mgr = false /\ all_open (downloaders mgr).
Proof.
  intros H. unfold Stop in H.
  destruct (stopChan mgr) eqn:Hs; [discriminate|]. split; [reflexivity|].
  unfold close in H at 1. rewrite bind_Ok in H.
  intros hk d Hd. destruct (d_stopChan d) eqn:Hc; [|reflexivity].
  rewrite close_downloaders_closed in H; [discriminate|].
  apply Exists_exists. exists (hk, d).
  split; [apply elem_of_map_to_list; assumption | assumption].
Qed.

Lemma refreshDownloaders_fields mgr contracts mgr' :
  refreshDownloaders newDataPoints statsDecayHalfTime mgr contracts = Ok mgr' ->
  maxOverdrive mgr' = maxOverdrive mgr /\
  overdriveTimeout mgr' = overdriveTimeout mgr /\
  statsOverdrivePct mgr' = statsOverdrivePct mgr /\
  statsSlabDownloadSpeedBytesPerMS mgr' = statsSlabDownloadSpeedBytesPerMS mgr /\
  stopChan mgr' = stopChan mgr /\
  ongoing mgr' = ongoing mgr.
Proof.
  unfold refreshDownloaders.
  destruct (foldl _ (Ok (downloaders mgr)) _) as [kept|p]; [|discriminate].
  rewrite bind_Ok. intros [= <-]. repeat split; reflexivity.
Qed.

Lemma refreshDownloaders_returns mgr contracts :
  (forall hk d, downloaders mgr !! hk = Some d ->
                hk ∉ HostKey <$> contracts -> d_stopChan d = false) ->
  exists mgr',
    refreshDownloaders newDataPoints statsDecayHalfTime mgr contracts = Ok mgr'.
Proof.
  intros Hopen. unfold refreshDownloaders.
  destruct (prune_ok (want_of contracts) (map_to_list (downloaders mgr))
              (downloaders mgr)) as (kept & Hk).
  { apply Forall_forall. intros [k d] Hin Hw. simpl in *.
    apply elem_of_map_to_list in Hin. apply want_of_None in Hw.
    eapply Hopen; eassumption. }
  rewrite Hk, bind_Ok. eexists. reflexivity.
Qed.

Lemma refreshDownloaders_panics mgr contracts hk d :
  downloaders mgr !! hk = Some d -> hk ∉ HostKey <$> contracts ->
  d_stopChan d = true ->
  refreshDownloaders newDataPoints statsDecayHalfTime mgr contracts
    = Panic PanicCloseOfClosed.
Proof.
  intros Hd Hn Hc. unfold refreshDownloaders.
  rewrite prune_closed; [reflexivity|].
  apply Exists_exists. exists (hk, d). split.
  - apply elem_of_map_to_list. assumption.
  - split; [apply want_of_None; assumption | assumption].
Qed.

(** X1.  A refresh that returns leaves exactly one downloader per host
    with a contract: the downloader a host already had is kept as it is
    (queue, counters and statistics included), a host without one gets a
    new downloader made from one of its contracts, and the downloaders of
    hosts without a contract are gone; those had their stop signal still
    open.  Nothing else of the manager changes. *)
Theorem refreshDownloaders_spec mgr contracts mgr' :
  refreshDownloaders newDataPoints statsDecayHalfTime mgr contracts = Ok mgr' ->
  (forall hk, is_Some (downloaders mgr' !! hk) <-> hk ∈ HostKey <$> contracts) /\
  (forall hk d, downloaders mgr !! hk = Some d -> hk ∈ HostKey <$> contracts ->
     downloaders mgr' !! hk = Some d) /\
  (forall hk, downloaders mgr !! hk = None -> hk ∈ HostKey <$> contracts ->
     exists c, c ∈ contracts /\ HostKey c = hk /\
       downloaders mgr' !! hk
         = Some (newDownloader newDataPoints statsDecayHalfTime c)) /\
  (forall hk d, downloaders mgr !! hk = Some d -> hk ∉ HostKey <$> contracts ->
     d_stopChan d = false) /\
  (maxOverdrive mgr' = maxOverdrive mgr /\
   overdriveTimeout mgr' = overdriveTimeout mgr /\
   statsOverdrivePct mgr' = statsOverdrivePct mgr /\
   statsSlabDownloadSpeedBytesPerMS mgr' = statsSlabDownloadSpeedBytesPerMS mgr /\
   stopChan mgr' = stopChan mgr /\
   ongoing mgr' = ongoing mgr).
Proof.
  intros Hr. pose proof (refreshDownloaders_lookup _ _ _ Hr) as Hl.
  split; [|split; [|split; [|split]]].
  - intros hk. rewrite Hl. split.
    + intros Hs. destruct (decide (hk ∈ HostKey <$> contracts)) as [|Hn];
        [assumption|].
      apply want_of_None in Hn. rewrite Hn in Hs. destruct Hs; discriminate.
    + intros Hin. destruct (want_lookup_in contracts ∅ hk Hin)
        as (c & _ & _ & ->).
      destruct (downloaders mgr !! hk); eauto.
  - intros hk d Hd Hin. rewrite Hl, Hd.
    destruct (want_lookup_in contracts ∅ hk Hin) as (c & _ & _ & ->).
    reflexivity.
  - intros hk Hd Hin. rewrite Hl, Hd.
    destruct (want_lookup_in contracts ∅ hk Hin) as (c & Hc & Hk & ->).
    exists c. split; [assumption|]. split; [assumption | reflexivity].
  - intros hk d Hd Hn. apply want_of_None in Hn.
    revert Hr. unfold refreshDownloaders.
    destruct (foldl _ (Ok (downloaders mgr)) _) as [kept|p] eqn:Hk;
      [|discriminate].
    intros _. eapply prune_unwanted; [eassumption| |eassumption].
    apply elem_of_map_to_list. eassumption.
  - eapply refreshDownloaders_fields. eassumption.
Qed.

(** X2.  Refreshing again with the same contracts changes nothing: the
    second refresh returns the manager the first one left. *)
Theorem refreshDownloaders_idempotent mgr contracts mgr' :
  refreshDownloaders newDataPoints statsDecayHalfTime mgr contracts = Ok mgr' ->
  refreshDownloaders newDataPoints statsDecayHalfTime mgr' contracts = Ok mgr'.
Proof.
  intros Hr. pose proof (refreshDownloaders_lookup _ _ _ Hr) as Hl.
  destruct (refreshDownloaders_returns mgr' contracts) as (mgr2 & Hr2).
  { intros hk d Hd Hn. apply want_of_None in Hn.
    rewrite Hl, Hn in Hd. discriminate. }
  rewrite Hr2. f_equal.
  pose proof (refreshDownloaders_lookup _ _ _ Hr2) as Hl2.
  pose proof (refreshDownloaders_fields _ _ _ Hr2)
    as (H1 & H2 & H3 & H4 & H5 & H6).
  assert (Hds : downloaders mgr2 = downloaders mgr').
  { apply map_eq. intros hk. rewrite Hl2.
    destruct (want_of contracts !! hk) as [c|] eqn:Hw.
    - destruct (downloaders mgr' !! hk) as [d|] eqn:Hd; [reflexivity|].
      rewrite Hl, Hw in Hd. destruct (downloaders mgr !! hk); discriminate.
    - rewrite Hl, Hw. reflexivity. }
  destruct mgr2, mgr'. simpl in *. congruence.
Qed.

(** X3.  Refreshing a stopped manager.  After [Stop] every downloader's
    stop signal is closed, so a refresh that has to drop a downloader (its
    host has no contract any more) closes a closed channel and panics.  If
    every downloader's host still has a contract the refresh returns: the
    manager stays stopped, and a host that is new gets a downloader whose
    stop signal is open. *)
Theorem refreshDownloaders_after_Stop mgr mgr1 contracts :
  Stop mgr = Ok mgr1 ->
  ((exists hk, is_Some (downloaders mgr !! hk) /\ hk ∉ HostKey <$> contracts) ->
   refreshDownloaders newDataPoints statsDecayHalfTime mgr1 contracts
     = Panic PanicCloseOfClosed) /\
  ((forall hk, is_Some (downloaders mgr !! hk) -> hk ∈ HostKey <$> contracts) ->
   exists mgr2,
     refreshDownloaders newDataPoints statsDecayHalfTime mgr1 contracts
       = Ok mgr2 /\
     stopChan mgr2 = true /\
     (forall hk d, downloaders mgr !! hk = Some d ->
        downloaders mgr2 !! hk = Some (set_d_stopChan true d)) /\
     (forall hk, hk ∈ HostKey <$> contracts -> downloaders mgr !! hk = None ->
        exists d, downloaders mgr2 !! hk = Some d /\ d_stopChan d = false)).
Proof.
  intros Hstop.
  destruct (Stop_Ok_open _ _ Hstop) as [Hs Hopen].
  destruct (Stop_open mgr Hs Hopen) as (mgr1' & Hstop' & Hc & Hds).
  rewrite Hstop in Hstop'. injection Hstop' as <-.
  split.
  - intros (hk & [d Hd] & Hn).
    eapply refreshDownloaders_panics with (hk := hk);
      [rewrite Hds, Hd; reflexivity | assumption | reflexivity].
  - intros Hall.
    destruct (refreshDownloaders_returns mgr1 contracts) as (mgr2 & Hr).
    { intros hk d Hd Hn. exfalso. apply Hn, Hall.
      rewrite Hds in Hd. destruct (downloaders mgr !! hk); [eauto|].
      discriminate. }
    exists mgr2. split; [assumption|].
    pose proof (refreshDownloaders_lookup _ _ _ Hr) as Hl.
    pose proof (refreshDownloaders_fields _ _ _ Hr)
      as (_ & _ & _ & _ & Hsc & _).
    split; [congruence|]. split.
    + intros hk d Hd. rewrite Hl.
      destruct (want_lookup_in contracts ∅ hk) as (c & _ & _ & ->);
        [apply Hall; eauto|].
      rewrite Hds, Hd. reflexivity.
    + intros hk Hin Hd. rewrite Hl.
      destruct (want_lookup_in contracts ∅ hk Hin) as (c & _ & _ & ->).
      rewrite Hds, Hd. simpl. eexists. split; reflexivity.
Qed.

(** *** The counters of a slab download *)

Lemma nextRequest_counters fastest s me od s1 req :
  nextRequest fastest s me od = (s1, req) ->
  numInflight s1 = numInflight s /\ numLaunched s1 = numLaunched s /\
  numOverdriving s1 = numOverdriving s.
Proof.
  unfold nextRequest.
  set (s0 := if decide (List.length (sectorsOf s (curr s)) = 0%nat)
             then _ else s).
  assert (H0 : numInflight s0 = numInflight s /\
               numLaunched s0 = numLaunched s /\
               numOverdriving s0 = numOverdriving s).
  { unfold s0. destruct (decide _); repeat split; reflexivity. }
  destruct (sectorsOf s0 (curr s0)); intros [= <- <-]; exact H0.
Qed.

Lemma launch_counters mgr s req mgr' s' err :
  launch mgr s req = (mgr', s', err) ->
  remaining s' = remaining s /\
  ((err ≠ None /\ mgr' = mgr /\ s' = s) \/
   (exists r, req = Some r /\ err = None /\
      queued mgr' ≡ₚ r :: queued mgr /\
      numInflight s' = wrap64 (numInflight s + 1) /\
      numLaunched s' = wrap64 (numLaunched s + 1))).
Proof.
  unfold launch. destruct req as [r|].
  - destruct (mgr_launch mgr r) as [mgr1 [e|]] eqn:Hl.
    + intros [= <- <- <-]. split; [reflexivity|]. left.
      destruct (mgr_launch_queued _ _ _ _ Hl) as [[_ ->]|[? _]];
        [|discriminate].
      split; [discriminate|]. split; reflexivity.
    + intros [= <- <- <-].
      destruct (mgr_launch_queued _ _ _ _ Hl) as [[? _]|[_ Hq]];
        [congruence|].
      split; [destruct (req_overdrive r); reflexivity|]. right.
      exists r. split; [reflexivity|]. split; [reflexivity|].
      split; [assumption|].
      destruct (req_overdrive r); split; reflexivity.
  - intros [= <- <- <-]. split; [reflexivity|]. left.
    split; [discriminate|]. split; reflexivity.
Qed.

Lemma receive_counters mgr s resp s' flags :
  receive mgr s resp = Ok (s', flags) ->
  numInflight s' = wrap64 (numInflight s - 1) /\
  numLaunched s' = numLaunched s.
Proof.
  unfold receive. destruct (resp_err resp).
  - intros [= <- _]. destruct (resp_overdrive resp); split; reflexivity.
  - destruct (decide _); [|discriminate].
    intros [= <- _]. destruct (resp_overdrive resp); split; reflexivity.
Qed.

Lemma accounts_frame n me σ σ' :
  accounts n me σ ->
  sys_slab σ' = sys_slab σ ->
  sys_received σ' = sys_received σ ->
  (pending me σ' <= pending me σ)%nat ->
  accounts n me σ'.
Proof.
  intros [H1 H2 H3 H4] Hs Hr Hp.
  constructor; rewrite ?Hs, ?Hr; try assumption. lia.
Qed.

Lemma step_accounts n me σ σ' :
  Z.of_nat n < 2 ^ 64 -> accounts n me σ -> step' me σ σ' -> accounts n me σ'.
Proof.
  intros Hn Hacc Hstep.
  destruct Hstep as
    [σ fastest od s1 req mgr' s2 err Hnext Hlaunch
    |σ hk d d1 req taken Hd Hpop
    |σ i req hk d outcome delivered d1 sent err Hex Hd Hexec
    |σ i resp s' flags Hch Hrecv
    |σ r mgr' err Hother Hl
    |σ contracts mgr' Href
    |σ mgr' Hstop].
  - (* dispatch *)
    destruct Hacc as [H1 H2 H3 H4].
    destruct (nextRequest_counters _ _ _ _ _ _ Hnext) as (Hi & Hl & _).
    pose proof (nextRequest_spec _ _ _ _ _ _ Hnext) as (_ & _ & _ & _ & Hrem).
    destruct (launch_counters _ _ _ _ _ _ Hlaunch)
      as (Hrem2 & [(_ & -> & ->)|(r & -> & _ & Hq & Hi2 & Hl2)]).
    + constructor; simpl; rewrite ?Hi, ?Hl; try assumption.
      destruct req as [r|].
      * destruct Hrem as [_ Hrem]. apply Permutation_length in Hrem.
        simpl in Hrem. lia.
      * rewrite Hrem. assumption.
    + destruct Hrem as [Hme Hrem]. apply Permutation_length in Hrem.
      simpl in Hrem.
      assert (Hp : pending me (mkSystem mgr' s2 (sys_executing σ) (sys_chan σ)
                                 (sys_received σ))
                   = Datatypes.S (pending me σ)).
      { unfold pending. simpl.
        rewrite (Permutation_length (own_Permutation _ _ _ Hq)).
        rewrite own_cons, decide_True by assumption. reflexivity. }
      assert (Hw1 : wrap64 (numInflight s1 + 1) = numInflight s1 + 1).
      { apply wrap64_small. unfold is_uint64. lia. }
      assert (Hw2 : wrap64 (numLaunched s1 + 1) = numLaunched s1 + 1).
      { apply wrap64_small. unfold is_uint64. lia. }
      constructor; simpl; rewrite ?Hp, ?Hi2, ?Hl2, ?Hw1, ?Hw2, ?Hrem2; lia.
  - (* pop *)
    apply pop_queue in Hpop.
    pose proof (queued_pop _ _ _ _ _ Hd Hpop) as Hq.
    apply (accounts_frame n me σ _ Hacc); simpl; try reflexivity.
    unfold pending. simpl.
    rewrite (Permutation_length (own_Permutation _ _ _ Hq)), own_cons.
    destruct taken.
    + rewrite own_app, own_cons. change (own me []) with (@nil Z).
      rewrite length_app.
      destruct (decide (req_responseChan req = me)); simpl; lia.
    + destruct (decide (req_responseChan req = me)); simpl; lia.
  - (* execute *)
    destruct (execute_spec _ _ _ _ _ _ _ Hexec) as [Hq1 _].
    assert (Hq : queue (trackFailure float64_of_int64 Track
                          isBalanceInsufficient isPriceTableExpired
                          isPriceTableNotFound isSectorNotFound d1 err)
                 = queue d) by (rewrite trackFailure_queue; assumption).
    pose proof (queued_same_queue _ _ _ _ Hd Hq) as Hqq.
    pose proof (delete_Permutation _ _ _ Hex) as Hdel.
    apply (accounts_frame n me σ _ Hacc); simpl; try reflexivity.
    unfold pending. simpl.
    rewrite (Permutation_length (own_Permutation _ _ _ Hqq)).
    rewrite (Permutation_length (own_Permutation _ _ _ Hdel)), own_cons.
    destruct (decide (req_responseChan req = me)); [|lia].
    rewrite length_app. destruct sent; simpl; lia.
  - (* receive *)
    destruct Hacc as [H1 H2 H3 H4].
    destruct (receive_counters _ _ _ _ _ Hrecv) as (Hi & Hl).
    pose proof (receive_cases _ _ _ _ _ Hrecv) as (Hh & _).
    pose proof (delete_Permutation _ _ _ Hch) as Hdel.
    apply Permutation_length in Hdel. simpl in Hdel.
    unfold pending in H4.
    assert (Hw : wrap64 (numInflight (sys_slab σ) - 1)
                 = numInflight (sys_slab σ) - 1).
    { apply wrap64_small. unfold is_uint64. lia. }
    constructor; simpl; unfold pending, remaining; simpl;
      rewrite ?Hi, ?Hl, ?Hw, ?Hh, ?length_app; simpl;
      try assumption; try lia.
  - (* another slab download launches *)
    apply (accounts_frame n me σ _ Hacc); simpl; try reflexivity.
    unfold pending. simpl.
    destruct (mgr_launch_queued _ _ _ _ Hl) as [[_ ->]|[_ Hq]]; [lia|].
    rewrite (Permutation_length (own_Permutation _ _ _ Hq)).
    rewrite own_cons, decide_False by assumption. lia.
  - (* refresh *)
    apply (accounts_frame n me σ _ Hacc); simpl; try reflexivity.
    unfold pending. simpl.
    pose proof (submseteq_length _ _
                  (own_submseteq me _ _
                     (refreshDownloaders_queued _ _ _ Href))). lia.
  - (* stop *)
    apply (accounts_frame n me σ _ Hacc); simpl; try reflexivity.
    unfold pending. simpl.
    pose proof (submseteq_length _ _
                  (own_submseteq me _ _ (Stop_queued _ _ Hstop))). lia.
Qed.

Lemma accounts_new me slice (mgr : downloadManager dataPoints) sID mgr' s
    executing :
  (forall hk d r, downloaders mgr !! hk = Some d -> r ∈ queue d ->
                  req_responseChan r ≠ me) ->
  (forall r, r ∈ executing -> req_responseChan r ≠ me) ->
  newSlabDownload SectorRegion mgr sID slice = (mgr', s) ->
  accounts (List.length (Shards (slab slice))) me
    (mkSystem mgr' s executing [] []).
Proof.
  intros Hq Hex. unfold newSlabDownload.
  destruct (SectorRegion slice) as [offset length]. intros [= <- <-].
  constructor; simpl.
  - lia.
  - unfold remaining. simpl.
    rewrite buildHostToSectors_remaining, flat_empty. simpl.
    rewrite length_seqZ. lia.
  - reflexivity.
  - unfold pending. simpl. rewrite (own_none me executing Hex).
    rewrite own_none; [simpl; lia|].
    intros r Hr. apply elem_of_queued in Hr as (hk & d & Hd & Hr).
    eapply Hq; eassumption.
Qed.

Lemma reachable_accounts me slice σ :
  Z.of_nat (List.length (Shards (slab slice))) < 2 ^ 64 ->
  reachable' me slice σ ->
  accounts (List.length (Shards (slab slice))) me σ.
Proof.
  intros Hn Hr. induction Hr as [mgr sID mgr' s ex Hq Hex Hnew|σ σ' _ IH Hstep].
  - eapply accounts_new; eassumption.
  - eapply step_accounts; eassumption.
Qed.

Lemma successes_collected_length (l : list sectorDownloadResp) :
  (List.length (successes l) + List.length (collected l))%nat = List.length l.
Proof.
  induction l as [|r l IH]; [reflexivity|].
  unfold successes, collected in *. rewrite filter_cons. simpl.
  destruct (resp_err r) as [e|]; simpl.
  - rewrite Nat.add_succ_r. f_equal. exact IH.
  - f_equal. exact IH.
Qed.

(** X4.  The counters of a slab download, in every state it can reach:
    [numInflight] is [numLaunched] less the responses received, which are
    the [numCompleted] successes and the [len(errs)] failures; it never
    wraps below zero and is at least the number of the download's requests
    still queued or executing and of the responses waiting on its channel;
    [numLaunched] and the sectors still to hand out stay within the number
    of shards. *)
Theorem inflight_accounting me slice σ :
  Z.of_nat (List.length (Shards (slab slice))) < 2 ^ 63 ->
  reachable' me slice σ ->
  let s := sys_slab σ in
  numInflight s
    = numLaunched s - (numCompleted s + Z.of_nat (List.length (errs s))) /\
  Z.of_nat (List.length (sys_received σ))
    = numCompleted s + Z.of_nat (List.length (errs s)) /\
  Z.of_nat (pending me σ) <= numInflight s /\
  0 <= numInflight s <= numLaunched s /\
  numLaunched s + Z.of_nat (List.length (remaining s))
    <= Z.of_nat (List.length (Shards (slab slice))).
Proof.
  intros Hn Hr. cbv zeta.
  assert (Hn' : Z.of_nat (List.length (Shards (slab slice))) < 2 ^ 64) by lia.
  destruct (reachable_accounts me slice σ Hn' Hr) as [H1 H2 H3 H4].
  pose proof (reachable_inv me slice σ Hn Hr) as Hinv.
  pose proof (inv_completed Hinv) as Hc.
  pose proof (inv_count Hinv) as Hcnt.
  pose proof (inv_errs Hinv) as He.
  pose proof (successes_collected_length (sys_received σ)) as Hlen.
  rewrite He, Hc, Hcnt. lia.
Qed.

(** *** The sectors filed under the hosts *)

Lemma buildHostToSectors_filed (all : list Sector) (shards : list Sector) :
  forall (pre : list Sector) (m : gmap PublicKey (list sectorInfo)),
    all = pre ++ shards ->
    (forall hk l si, m !! hk = Some l -> si ∈ l ->
       0 <= index si /\ all !! Z.to_nat (index si) = Some (si_sector si) /\
       Host (si_sector si) = hk) ->
    forall hk l si,
      buildHostToSectors shards (Z.of_nat (List.length pre)) m !! hk = Some l ->
      si ∈ l ->
      0 <= index si /\ all !! Z.to_nat (index si) = Some (si_sector si) /\
      Host (si_sector si) = hk.
Proof.
  induction shards as [|sh tl IH]; intros pre m Hall Hm; [exact Hm|].
  simpl.
  replace (Z.of_nat (List.length pre) + 1)
    with (Z.of_nat (List.length (pre ++ [sh])))
    by (rewrite length_app; simpl; lia).
  apply IH.
  - rewrite Hall, <- app_assoc. reflexivity.
  - intros hk l si Hl Hsi.
    destruct (decide (hk = Host sh)) as [->|Hne].
    + rewrite lookup_insert_eq in Hl. injection Hl as <-.
      apply elem_of_app in Hsi as [Hsi|Hsi].
      * destruct (m !! Host sh) as [l0|] eqn:Hl0; simpl in Hsi;
          [eapply Hm; eassumption | inversion Hsi].
      * apply list_elem_of_singleton in Hsi as ->. simpl.
        split; [lia|]. split; [|reflexivity].
        rewrite Nat2Z.id, Hall.
        rewrite lookup_app_r by lia. rewrite Nat.sub_diag. reflexivity.
    + rewrite lookup_insert_ne in Hl by congruence. eapply Hm; eassumption.
Qed.

Lemma nextRequest_filed shards region fastest s me od s1 req :
  filed shards region s ->
  nextRequest fastest s me od = (s1, req) ->
  filed shards region s1 /\
  match req with
  | None => True
  | Some r =>
      exists sec,
        0 <= req_sectorIndex r /\
        shards !! Z.to_nat (req_sectorIndex r) = Some sec /\
        req_hk r = Host sec /\ req_root r = Root sec /\
        req_hk r = curr s1 /\
        (req_offset r, req_length r) = region /\
        req_overdrive r = od /\ req_responseChan r = me
  end.
Proof.
  intros [Hf Hreg]. unfold nextRequest.
  set (s0 := if decide (List.length (sectorsOf s (curr s)) = 0%nat)
             then _ else s).
  assert (H0 : hostToSectors s0 = hostToSectors s /\
               sd_offset s0 = sd_offset s /\ sd_length s0 = sd_length s).
  { unfold s0. destruct (decide _); repeat split; reflexivity. }
  destruct H0 as (Hh & Ho & Hl).
  unfold sectorsOf.
  destruct (hostToSectors s0 !! curr s0) as [l|] eqn:Hlk; simpl.
  2:{ intros [= <- <-]. split; [|exact I].
      constructor; rewrite ?Hh, ?Ho, ?Hl; assumption. }
  destruct l as [|sector rest].
  { intros [= <- <-]. split; [|exact I].
    constructor; rewrite ?Hh, ?Ho, ?Hl; assumption. }
  intros [= <- <-]. simpl. rewrite Hh in Hlk.
  destruct (Hf _ _ sector Hlk) as (Hi & Hs & Hhost); [left|].
  split.
  - constructor; simpl; rewrite ?Ho, ?Hl; [|assumption].
    intros hk l si Hlk' Hsi.
    destruct (decide (hk = curr s0)) as [->|Hne].
    + rewrite lookup_insert_eq in Hlk'. injection Hlk' as <-.
      eapply Hf; [eassumption | right; assumption].
    + rewrite lookup_insert_ne in Hlk' by congruence. rewrite Hh in Hlk'.
      eapply Hf; eassumption.
  - exists (si_sector sector). rewrite Ho, Hl. auto 10.
Qed.

Lemma launch_wiring mgr s req mgr' s' err :
  launch mgr s req = (mgr', s', err) ->
  hostToSectors s' = hostToSectors s /\ sd_offset s' = sd_offset s /\
  sd_length s' = sd_length s.
Proof.
  unfold launch. destruct req as [r|]; [|intros [= _ <- _]; auto].
  destruct (mgr_launch mgr r) as [mgr1 [e|]]; intros [= _ <- _]; [auto|].
  destruct (req_overdrive r); auto.
Qed.

Lemma receive_wiring mgr s resp s' flags :
  receive mgr s resp = Ok (s', flags) ->
  hostToSectors s' = hostToSectors s /\ sd_offset s' = sd_offset s /\
  sd_length s' = sd_length s.
Proof.
  unfold receive. destruct (resp_err resp).
  - intros [= <- _]. destruct (resp_overdrive resp); auto.
  - destruct (decide _); [|discriminate].
    intros [= <- _]. destruct (resp_overdrive resp); auto.
Qed.

Lemma reachable_filed me slice σ :
  reachable' me slice σ ->
  filed (Shards (slab slice)) (SectorRegion slice) (sys_slab σ).
Proof.
  intros Hr. induction Hr as [mgr sID mgr' s ex Hq Hex Hnew|σ σ' _ IH Hstep].
  - revert Hnew. unfold newSlabDownload.
    destruct (SectorRegion slice) as [offset length]. intros [= <- <-].
    constructor; simpl; [|reflexivity].
    apply (buildHostToSectors_filed (Shards (slab slice))
             (Shards (slab slice)) [] ∅ eq_refl).
    intros hk l si Hl. rewrite lookup_empty in Hl. discriminate.
  - destruct Hstep as
      [σ fastest od s1 req mgr' s2 err Hnext Hlaunch
      |σ hk d d1 req taken Hd Hpop
      |σ i req hk d outcome delivered d1 sent err Hex Hd Hexec
      |σ i resp s' flags Hch Hrecv
      |σ r mgr' err Hother Hl
      |σ contracts mgr' Href
      |σ mgr' Hstop]; simpl; try exact IH.
    + destruct (nextRequest_filed _ _ _ _ _ _ _ _ IH Hnext) as [[Hf Hreg] _].
      destruct (launch_wiring _ _ _ _ _ _ Hlaunch) as (Hh & Ho & Hl).
      constructor; rewrite ?Hh, ?Ho, ?Hl; assumption.
    + destruct IH as [Hf Hreg].
      destruct (receive_wiring _ _ _ _ _ Hrecv) as (Hh & Ho & Hl).
      constructor; rewrite ?Hh, ?Ho, ?Hl; assumption.
Qed.

(** X5.  What [nextRequest] hands out in a state the slab download can
    reach: a request for a shard of the slab, addressed to the host that
    stores the shard (the host [nextRequest] is on), with the shard's root
    and index, the sector region of the slice, the caller's overdrive flag
    and the download's response channel.  The shard has not been asked for
    before: its index is not filed under a host any more, no request for it
    is queued or executing, no response for it waits on the channel, and
    its entry of the shard matrix is still [nil]. *)
Theorem nextRequest_sound me slice σ fastest od s1 r :
  Z.of_nat (List.length (Shards (slab slice))) < 2 ^ 63 ->
  reachable' me slice σ ->
  nextRequest fastest (sys_slab σ) me od = (s1, Some r) ->
  (exists sec,
     0 <= req_sectorIndex r /\
     Shards (slab slice) !! Z.to_nat (req_sectorIndex r) = Some sec /\
     req_hk r = Host sec /\ req_root r = Root sec) /\
  req_hk r = curr s1 /\
  (req_offset r, req_length r) = SectorRegion slice /\
  req_overdrive r = od /\ req_responseChan r = me /\
  (req_sectorIndex r ∉ remaining s1) /\
  (req_sectorIndex r ∉ own me (queued (sys_mgr σ))) /\
  (req_sectorIndex r ∉ own me (sys_executing σ)) /\
  (req_sectorIndex r ∉ resp_sectorIndex <$> successes (sys_chan σ)) /\
  sectors (sys_slab σ) !! Z.to_nat (req_sectorIndex r) = Some None.
Proof.
  intros Hn Hr Hnext.
  pose proof (reachable_filed me slice σ Hr) as Hfiled.
  destruct (nextRequest_filed _ _ _ _ _ _ _ _ Hfiled Hnext)
    as (_ & sec & H1 & H2 & H3 & H4 & H5 & H6 & H7 & H8).
  pose proof (reachable_inv me slice σ Hn Hr) as Hinv.
  pose proof (nextRequest_spec _ _ _ _ _ _ Hnext) as (_ & _ & _ & _ & _ & Hrem).
  pose proof (inv_nodup Hinv) as Hnd.
  assert (Hin : req_sectorIndex r ∈ outstanding me σ).
  { unfold outstanding. rewrite Hrem. left. }
  unfold outstanding in Hnd. rewrite Hrem in Hnd.
  rewrite <- app_comm_cons in Hnd. apply NoDup_cons in Hnd as [Hnot _].
  rewrite !not_elem_of_app in Hnot.
  destruct Hnot as (Ha & Hb & Hc & Hd).
  split; [exists sec; auto|].
  repeat (split; [assumption|]).
  apply (inv_unfilled Hinv). assumption.
Qed.

(** *** The primary dispatch and the count of available shards *)

Lemma nextRequest_flags fastest s me od s1 r :
  nextRequest fastest s me od = (s1, Some r) ->
  req_overdrive r = od /\ req_responseChan r = me.
Proof.
  unfold nextRequest.
  set (s0 := if decide (List.length (sectorsOf s (curr s)) = 0%nat)
             then _ else s).
  destruct (sectorsOf s0 (curr s0)); intros H; [discriminate|].
  injection H as <- <-. split; reflexivity.
Qed.






(** *** [fillBatch] *)

Lemma set_queue_queue d : set_queue (queue d) d = d.
Proof. destruct d. reflexivity. Qed.

Lemma fillBatch_loop_spec (done : sectorDownloadReq -> bool) (fuel : nat) :
  forall d (batch : list sectorDownloadReq),
    (List.length (queue d) < fuel)%nat ->
    (List.length batch <= 3)%nat ->
    exists pre q',
      queue d = pre ++ q' /\
      fillBatch_loop fuel done d batch
        = Some (set_queue q' d,
                batch ++ filter (fun r => done r = false) pre) /\
      (List.length (batch ++ filter (fun r => done r = false) pre) <= 3)%nat /\
      (q' = [] \/
       List.length (batch ++ filter (fun r => done r = false) pre) = 3%nat) /\
      (pre = [] \/ (List.length batch < 3)%nat).
Proof.
  induction fuel as [|fuel IH]; intros d batch Hfuel Hlen; [lia|].
  simpl. unfold maxConcurrentSectorsPerHost.
  destruct (decide (Z.of_nat (List.length batch) < 3)) as [Hlt|Hge].
  - unfold pop. destruct (queue d) as [|j q] eqn:Hq.
    + exists [], []. rewrite filter_nil, !app_nil_r.
      split; [reflexivity|]. split.
      { replace (set_queue [] d) with d; [reflexivity|].
        rewrite <- Hq. symmetry. apply set_queue_queue. }
      split; [assumption|]. split; [left; reflexivity | left; reflexivity].
    + simpl in Hfuel.
      destruct (done j) eqn:Hj.
      * destruct (IH (set_queue q d) batch) as (pre & q' & H1 & H2 & H3 & H4 & _);
          [simpl; lia | assumption|].
        simpl in H1. exists (j :: pre), q'.
        rewrite filter_cons, decide_False by congruence.
        split; [rewrite H1; reflexivity|].
        split; [exact H2|]. split; [assumption|].
        split; [assumption | right; lia].
      * destruct (IH (set_queue q d) (batch ++ [j]))
          as (pre & q' & H1 & H2 & H3 & H4 & _);
          [simpl; lia | rewrite length_app; simpl; lia|].
        simpl in H1. exists (j :: pre), q'.
        rewrite filter_cons, decide_True by assumption.
        rewrite <- app_assoc in H2, H3, H4. simpl in H2, H3, H4.
        split; [rewrite H1; reflexivity|].
        split; [exact H2|]. split; [assumption|].
        split; [assumption | right; lia].
  - exists [], (queue d). rewrite filter_nil, app_nil_r.
    split; [reflexivity|]. split; [rewrite set_queue_queue; reflexivity|].
    split; [assumption|]. split; [right; lia | left; reflexivity].
Qed.

(** X6.  [fillBatch] always returns (the loop ends by one of its exits).
    It takes a prefix [pre] off the queue and leaves the rest; the batch is
    what [pre] holds of requests whose context is not done, in queue order;
    requests that are done are dropped.  The batch never holds more than
    three requests; when it holds fewer, the queue is empty afterwards. *)
Theorem fillBatch_spec (done : sectorDownloadReq -> bool) d :
  exists pre q',
    queue d = pre ++ q' /\
    fillBatch done d
      = Some (set_queue q' d, filter (fun r => done r = false) pre) /\
    (List.length (filter (fun r => done r = false) pre) <= 3)%nat /\
    (q' = [] \/ List.length (filter (fun r => done r = false) pre) = 3%nat).
Proof.
  destruct (fillBatch_loop_spec done (Datatypes.S (List.length (queue d))) d [])
    as (pre & q' & H1 & H2 & H3 & H4 & _); [lia | simpl; lia|].
  exists pre, q'. simpl in H2, H3, H4. auto.
Qed.

(** *** The overdrive requests under way *)

Lemma launch_overdrive_counter mgr s r mgr' s' :
  launch mgr s (Some r) = (mgr', s', None) ->
  numOverdriving s' =
    if req_overdrive r then wrap64 (numOverdriving s + 1)
    else numOverdriving s.
Proof.
  unfold launch. destruct (mgr_launch mgr r) as [mgr1 [e|]];
    intros [= _ <-]. destruct (req_overdrive r); reflexivity.
Qed.

Lemma receive_overdrive_counter mgr s resp s' flags :
  receive mgr s resp = Ok (s', flags) ->
  numOverdriving s' =
    if resp_overdrive resp then wrap64 (numOverdriving s - 1)
    else numOverdriving s.
Proof.
  unfold receive. destruct (resp_err resp).
  - intros [= <- _]. destruct (resp_overdrive resp); reflexivity.
  - destruct (decide _); [|discriminate].
    intros [= <- _]. destruct (resp_overdrive resp); reflexivity.
Qed.

Lemma execute_overdrive d req outcome delivered d1 sent err :
  execute d req outcome delivered = (d1, sent, err) ->
  forall r, sent = Some r -> resp_overdrive r = req_overdrive req.
Proof.
  unfold execute, succeed, fail.
  destruct outcome; destruct delivered; intros [= _ <- _] r Hr;
    try discriminate; injection Hr as <-; reflexivity.
Qed.

Lemma count_Permutation {A : Type} (P : A -> Prop)
    `{!forall x, Decision (P x)} (l k : list A) :
  l ≡ₚ k -> List.length (filter P l) = List.length (filter P k).
Proof. intros Hp. rewrite Hp. reflexivity. Qed.

Lemma count_submseteq {A : Type} (P : A -> Prop)
    `{!forall x, Decision (P x)} (l k : list A) :
  l ⊆+ k -> (List.length (filter P l) <= List.length (filter P k))%nat.
Proof. intros Hs. apply submseteq_length, filter_submseteq. assumption. Qed.

Lemma count_cons {A : Type} (P : A -> Prop) `{!forall x, Decision (P x)}
    (x : A) (l : list A) :
  List.length (filter P (x :: l))
  = ((if decide (P x) then 1 else 0) + List.length (filter P l))%nat.
Proof. rewrite filter_cons. destruct (decide (P x)); reflexivity. Qed.

Lemma step_overdrive n me σ σ' :
  Z.of_nat n < 2 ^ 64 -> accounts n me σ -> overdrive_accounts me σ ->
  step' me σ σ' -> overdrive_accounts me σ'.
Proof.
  intros Hn [A1 A2 A3 A4] [Hod Hpr] Hstep.
  destruct Hstep as
    [σ fastest od s1 req mgr' s2 err Hnext Hlaunch
    |σ hk d d1 req taken Hd Hpop
    |σ i req hk d outcome delivered d1 sent err Hex Hd Hexec
    |σ i resp s' flags Hch Hrecv
    |σ r mgr' err Hother Hl
    |σ contracts mgr' Href
    |σ mgr' Hstop].
  - (* dispatch *)
    destruct (nextRequest_counters _ _ _ _ _ _ Hnext) as (Hi & Hl & Ho).
    destruct (launch_counters _ _ _ _ _ _ Hlaunch)
      as (_ & [(_ & -> & ->)|(r & -> & -> & Hq & Hi2 & Hl2)]).
    + constructor; unfold pending_kind in *; simpl; rewrite ?Hi, ?Ho;
        assumption.
    + pose proof (launch_overdrive_counter _ _ _ _ _ Hlaunch) as Ho2.
      destruct (nextRequest_flags _ _ _ _ _ _ Hnext) as [Hflag Hme].
      pose proof (nextRequest_spec _ _ _ _ _ _ Hnext)
        as (_ & _ & _ & _ & _ & Hrem).
      apply Permutation_length in Hrem. simpl in Hrem.
      rewrite wrap64_small in Hi2 by (unfold is_uint64; lia).
      unfold pending_kind in *. simpl in *.
      constructor; unfold pending_kind; simpl;
        rewrite (count_Permutation _ _ _ Hq), count_cons, ?Hi2, ?Ho2, ?Hi, ?Ho.
      * destruct (req_overdrive r) eqn:Hr.
        -- rewrite wrap64_small by (unfold is_uint64; lia).
           rewrite decide_True by auto. lia.
        -- rewrite decide_False by (intros [_ ?]; discriminate). lia.
      * destruct (req_overdrive r) eqn:Hr.
        -- rewrite wrap64_small by (unfold is_uint64; lia).
           rewrite decide_False by (intros [_ ?]; discriminate). lia.
        -- rewrite decide_True by auto. lia.
  - (* pop *)
    apply pop_queue in Hpop.
    pose proof (queued_pop _ _ _ _ _ Hd Hpop) as Hq.
    unfold pending_kind in *. simpl in *.
    constructor; unfold pending_kind; simpl; [revert Hod | revert Hpr];
      rewrite (count_Permutation _ _ _ Hq), count_cons;
      (destruct taken;
       [rewrite filter_app, length_app, count_cons, filter_nil|]);
      destruct (decide _); simpl; lia.
  - (* execute *)
    destruct (execute_spec _ _ _ _ _ _ _ Hexec) as [Hq1 _].
    pose proof (execute_overdrive _ _ _ _ _ _ _ Hexec) as Hflag.
    assert (Hq : queue (trackFailure float64_of_int64 Track
                          isBalanceInsufficient isPriceTableExpired
                          isPriceTableNotFound isSectorNotFound d1 err)
                 = queue d) by (rewrite trackFailure_queue; assumption).
    pose proof (queued_same_queue _ _ _ _ Hd Hq) as Hqq.
    pose proof (delete_Permutation _ _ _ Hex) as Hdel.
    unfold pending_kind in *. simpl in *.
    constructor; unfold pending_kind; simpl; [revert Hod | revert Hpr];
      rewrite (count_Permutation _ _ _ Hqq);
      rewrite (count_Permutation _ (sys_executing σ) _ Hdel), count_cons;
      (destruct (decide (req_responseChan req = me)) as [Hme|Hme];
       [|rewrite decide_False by (intros [? _]; contradiction); lia]);
      rewrite filter_app, length_app;
      (destruct sent as [r|]; simpl;
       [rewrite count_cons, filter_nil, (Hflag r eq_refl)|]);
      repeat (destruct (decide _)); simpl; try lia;
      try (exfalso; intuition congruence).
  - (* receive *)
    destruct (receive_counters _ _ _ _ _ Hrecv) as (Hi & Hl).
    pose proof (receive_overdrive_counter _ _ _ _ _ Hrecv) as Ho.
    pose proof (delete_Permutation _ _ _ Hch) as Hdel.
    assert (Hone : (1 <= List.length (sys_chan σ))%nat).
    { apply Permutation_length in Hdel. simpl in Hdel. lia. }
    unfold pending in A4.
    rewrite wrap64_small in Hi by (unfold is_uint64; lia).
    unfold pending_kind in *. simpl in *.
    rewrite (count_Permutation _ (sys_chan σ) _ Hdel), count_cons in Hod.
    rewrite (count_Permutation _ (sys_chan σ) _ Hdel), count_cons in Hpr.
    constructor; unfold pending_kind; simpl; rewrite ?Hi, ?Ho;
      destruct (resp_overdrive resp) eqn:Hr;
      repeat (match goal with
              | H : context [decide ?P] |- _ => destruct (decide P)
              end); try congruence;
      try (rewrite wrap64_small by (unfold is_uint64; lia)); lia.
  - (* another slab download launches *)
    destruct (mgr_launch_queued _ _ _ _ Hl) as [[_ ->]|[_ Hq]];
      [constructor; assumption|].
    unfold pending_kind in *. simpl in *.
    constructor; unfold pending_kind; simpl; rewrite (count_Permutation _ _ _ Hq), count_cons;
      rewrite decide_False by (intros [? _]; contradiction); assumption.
  - (* refresh *)
    pose proof (refreshDownloaders_queued _ _ _ Href) as Hsub.
    unfold pending_kind in *. simpl in *.
    constructor; unfold pending_kind; simpl;
      [pose proof (count_submseteq
                     (fun r => req_responseChan r = me /\ req_overdrive r = true)
                     _ _ Hsub)
      |pose proof (count_submseteq
                     (fun r => req_responseChan r = me /\ req_overdrive r = false)
                     _ _ Hsub)]; lia.
  - (* stop *)
    pose proof (Stop_queued _ _ Hstop) as Hsub.
    unfold pending_kind in *. simpl in *.
    constructor; unfold pending_kind; simpl;
      [pose proof (count_submseteq
                     (fun r => req_responseChan r = me /\ req_overdrive r = true)
                     _ _ Hsub)
      |pose proof (count_submseteq
                     (fun r => req_responseChan r = me /\ req_overdrive r = false)
                     _ _ Hsub)]; lia.
Qed.

Lemma filter_own_none (od : bool) me (l : list sectorDownloadReq) :
  (forall r, r ∈ l -> req_responseChan r ≠ me) ->
  filter (fun r => req_responseChan r = me /\ req_overdrive r = od) l = [].
Proof.
  induction l as [|r l IH]; intros Hall; [reflexivity|].
  rewrite filter_cons, decide_False.
  - apply IH. intros r' Hr'. apply Hall. right. assumption.
  - intros [Hme _]. eapply Hall; [left | exact Hme].
Qed.

Lemma overdrive_new me slice (mgr : downloadManager dataPoints) sID mgr' s
    executing :
  (forall hk d r, downloaders mgr !! hk = Some d -> r ∈ queue d ->
                  req_responseChan r ≠ me) ->
  (forall r, r ∈ executing -> req_responseChan r ≠ me) ->
  newSlabDownload SectorRegion mgr sID slice = (mgr', s) ->
  overdrive_accounts me (mkSystem mgr' s executing [] []).
Proof.
  intros Hq Hex. unfold newSlabDownload.
  destruct (SectorRegion slice) as [offset length]. intros [= <- <-].
  assert (Hnone : forall od,
             pending_kind od me
               (mkSystem (set_ongoing ({[sID]} ∪ ongoing mgr) mgr)
                  {| minShards := MinShards (slab slice);
                     sd_length := length; sd_offset := offset;
                     numCompleted := 0; numInflight := 0;
                     numLaunched := 0; numOverdriving := 0;
                     curr := 0%N;
                     hostToSectors :=
                       buildHostToSectors (Shards (slab slice)) 0 ∅;
                     used := ∅;
                     sectors :=
                       replicate (List.length (Shards (slab slice))) None;
                     errs := [] |} executing [] []) = 0%nat).
  { intros od. unfold pending_kind. simpl.
    rewrite (filter_own_none od me executing Hex).
    rewrite filter_own_none; [reflexivity|].
    intros r Hr. apply elem_of_queued in Hr as (hk & d & Hd & Hr).
    eapply Hq; eassumption. }
  constructor; rewrite Hnone; simpl; lia.
Qed.

(** X19.  The overdrive counter of a slab download, in every state it can
    reach: [numOverdriving] never wraps below zero and never exceeds
    [numInflight]; it is at least the number of overdrive requests of the
    download still queued or executing and of overdrive responses waiting
    on its channel, and the rest of [numInflight] covers the primary
    requests and responses under way. *)
Theorem overdriving_accounting me slice σ :
  Z.of_nat (List.length (Shards (slab slice))) < 2 ^ 63 ->
  reachable' me slice σ ->
  let s := sys_slab σ in
  0 <= numOverdriving s <= numInflight s /\
  Z.of_nat (pending_kind true me σ) <= numOverdriving s /\
  Z.of_nat (pending_kind false me σ) <= numInflight s - numOverdriving s.
Proof.
  intros Hn Hr. cbv zeta.
  assert (Hn' : Z.of_nat (List.length (Shards (slab slice))) < 2 ^ 64) by lia.
  assert (Hod : overdrive_accounts me σ).
  { induction Hr as [mgr sID mgr' s ex Hq Hex Hnew|σ σ' Hr IH Hstep].
    - eapply overdrive_new; eassumption.
    - eapply step_overdrive; [exact Hn'| |exact IH|exact Hstep].
      apply reachable_accounts; assumption. }
  destruct Hod as [H1 H2]. lia.
Qed.

End DownloadFacts.

(** ** The choice of the fastest host *)

Section FastestFacts.

Variables dataPoints float64 : Type.
Variables P90 Average : dataPoints -> float64.
Variable Recompute : dataPoints -> dataPoints.
Variable float64_of_int : Z -> float64.
Variable fmul : float64 -> float64 -> float64.
Variables flt feq : float64 -> float64 -> bool.
Variables float_zero float_one MaxFloat64 : float64.
Variable statsRecomputeMinInterval : Z.

(** [<] on the estimates at hand is a strict order. *)
Hypothesis flt_irrefl : forall x, flt x x = false.
Hypothesis flt_trans :
  forall x y z, flt x y = true -> flt y z = true -> flt x z = true.

Local Abbreviation estimate' :=
  (estimate dataPoints float64 P90 Average float64_of_int fmul flt feq float_zero float_one).
Local Abbreviation fastest_step' :=
  (fastest_step dataPoints float64 P90 Average float64_of_int fmul flt feq float_zero float_one).

(** What the loop of [fastest] holds after the hosts [pre]. *)
Local Abbreviation chosen mgr pre acc :=
  ((acc = (MaxFloat64, 0%N) /\
    forall h d, h ∈ pre -> downloaders mgr !! h = Some d ->
      flt (estimate' d) MaxFloat64 = false) \/
   (exists d, acc.2 ∈ pre /\ downloaders mgr !! acc.2 = Some d /\
      acc.1 = estimate' d /\ flt (estimate' d) MaxFloat64 = true /\
      forall h' d', h' ∈ pre -> downloaders mgr !! h' = Some d' ->
        flt (estimate' d') (estimate' d) = false)).

Lemma fastest_loop (mgr : downloadManager dataPoints) (hosts : list PublicKey) :
  forall pre acc,
    chosen mgr pre acc ->
    chosen mgr (pre ++ hosts) (foldl (fastest_step' mgr) acc hosts).
Proof.
  induction hosts as [|h hosts IH]; intros pre [lo hh] Hacc.
  - simpl. rewrite app_nil_r. exact Hacc.
  - simpl foldl. replace (pre ++ h :: hosts) with ((pre ++ [h]) ++ hosts)
      by (rewrite <- app_assoc; reflexivity).
    apply IH. unfold fastest_step. simpl in Hacc |- *.
    assert (Hpre : forall (P : PublicKey -> Prop),
               (forall h', h' ∈ pre -> P h') -> P h ->
               forall h', h' ∈ pre ++ [h] -> P h').
    { intros P Hp Hh h' Hin. apply elem_of_app in Hin as [Hin|Hin];
        [apply Hp; assumption|].
      apply list_elem_of_singleton in Hin as ->. assumption. }
    destruct (downloaders mgr !! h) as [d|] eqn:Hd.
    + destruct (flt _ lo) eqn:Hlt; simpl.
      * right. exists d.
        split; [apply elem_of_app; right; left|].
        split; [assumption|]. split; [reflexivity|].
        assert (Hmax : flt (estimate' d) MaxFloat64 = true).
        { destruct Hacc as [[[= -> ->] _]|(d0 & _ & _ & Hlo & Hmax & _)];
            [assumption|].
          rewrite Hlo in Hlt. eapply flt_trans; eassumption. }
        split; [assumption|].
        intros h0 d0' Hh0 Hd0'. revert d0' Hd0'.
        apply (Hpre (fun h' => forall d', downloaders mgr !! h' = Some d' ->
                                flt (estimate' d') (estimate' d) = false));
          [| |assumption].
        -- intros h' Hh' d' Hd'.
           destruct (flt (estimate' d') (estimate' d)) eqn:Hc; [|reflexivity].
           pose proof (flt_trans _ _ _ Hc Hlt) as Hbeat.
           destruct Hacc as [[[= -> ->] Hall]|(d0 & _ & _ & Hlo & _ & Hmin)].
           ++ rewrite (Hall h' d' Hh' Hd') in Hbeat. discriminate.
           ++ rewrite Hlo, (Hmin h' d' Hh' Hd') in Hbeat. discriminate.
        -- intros d' Hd'. assert (d' = d) as -> by congruence.
           apply flt_irrefl.
      * destruct Hacc as [[[= -> ->] Hall]|(d0 & Hin & Hd0 & Hlo & Hmax & Hmin)].
        -- left. split; [reflexivity|].
           intros h' d' Hh' Hd'. revert d' Hd'.
           apply (Hpre (fun h' => forall d', downloaders mgr !! h' = Some d' ->
                                   flt (estimate' d') MaxFloat64 = false));
             [intros; eapply Hall; eassumption| |assumption].
           intros d' Hd'. assert (d' = d) as -> by congruence. exact Hlt.
        -- right. exists d0.
           split; [apply elem_of_app; left; assumption|].
           split; [assumption|]. split; [assumption|].
           split; [assumption|].
           intros h' d' Hh' Hd'. revert d' Hd'.
           apply (Hpre (fun h' => forall d', downloaders mgr !! h' = Some d' ->
                                   flt (estimate' d') (estimate' d0) = false));
             [intros; eapply Hmin; eassumption| |assumption].
           intros d' Hd'. assert (d' = d) as -> by congruence.
           rewrite <- Hlo. exact Hlt.
    + destruct Hacc as [[[= -> ->] Hall]|(d0 & Hin & Hd0 & Hlo & Hmax & Hmin)].
      * left. split; [reflexivity|].
        intros h' d' Hh' Hd'. revert d' Hd'.
        apply (Hpre (fun h' => forall d', downloaders mgr !! h' = Some d' ->
                                flt (estimate' d') MaxFloat64 = false));
          [intros; eapply Hall; eassumption| |assumption].
        intros d' Hd'. congruence.
      * right. exists d0.
        split; [apply elem_of_app; left; assumption|].
        split; [assumption|]. split; [assumption|]. split; [assumption|].
        intros h' d' Hh' Hd'. revert d' Hd'.
        apply (Hpre (fun h' => forall d', downloaders mgr !! h' = Some d' ->
                                flt (estimate' d') (estimate' d0) = false));
          [intros; eapply Hmin; eassumption| |assumption].
        intros d' Hd'. congruence.
Qed.

(** X18.  [fastest] recomputes the statistics when the last recompute is
    [statsRecomputeMinInterval] or more ago and leaves them otherwise; the
    queues, the stop signals and the set of downloaders are as they were.
    It then returns a host of the list that has a downloader, whose
    estimate is below [MaxFloat64] and is not beaten by the estimate of any
    host of the list that has a downloader; when no host of the list has a
    downloader with an estimate below [MaxFloat64] it returns the zero
    key. *)
Theorem fastest_spec (mgr : downloadManager dataPoints) (lastRecompute now : Z)
    (hosts : list PublicKey) :
  let '(mgr1, last1, h) :=
    fastest dataPoints float64 P90 Average Recompute float64_of_int fmul flt feq float_zero
      float_one MaxFloat64 statsRecomputeMinInterval mgr lastRecompute now
      hosts in
  (if now - lastRecompute <? statsRecomputeMinInterval
   then mgr1 = mgr /\ last1 = lastRecompute
   else last1 = now /\
        forall hk, downloaders mgr1 !! hk
                   = recompute dataPoints Recompute <$> downloaders mgr !! hk) /\
  (forall hk, @queue dataPoints <$> downloaders mgr1 !! hk
              = @queue dataPoints <$> downloaders mgr !! hk) /\
  ((h = 0%N /\
    forall h' d', h' ∈ hosts -> downloaders mgr1 !! h' = Some d' ->
      flt (estimate' d') MaxFloat64 = false) \/
   (exists d, h ∈ hosts /\ downloaders mgr1 !! h = Some d /\
      flt (estimate' d) MaxFloat64 = true /\
      forall h' d', h' ∈ hosts -> downloaders mgr1 !! h' = Some d' ->
        flt (estimate' d') (estimate' d) = false)).
Proof.
  unfold fastest, tryRecomputeStats.
  destruct (now - lastRecompute <? statsRecomputeMinInterval).
  - split; [split; reflexivity|]. split; [reflexivity|].
    pose proof (fastest_loop mgr hosts [] (MaxFloat64, 0%N)) as Hl.
    simpl in Hl.
    destruct Hl as [[Heq Hall]|(d & Hin & Hd & _ & Hmax & Hmin)].
    + left. split; [reflexivity|].
      intros h d Hh _. inversion Hh.
    + left. split; [rewrite Heq; reflexivity | exact Hall].
    + right. exists d. auto.
  - split; [split; [reflexivity|]; intros hk; simpl; apply lookup_fmap|].
    split.
    { intros hk. simpl. rewrite lookup_fmap.
      destruct (downloaders mgr !! hk); reflexivity. }
    pose proof (fastest_loop
                  (set_downloaders (recompute dataPoints Recompute <$> downloaders mgr)
                     mgr) hosts [] (MaxFloat64, 0%N)) as Hl.
    simpl in Hl.
    destruct Hl as [[Heq Hall]|(d & Hin & Hd & _ & Hmax & Hmin)].
    + left. split; [reflexivity|].
      intros h d Hh _. inversion Hh.
    + left. split; [rewrite Heq; reflexivity | exact Hall].
    + right. exists d. auto.
Qed.

End FastestFacts.

(** ** The collector of [DownloadObject] *)

Section CollectorFacts.

Variable Decrypt :
  SlabSlice -> list (option (list byte)) -> list (option (list byte)).
Variable Recover : SlabSlice -> list (option (list byte)) -> option error.
Variable slabs : list SlabSlice.
Hypothesis slabs_int : Z.of_nat (List.length slabs) < 2 ^ 63.

Local Abbreviation n := (Z.of_nat (List.length slabs)).

(** Where an error that ends the loop comes from. *)
Local Abbreviation error_from seen err :=
  ((exists r, r ∈ seen /\ sdr_err r = Some err) \/
   (exists r ss, r ∈ seen /\ sdr_err r = None /\
      slabs !! Z.to_nat (sdr_index r) = Some ss /\
      Recover ss (Decrypt ss (sdr_shards r)) = Some err)).

Lemma in_order_mono seen seen' c :
  in_order Decrypt slabs seen c -> seen ⊆ seen' ->
  in_order Decrypt slabs seen' c.
Proof.
  intros [H1 H2 H3] Hsub. constructor; try assumption.
  intros i sh Hin. destruct (H3 i sh Hin) as (resp & ss & Hr & Hrest).
  exists resp, ss. split; [apply Hsub; assumption | assumption].
Qed.

Lemma seqZ_snoc (i : Z) : 0 <= i -> seqZ 0 (i + 1) = seqZ 0 i ++ [i].
Proof.
  intros Hi. rewrite seqZ_app by lia. f_equal.
  all: try (rewrite seqZ_cons by lia; rewrite seqZ_nil by lia; f_equal; lia).
Qed.

Lemma flush_spec (fuel : nat) :
  forall seen c,
    (size (responses c) < fuel)%nat ->
    collecting Decrypt slabs seen c ->
    match flush Decrypt Recover fuel slabs c with
    | None => False
    | Some (Panic _) => exists r, r ∈ seen /\ sdr_index r = n
    | Some (Ok (c', e)) =>
        collecting Decrypt slabs seen c' /\
        match e with
        | None => responses c' !! respIndex c' = None
        | Some err => error_from seen err
        end
    end.
Proof.
  induction fuel as [|fuel IH]; intros seen c Hfuel Hc; [lia|].
  simpl. destruct (responses c !! respIndex c) as [next|] eqn:Hnext;
    [|split; assumption].
  destruct Hc as [[Hidx Hord Hfrom] Hbuf Hseen].
  destruct (Hbuf _ _ Hnext) as (Hin & Hi & He).
  destruct (decide (0 <= respIndex c < n)) as [Hlt|Hge].
  2:{ exists next. split; [assumption | lia]. }
  destruct (lookup_lt_is_Some_2 slabs (Z.to_nat (respIndex c))) as [ss Hss];
    [lia|].
  rewrite Hss.
  destruct (Recover ss (Decrypt ss (sdr_shards next))) as [err|] eqn:Hrec.
  { split; [constructor; [constructor|..]; assumption|].
    right. exists next, ss. rewrite Hi. auto. }
  assert (Hint : to_int (respIndex c + 1) = respIndex c + 1).
  { unfold to_int. rewrite Z.mod_small; lia. }
  apply IH.
  - simpl.
    assert (Hsz : size (responses c)
                  = Datatypes.S (size (delete (respIndex c) (responses c)))).
    { rewrite <- (insert_delete_id (responses c) (respIndex c) next Hnext)
        at 1.
      apply map_size_insert_None, lookup_delete_eq. }
    lia.
  - constructor; [constructor|..]; simpl; rewrite ?Hint.
    + lia.
    + rewrite fmap_app, Hord. simpl. symmetry. apply seqZ_snoc. lia.
    + intros i sh Hel. apply elem_of_app in Hel as [Hel|Hel];
        [apply Hfrom; assumption|].
      apply list_elem_of_singleton in Hel. injection Hel as -> ->.
      exists next, ss. auto.
    + intros i resp Hl. apply lookup_delete_Some in Hl as [_ Hl].
      apply Hbuf. assumption.
    + intros resp Hr. destruct (Hseen resp Hr) as [Hl|Hs]; [left; lia|].
      destruct (decide (sdr_index resp = respIndex c)) as [->|Hne];
        [left; lia|].
      right. rewrite lookup_delete_ne by congruence. assumption.
Qed.

Lemma collect_spec seen c resp :
  collecting Decrypt slabs seen c ->
  match collect Decrypt Recover slabs c resp with
  | None => False
  | Some (Panic _) => exists r, r ∈ seen ++ [resp] /\ sdr_index r = n
  | Some (Ok (Collecting c')) =>
      collecting Decrypt slabs (seen ++ [resp]) c' /\
      responses c' !! respIndex c' = None /\ respIndex c' ≠ n
  | Some (Ok (Done e c')) =>
      in_order Decrypt slabs (seen ++ [resp]) c' /\
      match e with
      | None => respIndex c' = n
      | Some err => error_from (seen ++ [resp]) err
      end
  end.
Proof.
  intros Hc. unfold collect.
  destruct (sdr_err resp) as [e|] eqn:He.
  { split.
    - eapply in_order_mono; [apply Hc|]. intros x Hx. apply elem_of_app. auto.
    - left. exists resp. split; [|assumption].
      apply elem_of_app. right. left. }
  set (c1 := {| responses := <[sdr_index resp := resp]> (responses c);
                respIndex := respIndex c; recovered := recovered c |}).
  assert (Hc1 : collecting Decrypt slabs (seen ++ [resp]) c1).
  { destruct Hc as [Hord Hbuf Hseen]. constructor; simpl.
    - eapply in_order_mono; [constructor; apply Hord|].
      intros x Hx. apply elem_of_app. auto.
    - intros i r Hl. apply lookup_insert_Some in Hl as [[<- <-]|[_ Hl]].
      + split; [apply elem_of_app; right; left | auto].
      + destruct (Hbuf _ _ Hl) as (H1 & H2). split; [|assumption].
        apply elem_of_app. auto.
    - intros r Hr. apply elem_of_app in Hr as [Hr|Hr].
      + destruct (Hseen r Hr) as [Hl|Hs]; [left; assumption|].
        right. apply lookup_insert_is_Some'. auto.
      + apply list_elem_of_singleton in Hr as ->.
        right. apply lookup_insert_is_Some'. auto. }
  pose proof (flush_spec (Datatypes.S (size (responses c1))) _ c1
                (Nat.lt_succ_diag_r _) Hc1) as Hf.
  destruct (flush Decrypt Recover _ slabs c1) as [[[c2 [err|]]|p]|];
    [| |exact Hf|exact Hf].
  - destruct Hf as [Hc2 Herr]. split; [apply Hc2 | exact Herr].
  - destruct Hf as [Hc2 Hnone].
    destruct (decide (respIndex c2 = n)) as [Heq|Hne].
    + split; [apply Hc2 | exact Heq].
    + split; [exact Hc2|]. split; assumption.
Qed.

Lemma collect_all_spec (rs : list slabDownloadResponse) :
  forall seen c,
    collecting Decrypt slabs seen c ->
    responses c !! respIndex c = None -> respIndex c ≠ n ->
    match collect_all Decrypt Recover slabs c rs with
    | None => False
    | Some (Panic _) => exists r, r ∈ seen ++ rs /\ sdr_index r = n
    | Some (Ok (Collecting c')) =>
        collecting Decrypt slabs (seen ++ rs) c' /\
        responses c' !! respIndex c' = None /\ respIndex c' ≠ n
    | Some (Ok (Done e c')) =>
        in_order Decrypt slabs (seen ++ rs) c' /\
        match e with
        | None => respIndex c' = n
        | Some err => error_from (seen ++ rs) err
        end
    end.
Proof.
  induction rs as [|resp rs IH]; intros seen c Hc Hnone Hne.
  - simpl. rewrite app_nil_r. auto.
  - simpl. pose proof (collect_spec seen c resp Hc) as Hs.
    assert (Hsub : seen ++ [resp] ⊆ seen ++ resp :: rs).
    { intros x Hx. rewrite elem_of_app in Hx. rewrite elem_of_app.
      destruct Hx as [Hx|Hx]; [auto|].
      apply list_elem_of_singleton in Hx as ->. right. left. }
    destruct (collect Decrypt Recover slabs c resp) as [[[c'|e c']|p]|];
      [| | |exact Hs].
    + destruct Hs as (Hc' & Hn' & Hne').
      specialize (IH (seen ++ [resp]) c' Hc' Hn' Hne').
      rewrite <- app_assoc in IH. exact IH.
    + destruct Hs as [Hord He]. split; [eapply in_order_mono; eassumption|].
      destruct e as [err|]; [|assumption].
      destruct He as [(r & Hr & He)|(r & ss & Hr & He)].
      * left. exists r. split; [apply Hsub; assumption | assumption].
      * right. exists r, ss. split; [apply Hsub; assumption | assumption].
    + destruct Hs as (r & Hr & Hi). exists r.
      split; [apply Hsub; assumption | assumption].
Qed.

Lemma newCollector_collecting :
  collecting Decrypt slabs [] newCollector.
Proof.
  constructor; [constructor|..]; simpl.
  - lia.
  - reflexivity.
  - intros i sh Hin. inversion Hin.
  - intros i resp Hl. rewrite lookup_empty in Hl. discriminate.
  - intros resp Hin. inversion Hin.
Qed.

(** X7.  The collector of [DownloadObject], fed the slab responses in any
    order (any indices, errors or not), never runs its inner loop dry and
    recovers the slabs in the order of the object: what it has written is
    the slabs [0 .. respIndex - 1], one after the other and each once, each
    from a response received with that index.  While it goes on
    [respIndex < len(slabs)]; it returns [nil] exactly when
    [respIndex = len(slabs)]; an error it returns is the error of a response
    or of [Recover]; it panics only if a response carried the index
    [len(slabs)]. *)
Theorem collect_all_in_order (rs : list slabDownloadResponse) :
  0 < n ->
  exists out,
    collect_all Decrypt Recover slabs newCollector rs = Some out /\
    match out with
    | Ok (Collecting c) =>
        in_order Decrypt slabs rs c /\ respIndex c < n
    | Ok (Done None c) =>
        in_order Decrypt slabs rs c /\ respIndex c = n
    | Ok (Done (Some err) c) =>
        in_order Decrypt slabs rs c /\ error_from rs err
    | Panic _ => exists r, r ∈ rs /\ sdr_index r = n
    end.
Proof.
  intros Hn.
  pose proof (collect_all_spec rs [] newCollector newCollector_collecting)
    as Hs.
  simpl in Hs.
  specialize (Hs (lookup_empty _) ltac:(lia)).
  destruct (collect_all Decrypt Recover slabs newCollector rs)
    as [[[c|[err|] c]|p]|]; [| | | |contradiction];
    eexists; (split; [reflexivity|]).
  - destruct Hs as (Hc & _ & Hne). split; [apply Hc|].
    destruct Hc as [[Hi _ _] _ _]. lia.
  - exact Hs.
  - exact Hs.
  - exact Hs.
Qed.

(** X8.  When every slab is answered once, without error and in whatever
    order, and [Recover] succeeds on each, the collector returns [nil]
    having written all the slabs, in the order of the object. *)
Theorem collect_all_complete (rs : list slabDownloadResponse) :
  0 < n ->
  Forall (fun r => sdr_err r = None) rs ->
  sdr_index <$> rs ≡ₚ seqZ 0 n ->
  (forall r ss, r ∈ rs -> slabs !! Z.to_nat (sdr_index r) = Some ss ->
     Recover ss (Decrypt ss (sdr_shards r)) = None) ->
  exists c,
    collect_all Decrypt Recover slabs newCollector rs = Some (Ok (Done None c)) /\
    (recovered c).*1 = seqZ 0 n /\
    (forall i sh, (i, sh) ∈ recovered c ->
       exists r ss, r ∈ rs /\ sdr_index r = i /\
         slabs !! Z.to_nat i = Some ss /\ sh = Decrypt ss (sdr_shards r)).
Proof.
  intros Hn Hok Hperm Hrec.
  pose proof (collect_all_spec rs [] newCollector newCollector_collecting)
    as Hs.
  simpl in Hs.
  specialize (Hs (lookup_empty _) ltac:(lia)).
  assert (Hidx : forall r, r ∈ rs -> 0 <= sdr_index r < n).
  { intros r Hr.
    assert (Hin : sdr_index r ∈ sdr_index <$> rs)
      by (apply list_elem_of_fmap; eauto).
    rewrite Hperm in Hin. apply elem_of_seqZ in Hin. lia. }
  destruct (collect_all Decrypt Recover slabs newCollector rs)
    as [[[c|[err|] c]|p]|]; [| | | |contradiction].
  - exfalso. destruct Hs as (Hc & Hnone & Hne).
    destruct Hc as [[Hi _ _] _ Hseen].
    assert (Hin : respIndex c ∈ sdr_index <$> rs).
    { rewrite Hperm. apply elem_of_seqZ. lia. }
    apply list_elem_of_fmap in Hin as (r & Heq & Hr).
    destruct (Hseen r Hr) as [Hl|Hsome]; [lia|].
    rewrite <- Heq, Hnone in Hsome. destruct Hsome; discriminate.
  - exfalso. destruct Hs as [_ [(r & Hr & He)|(r & ss & Hr & _ & Hss & He)]].
    + rewrite Forall_forall in Hok. rewrite (Hok r Hr) in He. discriminate.
    + rewrite (Hrec r ss Hr Hss) in He. discriminate.
  - destruct Hs as [[Hi Hord Hfrom] Heq]. exists c.
    split; [reflexivity|]. split; [rewrite Hord, Heq; reflexivity|].
    intros i sh Hin. destruct (Hfrom i sh Hin) as (r & ss & H1 & H2 & _ & H3).
    exists r, ss. auto.
  - exfalso. destruct Hs as (r & Hr & Hi). specialize (Hidx r Hr). lia.
Qed.

End CollectorFacts.

(** ** The properties at the sample instances *)

Lemma sample_system4_reachable :
  reachable (fun z => z) sample_newDataPoints sample_Track 0
    (sample_is "balance insufficient") (sample_is "price table expired")
    (sample_is "price table not found") (sample_is "sector not found")
    sample_SectorRegion 5 sample_slice sample_system4.
Proof.
  apply reachable_step with (σ := sample_system3).
  apply reachable_step with (σ := sample_system2).
  apply reachable_step with (σ := sample_system1).
  apply reachable_step with (σ := sample_system0).
  - apply (@reachable_new _ _ _ _ _ _ _ _ _ _ _ 5 sample_slice sample_manager 3%N
             (sys_mgr sample_system0) (sys_slab sample_system0) []).
    + intros hk d r Hd Hr. unfold sample_manager in Hd. simpl in Hd.
      apply lookup_singleton_Some in Hd as [_ <-]. inversion Hr.
    + intros r Hr. inversion Hr.
    + reflexivity.
  - apply (@step_dispatch _ _ _ _ _ _ _ _ _ _ 5 sample_system0 first_host false
             (nextRequest first_host (sys_slab sample_system0) 5 false).1
             (nextRequest first_host (sys_slab sample_system0) 5 false).2
             (sys_mgr sample_system1) (sys_slab sample_system1) None);
      vm_compute; reflexivity.
  - apply (@step_pop _ _ _ _ _ _ _ _ _ _ 5 sample_system1 7%N
             (set_signalWorkChan true
                (set_queue [sample_request] sample_downloader))
             (set_signalWorkChan true sample_downloader)
             sample_request true); vm_compute; reflexivity.
  - apply (@step_execute _ _ _ _ _ _ _ _ _ _ 5 sample_system2 0%nat sample_request
             7%N (set_signalWorkChan true sample_downloader)
             (inr sample_sector) true
             (set_numDownloads 1 (set_signalWorkChan true sample_downloader))
             (Some sample_response) None); vm_compute; reflexivity.
  - apply (@step_receive _ _ _ _ _ _ _ _ _ _ 5 sample_system3 0%nat sample_response
             (sys_slab sample_system4) (true, true)); vm_compute; reflexivity.
Defined.

Lemma finish_spec_witness :
  Z.of_nat (List.length (Shards (slab sample_slice))) < 2 ^ 63 /\
  reachable (fun z => z) sample_newDataPoints sample_Track 0
    (sample_is "balance insufficient") (sample_is "price table expired")
    (sample_is "price table not found") (sample_is "sector not found")
    sample_SectorRegion 5 sample_slice sample_system4 /\
  finish (sys_mgr sample_system4) (sys_slab sample_system4)
    = inl [Some sample_sector] /\
  minShards (sys_slab sample_system4) <= numCompleted (sys_slab sample_system4)
  /\
  Z.of_nat (filled [Some sample_sector])
    = numCompleted (sys_slab sample_system4) /\
  filled [Some sample_sector]
    = List.length (successes (sys_received sample_system4)).
Proof.
  assert (H1 : Z.of_nat (List.length (Shards (slab sample_slice))) < 2 ^ 63)
    by (vm_compute; reflexivity).
  pose proof (finish_spec _ _ (fun z => z) sample_newDataPoints sample_Track 0
                (sample_is "balance insufficient")
                (sample_is "price table expired")
                (sample_is "price table not found")
                (sample_is "sector not found")
                sample_SectorRegion 5 sample_slice sample_system4 H1
                sample_system4_reachable) as H.
  cbv zeta in H.
  assert (Hf : finish (sys_mgr sample_system4) (sys_slab sample_system4)
               = inl [Some sample_sector]) by (vm_compute; reflexivity).
  rewrite Hf in H.
  destruct H as (Ha & _ & Hb & Hc & _).
  split; [exact H1|]. split; [exact sample_system4_reachable|].
  split; [exact Hf|]. split; [exact Ha|]. split; [exact Hb | exact Hc].
Defined.

Lemma receive_spec_witness :
  (resp_err sample_response = None /\
   0 <= resp_sectorIndex sample_response
     < Z.of_nat (List.length (sectors (sys_slab sample_system3)))) /\
  exists s',
    receive sample_manager (sys_slab sample_system3) sample_response
      = Ok (s', (minShards (sys_slab sample_system3) <=? numCompleted s',
                 minShards (sys_slab sample_system3)
                   <=? to_int (numCompleted s'
                               + to_int (maxOverdrive sample_manager)))) /\
    numCompleted s' = to_int (numCompleted (sys_slab sample_system3) + 1) /\
    sectors s' !! Z.to_nat (resp_sectorIndex sample_response)
      = Some (resp_sector sample_response).
Proof.
  assert (H1 : resp_err sample_response = None) by (vm_compute; reflexivity).
  assert (H2 : 0 <= resp_sectorIndex sample_response
               < Z.of_nat (List.length (sectors (sys_slab sample_system3))))
    by (vm_compute; split; [discriminate | reflexivity]).
  split; [exact (conj H1 H2)|].
  destruct (receive_spec _ sample_manager (sys_slab sample_system3)
              sample_response) as (_ & _ & _ & _ & _ & H & _).
  destruct (H H1 H2) as (s' & Hr & _ & _ & Hc & _ & Hl & _).
  exists s'. rewrite Hc. split; [exact Hr|]. split; [reflexivity | exact Hl].
Defined.

Lemma Stop_once_witness :
  (stopChan sample_manager = false /\
   all_open (downloaders sample_manager)) /\
  exists mgr',
    Stop sample_manager = Ok mgr' /\ stopChan mgr' = true /\
    all_closed (downloaders mgr') /\
    ongoing mgr' = ongoing sample_manager /\
    Stop mgr' = Panic PanicCloseOfClosed /\
    Stop_in_place mgr' = mgr'.
Proof.
  assert (H1 : stopChan sample_manager = false) by (vm_compute; reflexivity).
  assert (H2 : all_open (downloaders sample_manager)).
  { intros hk d Hd. unfold sample_manager in Hd. simpl in Hd.
    apply lookup_singleton_Some in Hd as [_ <-]. vm_compute. reflexivity. }
  split; [exact (conj H1 H2)|].
  destruct (Stop_once _ sample_manager H1 H2)
    as (mgr' & Ha & _ & Hb & Hc & _ & (_ & _ & _ & _ & Ho) & Hd & He).
  exists mgr'. split; [exact Ha|]. split; [exact Hb|].
  split; [exact Hc|]. split; [exact Ho|]. split; [exact Hd | exact He].
Defined.

(** C9, as stated, fails: the second [Stop] does fail, it panics on
    closing the closed stop channel. *)
Lemma Stop_twice_panics :
  Stop sample_manager = Ok sample_manager_stopped /\
  Stop sample_manager_stopped = Panic PanicCloseOfClosed.
Proof. split; vm_compute; reflexivity. Qed.

Lemma refreshDownloaders_spec_witness :
  refreshDownloaders sample_newDataPoints 0
    (newDownloadManager sample_newDataPoints 1 0) example_contracts
    = Ok sample_manager /\
  (forall hk, is_Some (downloaders sample_manager !! hk)
              <-> hk ∈ HostKey <$> example_contracts).
Proof.
  assert (H : refreshDownloaders sample_newDataPoints 0
                (newDownloadManager sample_newDataPoints 1 0) example_contracts
              = Ok sample_manager) by (vm_compute; reflexivity).
  split; [exact H|].
  exact (proj1 (refreshDownloaders_spec _ sample_newDataPoints 0 _ _ _ H)).
Defined.

Lemma refreshDownloaders_idempotent_witness :
  refreshDownloaders sample_newDataPoints 0
    (newDownloadManager sample_newDataPoints 1 0) example_contracts
    = Ok sample_manager /\
  refreshDownloaders sample_newDataPoints 0 sample_manager example_contracts
    = Ok sample_manager.
Proof.
  assert (H : refreshDownloaders sample_newDataPoints 0
                (newDownloadManager sample_newDataPoints 1 0) example_contracts
              = Ok sample_manager) by (vm_compute; reflexivity).
  split; [exact H|].
  exact (refreshDownloaders_idempotent _ sample_newDataPoints 0 _ _ _ H).
Defined.

Lemma refreshDownloaders_after_Stop_witness :
  (Stop sample_manager = Ok sample_manager_stopped /\
   exists hk, is_Some (downloaders sample_manager !! hk) /\
              hk ∉ HostKey <$> @nil ContractMetadata) /\
  refreshDownloaders sample_newDataPoints 0 sample_manager_stopped []
    = Panic PanicCloseOfClosed.
Proof.
  assert (H1 : Stop sample_manager = Ok sample_manager_stopped)
    by (vm_compute; reflexivity).
  assert (H2 : exists hk, is_Some (downloaders sample_manager !! hk) /\
                          hk ∉ HostKey <$> @nil ContractMetadata).
  { exists 7%N. split; [eexists; vm_compute; reflexivity|].
    apply not_elem_of_nil. }
  split; [exact (conj H1 H2)|].
  exact (proj1 (refreshDownloaders_after_Stop _ sample_newDataPoints 0 _ _ []
                  H1) H2).
Defined.

Lemma sample_system0_reachable :
  reachable (fun z => z) sample_newDataPoints sample_Track 0
    (sample_is "balance insufficient") (sample_is "price table expired")
    (sample_is "price table not found") (sample_is "sector not found")
    sample_SectorRegion 5 sample_slice sample_system0.
Proof.
  apply (@reachable_new _ _ _ _ _ _ _ _ _ _ _ 5 sample_slice sample_manager 3%N
           (sys_mgr sample_system0) (sys_slab sample_system0) []).
  - intros hk d r Hd Hr. unfold sample_manager in Hd. simpl in Hd.
    apply lookup_singleton_Some in Hd as [_ <-]. inversion Hr.
  - intros r Hr. inversion Hr.
  - reflexivity.
Defined.

Lemma inflight_accounting_witness :
  (Z.of_nat (List.length (Shards (slab sample_slice))) < 2 ^ 63 /\
   reachable (fun z => z) sample_newDataPoints sample_Track 0
     (sample_is "balance insufficient") (sample_is "price table expired")
     (sample_is "price table not found") (sample_is "sector not found")
     sample_SectorRegion 5 sample_slice sample_system4) /\
  numInflight (sys_slab sample_system4)
    = numLaunched (sys_slab sample_system4)
      - (numCompleted (sys_slab sample_system4)
         + Z.of_nat (List.length (errs (sys_slab sample_system4)))).
Proof.
  assert (H1 : Z.of_nat (List.length (Shards (slab sample_slice))) < 2 ^ 63)
    by (vm_compute; reflexivity).
  split; [exact (conj H1 sample_system4_reachable)|].
  exact (proj1 (inflight_accounting _ _ (fun z => z) sample_newDataPoints
                  sample_Track 0
                  (sample_is "balance insufficient")
                  (sample_is "price table expired")
                  (sample_is "price table not found")
                  (sample_is "sector not found")
                  sample_SectorRegion 5 sample_slice sample_system4 H1
                  sample_system4_reachable)).
Defined.

Lemma nextRequest_sound_witness :
  (Z.of_nat (List.length (Shards (slab sample_slice))) < 2 ^ 63 /\
   reachable (fun z => z) sample_newDataPoints sample_Track 0
     (sample_is "balance insufficient") (sample_is "price table expired")
     (sample_is "price table not found") (sample_is "sector not found")
     sample_SectorRegion 5 sample_slice sample_system0 /\
   nextRequest first_host (sys_slab sample_system0) 5 false
     = ((nextRequest first_host (sys_slab sample_system0) 5 false).1,
        Some sample_request)) /\
  exists sec,
    0 <= req_sectorIndex sample_request /\
    Shards (slab sample_slice) !! Z.to_nat (req_sectorIndex sample_request)
      = Some sec /\
    req_hk sample_request = Host sec /\ req_root sample_request = Root sec.
Proof.
  assert (H1 : Z.of_nat (List.length (Shards (slab sample_slice))) < 2 ^ 63)
    by (vm_compute; reflexivity).
  assert (H2 : nextRequest first_host (sys_slab sample_system0) 5 false
               = ((nextRequest first_host (sys_slab sample_system0) 5 false).1,
                  Some sample_request)) by (vm_compute; reflexivity).
  split; [exact (conj H1 (conj sample_system0_reachable H2))|].
  exact (proj1 (nextRequest_sound _ _ (fun z => z) sample_newDataPoints
                  sample_Track 0
                  (sample_is "balance insufficient")
                  (sample_is "price table expired")
                  (sample_is "price table not found")
                  (sample_is "sector not found")
                  sample_SectorRegion 5 sample_slice sample_system0
                  first_host false _ sample_request H1
                  sample_system0_reachable H2)).
Defined.



Lemma fastest_spec_witness :
  ((forall x, Z.ltb x x = false) /\
   (forall x y z, Z.ltb x y = true -> Z.ltb y z = true -> Z.ltb x z = true)) /\
  let '(mgr1, last1, h) :=
    fastest (list Z) Z sample_P90 sample_P90 (fun d => d) (fun z => z) Z.mul
      Z.ltb Z.eqb 0 1 sample_MaxFloat64 3 sample_manager 0 10 [7%N] in
  (if 10 - 0 <? 3
   then mgr1 = sample_manager /\ last1 = 0
   else last1 = 10 /\
        forall hk, downloaders mgr1 !! hk
                   = recompute (list Z) (fun d => d)
                       <$> downloaders sample_manager !! hk) /\
  (forall hk, @queue (list Z) <$> downloaders mgr1 !! hk
              = @queue (list Z) <$> downloaders sample_manager !! hk) /\
  ((h = 0%N /\
    forall h' d', h' ∈ [7%N] -> downloaders mgr1 !! h' = Some d' ->
      Z.ltb (estimate (list Z) Z sample_P90 sample_P90 (fun z => z) Z.mul
               Z.ltb Z.eqb 0 1 d') sample_MaxFloat64 = false) \/
   (exists d, h ∈ [7%N] /\ downloaders mgr1 !! h = Some d /\
      Z.ltb (estimate (list Z) Z sample_P90 sample_P90 (fun z => z) Z.mul
               Z.ltb Z.eqb 0 1 d) sample_MaxFloat64 = true /\
      forall h' d', h' ∈ [7%N] -> downloaders mgr1 !! h' = Some d' ->
        Z.ltb (estimate (list Z) Z sample_P90 sample_P90 (fun z => z) Z.mul
                 Z.ltb Z.eqb 0 1 d')
              (estimate (list Z) Z sample_P90 sample_P90 (fun z => z) Z.mul
                 Z.ltb Z.eqb 0 1 d) = false)).
Proof.
  assert (H1 : forall x, Z.ltb x x = false) by (intros x; apply Z.ltb_irrefl).
  assert (H2 : forall x y z,
             Z.ltb x y = true -> Z.ltb y z = true -> Z.ltb x z = true).
  { intros x y z Hxy Hyz. apply Z.ltb_lt in Hxy, Hyz. apply Z.ltb_lt. lia. }
  split; [exact (conj H1 H2)|].
  exact (fastest_spec (list Z) Z sample_P90 sample_P90 (fun d => d)
           (fun z => z) Z.mul Z.ltb Z.eqb 0 1 sample_MaxFloat64 3 H1 H2
           sample_manager 0 10 [7%N]).
Defined.

Lemma overdriving_accounting_witness :
  (Z.of_nat (List.length (Shards (slab sample_slice))) < 2 ^ 63 /\
   reachable (fun z => z) sample_newDataPoints sample_Track 0
     (sample_is "balance insufficient") (sample_is "price table expired")
     (sample_is "price table not found") (sample_is "sector not found")
     sample_SectorRegion 5 sample_slice sample_system4) /\
  0 <= numOverdriving (sys_slab sample_system4)
    <= numInflight (sys_slab sample_system4).
Proof.
  assert (H1 : Z.of_nat (List.length (Shards (slab sample_slice))) < 2 ^ 63)
    by (vm_compute; reflexivity).
  split; [exact (conj H1 sample_system4_reachable)|].
  exact (proj1 (overdriving_accounting _ _ (fun z => z) sample_newDataPoints
                  sample_Track 0
                  (sample_is "balance insufficient")
                  (sample_is "price table expired")
                  (sample_is "price table not found")
                  (sample_is "sector not found")
                  sample_SectorRegion 5 sample_slice sample_system4 H1
                  sample_system4_reachable)).
Defined.

Lemma collect_all_in_order_witness :
  (Z.of_nat (List.length example_slices) < 2 ^ 63 /\
   0 < Z.of_nat (List.length example_slices)) /\
  exists out,
    collect_all sample_Decrypt sample_Recover example_slices newCollector
      (take 2 sample_slab_responses) = Some out.
Proof.
  assert (H1 : Z.of_nat (List.length example_slices) < 2 ^ 63)
    by (vm_compute; reflexivity).
  assert (H2 : 0 < Z.of_nat (List.length example_slices))
    by (vm_compute; reflexivity).
  split; [exact (conj H1 H2)|].
  destruct (collect_all_in_order sample_Decrypt sample_Recover example_slices
              H1 (take 2 sample_slab_responses) H2) as (out & Hout & _).
  exists out. exact Hout.
Defined.

Lemma collect_all_complete_witness :
  (Z.of_nat (List.length example_slices) < 2 ^ 63 /\
   0 < Z.of_nat (List.length example_slices) /\
   Forall (fun r => sdr_err r = None) sample_slab_responses /\
   sdr_index <$> sample_slab_responses
     ≡ₚ seqZ 0 (Z.of_nat (List.length example_slices))) /\
  exists c,
    collect_all sample_Decrypt sample_Recover example_slices newCollector
      sample_slab_responses = Some (Ok (Done None c)) /\
    (recovered c).*1 = seqZ 0 (Z.of_nat (List.length example_slices)).
Proof.
  assert (H1 : Z.of_nat (List.length example_slices) < 2 ^ 63)
    by (vm_compute; reflexivity).
  assert (H2 : 0 < Z.of_nat (List.length example_slices))
    by (vm_compute; reflexivity).
  assert (H3 : Forall (fun r => sdr_err r = None) sample_slab_responses)
    by (repeat constructor).
  assert (H4 : sdr_index <$> sample_slab_responses
               ≡ₚ seqZ 0 (Z.of_nat (List.length example_slices))).
  { change (seqZ 0 (Z.of_nat (List.length example_slices))) with [0; 1; 2].
    change (sdr_index <$> sample_slab_responses) with [2; 0; 1].
    solve_Permutation. }
  split; [exact (conj H1 (conj H2 (conj H3 H4)))|].
  destruct (collect_all_complete sample_Decrypt sample_Recover example_slices
              H1 sample_slab_responses H2 H3 H4) as (c & Hc & Hord & _).
  { intros r ss _ _. reflexivity. }
  exists c. split; [exact Hc | exact Hord].
Defined.

(** ** The price-table cache *)

Section PriceTableFacts.
Import PriceTables.

Lemma quiescent_inv st : quiescent st -> pt_inv st.
Proof.
  intros [Hc Hu]. constructor.
  - intros t c u Ht [Hl|(? & ? & Hl)]; rewrite (Hc _ _ Ht) in Hl; discriminate.
  - intros t1 t2 c1 c2 u Ht1 _ [Hl|(? & ? & Hl)];
      rewrite (Hc _ _ Ht1) in Hl; discriminate.
  - exact Hu.
Qed.

Lemma set_pc_lookup t c p (l : list call) t' c' :
  l !! t = Some c -> set_pc t c p l !! t' = Some c' ->
  (t' = t /\ c' = mkCall (c_hk c) p) \/ (t' ≠ t /\ l !! t' = Some c').
Proof.
  intros Ht. unfold set_pc. destruct (decide (t' = t)) as [->|Hne].
  - rewrite list_lookup_insert_eq by (eapply lookup_lt_Some; eassumption).
    intros [= <-]. left. auto.
  - rewrite list_lookup_insert_ne by congruence. right. auto.
Qed.

(** A step of call [t] keeps the invariant when the other leaders keep
    their entry and update object, the new place of [t] is in order, and
    no update object got a [pt]. *)
Lemma pt_inv_update st pts' t c p' tr :
  pt_inv st -> calls st !! t = Some c ->
  (forall t2 c2 u2, t2 ≠ t -> calls st !! t2 = Some c2 -> leads c2 u2 ->
     leader_ok pts' (c_hk c2) u2) ->
  (forall u, leads (mkCall (c_hk c) p') u ->
     leader_ok pts' (c_hk c) u /\
     forall t2 c2, t2 ≠ t -> calls st !! t2 = Some c2 -> ~ leads c2 u) ->
  (forall u upd, updates pts' !! u = Some upd -> u_pt upd = None) ->
  pt_inv (mkState pts' (set_pc t c p' (calls st)) tr).
Proof.
  intros [Hl Hu Hn] Ht Hothers Hnew Hnil. constructor; simpl.
  - intros t1 c1 u H1 Hlead.
    destruct (set_pc_lookup _ _ _ _ _ _ Ht H1) as [[-> ->]|[Hne H1']].
    + apply Hnew. assumption.
    + eapply Hothers; eassumption.
  - intros t1 t2 c1 c2 u H1 H2 L1 L2.
    destruct (set_pc_lookup _ _ _ _ _ _ Ht H1) as [[-> ->]|[Hne1 H1']];
      destruct (set_pc_lookup _ _ _ _ _ _ Ht H2) as [[-> ->]|[Hne2 H2']].
    + reflexivity.
    + exfalso. eapply (proj2 (Hnew u L1)); eassumption.
    + exfalso. eapply (proj2 (Hnew u L2)); eassumption.
    + eapply Hu; eassumption.
  - exact Hnil.
Qed.

Lemma not_leads_Waiting k u u' : ~ leads (mkCall k (Waiting u)) u'.
Proof. intros [H|(? & ? & H)]; discriminate. Qed.

Lemma not_leads_Returned k h e u' : ~ leads (mkCall k (Returned h e)) u'.
Proof. intros [H|(? & ? & H)]; discriminate. Qed.

Lemma not_leads_Panicked k x u' : ~ leads (mkCall k (Panicked x)) u'.
Proof. intros [H|(? & ? & H)]; discriminate. Qed.

Lemma priceTable_of_spec pts k pts1 p :
  priceTable_of pts k = (pts1, p) ->
  tables pts1 !! k = Some p /\ updates pts1 = updates pts /\
  (forall k' p', tables pts !! k' = Some p' -> tables pts1 !! k' = Some p') /\
  (tables pts !! k = None -> ongoingUpdate p = None /\ pt p = None).
Proof.
  unfold priceTable_of. destruct (tables pts !! k) as [p0|] eqn:Hk.
  - intros [= <- <-]. split; [assumption|]. split; [reflexivity|].
    split; [auto|]. intros Hn. congruence.
  - intros [= <- <-]. simpl. split; [apply lookup_insert_eq|].
    split; [reflexivity|]. split; [|auto].
    intros k' p' Hk'. rewrite lookup_insert_ne; [assumption|congruence].
Qed.

Lemma pt_inv_keep st t c p' tr :
  pt_inv st -> calls st !! t = Some c ->
  (forall u, leads (mkCall (c_hk c) p') u -> leads c u) ->
  pt_inv (mkState (st_pts st) (set_pc t c p' (calls st)) tr).
Proof.
  intros Hinv Ht Hsame. apply pt_inv_update; try assumption.
  - intros t2 c2 u2 _ H2 L2. eapply inv_leader; eassumption.
  - intros u L. split.
    + eapply (inv_leader _ Hinv t c); [assumption | apply Hsame, L].
    + intros t2 c2 Hne H2 L2. apply Hne.
      eapply (inv_unique _ Hinv t2 t); eauto.
  - apply Hinv.
Qed.

Lemma Update_wake_not_leads pts u p k u' :
  Update_wake pts u = Some p -> ~ leads (mkCall k p) u'.
Proof.
  unfold Update_wake. destruct (updates pts !! u) as [upd|]; simpl;
    [|discriminate].
  destruct (u_done upd); [|discriminate].
  destruct (u_err upd); [|destruct (u_pt upd)]; intros [= <-];
    intros [H|(? & ? & H)]; discriminate.
Qed.

Lemma pt_step_inv st e st' : pt_inv st -> step e st = Some st' -> pt_inv st'.
Proof.
  intros Hinv. destruct e as [t|t hpt err|t now|t|t]; unfold step;
    (destruct (calls st !! t) as [c|] eqn:Hc; simpl; [|discriminate]);
    destruct (c_pc c) eqn:Hpc; try discriminate.
  - (* Enter *)
    destruct (Update_enter (st_pts st) (c_hk c)) as [pts' p'] eqn:He.
    intros [= <-]. unfold Update_enter in He.
    destruct (priceTable_of (st_pts st) (c_hk c)) as [pts1 p] eqn:Hp.
    apply priceTable_of_spec in Hp as (Hk & Hupd & Hmono & _).
    destruct (ongoingUpdate p) as [u|] eqn:Hou; injection He as <- <-.
    + apply pt_inv_update; try assumption.
      * intros t2 c2 u2 _ H2 L2.
        destruct (inv_leader _ Hinv _ _ _ H2 L2) as (p2 & upd2 & A & B & C & D).
        exists p2, upd2. rewrite Hupd. auto.
      * intros u' L. exfalso. eapply not_leads_Waiting. eassumption.
      * rewrite Hupd. apply Hinv.
    + apply pt_inv_update; try assumption; simpl.
      * intros t2 c2 u2 _ H2 L2.
        destruct (inv_leader _ Hinv _ _ _ H2 L2) as (p2 & upd2 & A & B & C & D).
        exists p2, upd2.
        destruct (decide (c_hk c = c_hk c2)) as [Heq|Hne].
        { rewrite <- Heq in A. apply Hmono in A. congruence. }
        simpl. rewrite lookup_insert_ne by assumption. rewrite Hupd.
        split; [apply Hmono; assumption|]. split; [assumption|].
        split; [|assumption].
        apply lookup_app_l_Some. assumption.
      * intros u' [L|(? & ? & L)]; [|discriminate]. simpl in L.
        injection L as <-. split.
        -- exists (mkPriceTable (pt p) (hk p) (expiry p)
                     (Some (List.length (updates pts1)))),
                  (mkUpdate None false None).
           simpl. rewrite lookup_insert_eq.
           split; [reflexivity|].
           split; [reflexivity|]. split; [|reflexivity].
           rewrite lookup_app_r by lia. rewrite Nat.sub_diag. reflexivity.
        -- intros t2 c2 _ H2 L2.
           destruct (inv_leader _ Hinv _ _ _ H2 L2) as (_ & upd2 & _ & _ & C & _).
           apply lookup_lt_Some in C. rewrite Hupd in C. lia.
      * intros u' upd Hl. apply lookup_app_Some in Hl as [Hl|[_ Hl]].
        -- rewrite Hupd in Hl. eapply inv_nil; eassumption.
        -- destruct (u' - _)%nat; [|discriminate]. injection Hl as <-.
           reflexivity.
  - (* Transport *)
    intros [= <-]. apply pt_inv_keep; try assumption.
    intros u' [L|(? & ? & L)]; [discriminate|]. simpl in L.
    injection L as <- _ _. left. assumption.
  - (* Publish *)
    unfold Update_publish.
    destruct (inv_leader _ Hinv t c u Hc) as (p & upd & A & B & C & D).
    { right. eauto. }
    rewrite A, C. simpl. rewrite D. unfold close. rewrite bind_Ok.
    intros [= <-]. apply pt_inv_update; try assumption; simpl.
    + intros t2 c2 u2 Hne H2 L2.
      destruct (inv_leader _ Hinv _ _ _ H2 L2) as (p2 & upd2 & A2 & B2 & C2 & D2).
      assert (Hu : u2 ≠ u).
      { intros ->. apply Hne.
        eapply (inv_unique _ Hinv t2 t); eauto. right. eauto. }
      assert (Hk : c_hk c ≠ c_hk c2).
      { intros Heq. rewrite <- Heq in A2. congruence. }
      exists p2, upd2. simpl. rewrite lookup_insert_ne by assumption.
      rewrite list_lookup_insert_ne by congruence. auto.
    + intros u' L. exfalso. eapply not_leads_Returned. eassumption.
    + intros u' upd' Hl.
      destruct (decide (u = u')) as [<-|Hne].
      * rewrite list_lookup_insert_eq in Hl
          by (eapply lookup_lt_Some; eassumption).
        injection Hl as <-. simpl. eapply inv_nil; eassumption.
      * rewrite list_lookup_insert_ne in Hl by assumption.
        eapply inv_nil; eassumption.
  - (* Wake *)
    destruct (Update_wake (st_pts st) u) as [p|] eqn:Hw; simpl; [|discriminate].
    intros [= <-]. apply pt_inv_keep; try assumption.
    intros u' L. exfalso. eapply Update_wake_not_leads; eassumption.
  - (* Cancel *)
    intros [= <-]. apply pt_inv_keep; try assumption.
    intros u' L. exfalso. eapply not_leads_Returned. eassumption.
Qed.

Lemma pt_reachable_inv init st :
  quiescent init -> PriceTables.reachable init st -> pt_inv st.
Proof.
  intros Hq Hr. induction Hr as [|st e st' _ IH Hstep].
  - apply quiescent_inv. assumption.
  - eapply pt_step_inv; eassumption.
Qed.

(** X9.  Single flight: in every state reachable from a cache at rest, two
    calls that lead an update (they are about to invoke the transport, or
    are back from it and about to publish) for the same host are the same
    call. *)
Lemma single_flight init st t1 t2 c1 c2 u1 u2 :
  quiescent init -> PriceTables.reachable init st ->
  calls st !! t1 = Some c1 -> calls st !! t2 = Some c2 ->
  c_hk c1 = c_hk c2 -> leads c1 u1 -> leads c2 u2 -> t1 = t2.
Proof.
  intros Hq Hr H1 H2 Hk L1 L2.
  pose proof (pt_reachable_inv _ _ Hq Hr) as Hinv.
  destruct (inv_leader _ Hinv _ _ _ H1 L1) as (p1 & _ & A1 & B1 & _).
  destruct (inv_leader _ Hinv _ _ _ H2 L2) as (p2 & _ & A2 & B2 & _).
  rewrite Hk in A1. assert (u1 = u2) as -> by congruence.
  eapply inv_unique; eassumption.
Qed.

(** X10.  In every state reachable from a cache at rest, a waiter that
    wakes on an update published without error panics: it dereferences
    [ongoing.pt], which nothing ever sets.  The cache is left as it is. *)
Lemma waiter_of_success_panics init st t c u upd :
  quiescent init -> PriceTables.reachable init st ->
  calls st !! t = Some c -> c_pc c = Waiting u ->
  updates (st_pts st) !! u = Some upd -> u_done upd = true ->
  u_err upd = None ->
  step (Wake t) st =
    Some (mkState (st_pts st)
            (set_pc t c (Panicked PanicNilDereference) (calls st))
            (transports st)).
Proof.
  intros Hq Hr Hc Hpc Hu Hd He.
  pose proof (pt_reachable_inv _ _ Hq Hr) as Hinv.
  unfold step. rewrite Hc. simpl. rewrite Hpc.
  unfold Update_wake. rewrite Hu. simpl. rewrite Hd, He.
  rewrite (inv_nil _ Hinv _ _ Hu). reflexivity.
Qed.

(** C3, on the code.  Two calls of [Update] for host 7 on an empty cache,
    the second entering while the first refreshes: the transport is invoked
    once, and the call that refreshes returns the price table.  But the
    waiter, woken by a refresh that succeeded, does not observe the price
    table: it panics on [*ongoing.pt], a [nil] pointer.  (When the refresh
    fails the waiter does return the leader's error, and a waiter whose
    context is done returns the timeout error while the leader goes on.) *)
Theorem Update_waiter_panics :
  run [Enter 0; Enter 1; Transport 0 sample_hpt None; Publish 0 1000; Wake 1]
      (start newPriceTables 7%N 2)
  = Some (mkState
            (mkPriceTables
               {[ 7%N := mkPriceTable (Some sample_hpt) 7%N
                           (1000 + 600 * Second) None ]}
               [mkUpdate None true None])
            [mkCall 7%N (Returned sample_hpt None);
             mkCall 7%N (Panicked PanicNilDereference)]
            [7%N]) /\
  run [Enter 0; Enter 1; Transport 0 zeroHostPriceTable (Some sample_failure);
       Publish 0 1000; Wake 1]
      (start newPriceTables 7%N 2)
  = Some (mkState
            (mkPriceTables
               {[ 7%N := mkPriceTable None 7%N 0 None ]}
               [mkUpdate (Some sample_failure) true None])
            [mkCall 7%N (Returned zeroHostPriceTable (Some sample_failure));
             mkCall 7%N (Returned zeroHostPriceTable (Some sample_failure))]
            [7%N]) /\
  run [Enter 0; Enter 1; Cancel 1; Transport 0 sample_hpt None; Publish 0 1000]
      (start newPriceTables 7%N 2)
  = Some (mkState
            (mkPriceTables
               {[ 7%N := mkPriceTable (Some sample_hpt) 7%N
                           (1000 + 600 * Second) None ]}
               [mkUpdate None true None])
            [mkCall 7%N (Returned sample_hpt None);
             mkCall 7%N Update_cancel]
            [7%N]).
Proof. repeat split; vm_compute; reflexivity. Qed.

(** C4, on the code.  [PriceTable] returns the stored table, and calls it
    valid exactly while [now] is before expiry PLUS the leeway; without a
    stored table the answer is invalid.  So, against the claim and against
    the comment on [priceTableValidityLeeway], a table that expires at
    100 s is still called valid at 80 s, in its last 30 seconds, and at
    110 s, after it expired. *)
Theorem PriceTable_leeway_added (pts : priceTables) (k : PublicKey) (now : Z) :
  (PriceTable pts k now).2 =
    match tables pts !! k with
    | Some p =>
        match pt p with
        | Some t => (t, now <? expiry p + 30 * Second)
        | None => (zeroHostPriceTable, false)
        end
    | None => (zeroHostPriceTable, false)
    end /\
  let cache :=
    mkPriceTables
      {[ 7%N := mkPriceTable (Some sample_hpt) 7%N (100 * Second) None ]} [] in
  (PriceTable cache 7%N (80 * Second)).2 = (sample_hpt, true) /\
  (80 * Second <? 100 * Second - priceTableValidityLeeway) = false /\
  (PriceTable cache 7%N (110 * Second)).2 = (sample_hpt, true).
Proof.
  split.
  - unfold PriceTable, priceTable_of.
    destruct (tables pts !! k) as [p|]; simpl; [|reflexivity].
    destruct (pt p); reflexivity.
  - cbv zeta. repeat split; vm_compute; reflexivity.
Qed.

(** C5.  A call of [Update] that performed the refresh (its transport is
    back with [hpt, err]) can always publish, and returns [hpt, err].  On
    success the entry of its host holds the new price table and expires at
    [now + hpt.Validity]; on an error the entry keeps the price table and
    the expiry it had.  Either way no update is ongoing afterwards and the
    entries of the other hosts are as they were. *)
Theorem Update_publish_spec init st t c u hpt err now :
  quiescent init -> PriceTables.reachable init st ->
  calls st !! t = Some c -> c_pc c = Publishing u hpt err ->
  exists st' p p',
    step (Publish t now) st = Some st' /\
    calls st' !! t = Some (mkCall (c_hk c) (Returned hpt err)) /\
    tables (st_pts st) !! c_hk c = Some p /\
    tables (st_pts st') !! c_hk c = Some p' /\
    ongoingUpdate p' = None /\
    match err with
    | None => pt p' = Some hpt /\ expiry p' = now + Validity hpt
    | Some _ => pt p' = pt p /\ expiry p' = expiry p
    end /\
    (forall k, k ≠ c_hk c ->
       tables (st_pts st') !! k = tables (st_pts st) !! k).
Proof.
  intros Hq Hr Hc Hpc.
  pose proof (pt_reachable_inv _ _ Hq Hr) as Hinv.
  destruct (inv_leader _ Hinv t c u Hc) as (p & upd & A & B & C & D).
  { right. eauto. }
  unfold step. rewrite Hc. simpl. rewrite Hpc.
  unfold Update_publish. rewrite A, C. simpl. rewrite D.
  unfold close. rewrite bind_Ok.
  eexists _, p, _. split; [reflexivity|]. simpl.
  split.
  { unfold set_pc. apply list_lookup_insert_eq.
    eapply lookup_lt_Some. eassumption. }
  split; [reflexivity|]. split; [apply lookup_insert_eq|].
  split; [reflexivity|]. split.
  - destruct err; simpl; auto.
  - intros k Hk. apply lookup_insert_ne. congruence.
Qed.

(** *** More on the cache and on the waiters *)

(** X11.  Refresh, then look up.  When the call that refreshed publishes
    without error at time [now], a [PriceTable] for its host at time
    [now'] returns the price table the refresh fetched, valid exactly while
    [now' < now + Validity + priceTableValidityLeeway], and leaves the cache
    as it is.  When the refresh failed, [PriceTable] answers as it did
    before the publish. *)
Theorem Update_then_PriceTable init st t c u hpt err now now' :
  quiescent init -> PriceTables.reachable init st ->
  calls st !! t = Some c -> c_pc c = Publishing u hpt err ->
  exists st',
    step (Publish t now) st = Some st' /\
    match err with
    | None =>
        PriceTable (st_pts st') (c_hk c) now'
        = (st_pts st',
           (hpt, now' <? now + Validity hpt + priceTableValidityLeeway))
    | Some _ =>
        (PriceTable (st_pts st') (c_hk c) now').1 = st_pts st' /\
        (PriceTable (st_pts st') (c_hk c) now').2
        = (PriceTable (st_pts st) (c_hk c) now').2
    end.
Proof.
  intros Hq Hr Hc Hpc.
  pose proof (pt_reachable_inv _ _ Hq Hr) as Hinv.
  destruct (inv_leader _ Hinv t c u Hc) as (p & upd & A & B & C & D).
  { right. eauto. }
  unfold step. rewrite Hc. simpl. rewrite Hpc.
  unfold Update_publish. rewrite A, C. simpl. rewrite D.
  unfold close. rewrite bind_Ok.
  eexists. split; [reflexivity|]. simpl.
  unfold PriceTable, priceTable_of. simpl.
  rewrite lookup_insert_eq, A. destruct err as [e|]; simpl.
  - destruct (pt p); split; reflexivity.
  - reflexivity.
Qed.

(** X12.  A waiter of a refresh that fails.  While the call that refreshes
    has not published, the waiter cannot wake.  Once it publishes the error
    of its transport, it returns that error with the price table of the
    transport, and the waiter, woken, returns the same error with the zero
    price table; waking does not touch the cache. *)
Theorem waiter_of_failure_returns_error init st t c u hpt e now t2 c2 :
  quiescent init -> PriceTables.reachable init st ->
  calls st !! t = Some c -> c_pc c = Publishing u hpt (Some e) ->
  calls st !! t2 = Some c2 -> c_pc c2 = Waiting u ->
  step (Wake t2) st = None /\
  exists st1 st2,
    step (Publish t now) st = Some st1 /\
    step (Wake t2) st1 = Some st2 /\
    calls st2 !! t = Some (mkCall (c_hk c) (Returned hpt (Some e))) /\
    calls st2 !! t2
      = Some (mkCall (c_hk c2) (Returned zeroHostPriceTable (Some e))) /\
    st_pts st2 = st_pts st1.
Proof.
  intros Hq Hr Hc Hpc Hc2 Hpc2.
  pose proof (pt_reachable_inv _ _ Hq Hr) as Hinv.
  destruct (inv_leader _ Hinv t c u Hc) as (p & upd & A & B & C & D).
  { right. eauto. }
  assert (Hne : t ≠ t2) by (intros ->; congruence).
  split.
  { unfold step. rewrite Hc2. simpl. rewrite Hpc2.
    unfold Update_wake. rewrite C. simpl. rewrite D. reflexivity. }
  unfold step at 1. rewrite Hc. simpl. rewrite Hpc.
  unfold Update_publish. rewrite A, C. simpl. rewrite D.
  unfold close. rewrite bind_Ok.
  eexists _, _. split; [reflexivity|].
  assert (Hl2 : set_pc t c (Returned hpt (Some e)) (calls st) !! t2 = Some c2).
  { unfold set_pc. rewrite list_lookup_insert_ne by assumption. exact Hc2. }
  unfold step. simpl. rewrite Hl2. simpl.
  rewrite Hpc2. unfold Update_wake. simpl.
  rewrite list_lookup_insert_eq by (eapply lookup_lt_Some; eassumption).
  simpl. split; [reflexivity|]. simpl. unfold set_pc.
  split; [|split; [|reflexivity]].
  - rewrite list_lookup_insert_ne by congruence.
    apply list_lookup_insert_eq. eapply lookup_lt_Some. eassumption.
  - apply list_lookup_insert_eq. rewrite length_insert.
    eapply lookup_lt_Some. eassumption.
Qed.

Lemma Update_enter_tables pts k pts' p k' :
  Update_enter pts k = (pts', p) ->
  is_Some (tables pts !! k') -> is_Some (tables pts' !! k').
Proof.
  unfold Update_enter, priceTable_of.
  destruct (tables pts !! k) as [q|] eqn:Hk; simpl.
  - destruct (ongoingUpdate q); intros [= <- _]; [auto|]. simpl.
    intros Hs. apply lookup_insert_is_Some'. auto.
  - intros [= <- _]. simpl. intros Hs.
    apply lookup_insert_is_Some'. right. apply lookup_insert_is_Some'. auto.
Qed.

(** X13.  The cache never evicts: a host that has an entry keeps one
    through every step of every call of [Update], whatever the schedule. *)
Theorem entries_never_evicted init st k :
  PriceTables.reachable init st ->
  is_Some (tables (st_pts init) !! k) ->
  is_Some (tables (st_pts st) !! k).
Proof.
  intros Hr Hk. induction Hr as [|st e st' _ IH Hstep]; [assumption|].
  destruct e as [t|t hpt err|t now|t|t]; simpl in Hstep;
    destruct (calls st !! t) as [c|]; simpl in Hstep; try discriminate;
    destruct (c_pc c) as [|u|u hpt' err'|u|hpt' err'|x]; try discriminate.
  - destruct (Update_enter (st_pts st) (c_hk c)) as [pts' p] eqn:He.
    injection Hstep as <-. simpl. eapply Update_enter_tables; eassumption.
  - injection Hstep as <-. assumption.
  - unfold Update_publish in Hstep.
    destruct (tables (st_pts st) !! c_hk c) as [q|]; simpl in Hstep;
      [|discriminate].
    destruct (updates (st_pts st) !! u) as [upd|]; simpl in Hstep;
      [|discriminate].
    destruct (u_done upd); simpl in Hstep; injection Hstep as <-;
      [assumption|].
    simpl. apply lookup_insert_is_Some'. auto.
  - destruct (Update_wake (st_pts st) u); simpl in Hstep; [|discriminate].
    injection Hstep as <-. assumption.
  - injection Hstep as <-. assumption.
Qed.

Lemma leading_insert (l : list call) :
  forall t x y, l !! t = Some x ->
    (leading (<[t := y]> l) + (if is_Leading x then 1 else 0)
     = leading l + (if is_Leading y then 1 else 0))%nat.
Proof.
  unfold leading.
  induction l as [|a l IH]; intros t x y Hl; [rewrite lookup_nil in Hl;
                                               discriminate|].
  destruct t as [|t]; simpl in *.
  - injection Hl as ->. rewrite !filter_cons.
    destruct (is_Leading x), (is_Leading y); simpl;
      repeat (destruct (decide _); try congruence); simpl; lia.
  - rewrite !filter_cons. specialize (IH t x y Hl).
    destruct (decide (is_Leading a = true)); simpl; lia.
Qed.

(** X14.  The transport is invoked once for each update object, by the call
    that made it: at any time the refreshes handed to the transport and
    the calls about to do so count up to the update objects made.  A call
    that waits never invokes the transport. *)
Theorem one_transport_per_update init st :
  PriceTables.reachable init st ->
  (List.length (transports st) + leading (calls st)
   + List.length (updates (st_pts init))
   = List.length (transports init) + leading (calls init)
     + List.length (updates (st_pts st)))%nat.
Proof.
  intros Hr. induction Hr as [|st e st' _ IH Hstep]; [reflexivity|].
  destruct e as [t|t hpt err|t now|t|t]; simpl in Hstep;
    destruct (calls st !! t) as [c|] eqn:Hc; simpl in Hstep;
    try discriminate;
    destruct (c_pc c) as [|u|u hpt' err'|u|hpt' err'|x] eqn:Hpc;
    try discriminate.
  - (* Enter *)
    unfold Update_enter, priceTable_of in Hstep.
    pose proof (leading_insert (calls st) t c) as Hli.
    unfold is_Leading in Hli at 1. rewrite Hpc in Hli.
    destruct (tables (st_pts st) !! c_hk c) as [q|]; simpl in Hstep.
    + destruct (ongoingUpdate q); injection Hstep as <-; simpl;
        unfold set_pc.
      * specialize (Hli (mkCall (c_hk c) (Waiting n)) Hc).
        simpl in Hli. lia.
      * specialize (Hli (mkCall (c_hk c)
                           (Leading (List.length (updates (st_pts st)))))
                        Hc).
        simpl in Hli. rewrite length_app. simpl. lia.
    + injection Hstep as <-. simpl. unfold set_pc.
      specialize (Hli (mkCall (c_hk c)
                         (Leading (List.length (updates (st_pts st)))))
                      Hc).
      simpl in Hli. rewrite length_app. simpl. lia.
  - (* Transport *)
    injection Hstep as <-. simpl. unfold set_pc.
    pose proof (leading_insert (calls st) t c
                  (mkCall (c_hk c) (Publishing u hpt err)) Hc) as Hli.
    unfold is_Leading in Hli. rewrite Hpc in Hli. simpl in Hli. lia.
  - (* Publish *)
    pose proof (leading_insert (calls st) t c) as Hli.
    unfold is_Leading in Hli at 1. rewrite Hpc in Hli.
    unfold Update_publish in Hstep.
    destruct (tables (st_pts st) !! c_hk c) as [q|]; simpl in Hstep;
      [|discriminate].
    destruct (updates (st_pts st) !! u) as [upd|]; simpl in Hstep;
      [|discriminate].
    destruct (u_done upd); simpl in Hstep; injection Hstep as <-; simpl;
      unfold set_pc.
    + specialize (Hli (mkCall (c_hk c) (Panicked PanicCloseOfClosed)) Hc).
      simpl in Hli. lia.
    + specialize (Hli (mkCall (c_hk c) (Returned hpt' err')) Hc).
      simpl in Hli. rewrite length_insert. lia.
  - (* Wake *)
    destruct (Update_wake (st_pts st) u) as [p|] eqn:Hw; simpl in Hstep;
      [|discriminate].
    injection Hstep as <-. simpl. unfold set_pc.
    pose proof (leading_insert (calls st) t c (mkCall (c_hk c) p) Hc) as Hli.
    assert (Hp : is_Leading (mkCall (c_hk c) p) = false).
    { unfold Update_wake in Hw.
      destruct (updates (st_pts st) !! u) as [upd|]; simpl in Hw;
        [|discriminate].
      destruct (u_done upd); [|discriminate].
      destruct (u_err upd); [injection Hw as <-; reflexivity|].
      destruct (u_pt upd); injection Hw as <-; reflexivity. }
    unfold is_Leading in Hli at 1. rewrite Hpc, Hp in Hli. lia.
  - (* Cancel *)
    injection Hstep as <-. simpl. unfold set_pc.
    pose proof (leading_insert (calls st) t c
                  (mkCall (c_hk c) Update_cancel) Hc) as Hli.
    unfold is_Leading in Hli. rewrite Hpc in Hli. simpl in Hli. lia.
Qed.

Lemma run_reachable es : forall init st0 st,
  PriceTables.reachable init st0 -> run es st0 = Some st ->
  PriceTables.reachable init st.
Proof.
  induction es as [|e es IH]; intros init st0 st Hr Hrun; simpl in Hrun.
  - injection Hrun as <-. assumption.
  - destruct (step e st0) as [st1|] eqn:Hs; simpl in Hrun; [|discriminate].
    eapply IH; [|eassumption].
    eapply PriceTables.reachable_step; eassumption.
Qed.

Lemma start_quiescent k n : quiescent (start newPriceTables k n).
Proof.
  split; simpl.
  - intros t c Ht. apply lookup_replicate in Ht as [-> _]. reflexivity.
  - intros u upd Hu. rewrite lookup_nil in Hu. discriminate.
Qed.

Lemma sample_publishing_reachable :
  PriceTables.reachable (start newPriceTables 7%N 1) sample_publishing.
Proof.
  apply (run_reachable [Enter 0; Transport 0 sample_hpt None]
           _ (start newPriceTables 7%N 1)).
  - apply PriceTables.reachable_init.
  - vm_compute. reflexivity.
Qed.

Lemma Update_publish_spec_witness :
  (quiescent (start newPriceTables 7%N 1) /\
   PriceTables.reachable (start newPriceTables 7%N 1) sample_publishing /\
   calls sample_publishing !! 0%nat
     = Some (mkCall 7%N (Publishing 0 sample_hpt None))) /\
  exists st' p p',
    step (Publish 0 1000) sample_publishing = Some st' /\
    calls st' !! 0%nat = Some (mkCall 7%N (Returned sample_hpt None)) /\
    tables (st_pts sample_publishing) !! 7%N = Some p /\
    tables (st_pts st') !! 7%N = Some p' /\
    ongoingUpdate p' = None /\
    pt p' = Some sample_hpt /\ expiry p' = 1000 + Validity sample_hpt.
Proof.
  pose proof (start_quiescent 7%N 1) as H1.
  pose proof sample_publishing_reachable as H2.
  assert (H3 : calls sample_publishing !! 0%nat
               = Some (mkCall 7%N (Publishing 0 sample_hpt None)))
    by (vm_compute; reflexivity).
  split; [exact (conj H1 (conj H2 H3))|].
  destruct (Update_publish_spec _ _ 0%nat _ 0%nat sample_hpt None 1000
              H1 H2 H3 eq_refl)
    as (st' & p & p' & Ha & Hb & Hc & Hd & He & [Hf Hg] & _).
  exists st', p, p'. repeat split; assumption.
Defined.

Lemma sample_failing_reachable :
  PriceTables.reachable (start newPriceTables 7%N 2) sample_failing.
Proof.
  apply (run_reachable
           [Enter 0; Enter 1; Transport 0 sample_hpt (Some sample_failure)]
           _ (start newPriceTables 7%N 2)).
  - apply PriceTables.reachable_init.
  - vm_compute. reflexivity.
Qed.

Lemma sample_published_reachable :
  PriceTables.reachable (start newPriceTables 7%N 2) sample_published.
Proof.
  apply (run_reachable
           [Enter 0; Enter 1; Transport 0 sample_hpt None; Publish 0 1000]
           _ (start newPriceTables 7%N 2)).
  - apply PriceTables.reachable_init.
  - vm_compute. reflexivity.
Qed.

Lemma single_flight_witness :
  (quiescent (start newPriceTables 7%N 2) /\
   PriceTables.reachable (start newPriceTables 7%N 2) sample_failing /\
   calls sample_failing !! 0%nat
     = Some (mkCall 7%N (Publishing 0 sample_hpt (Some sample_failure))) /\
   leads (mkCall 7%N (Publishing 0 sample_hpt (Some sample_failure))) 0) /\
  0%nat = 0%nat.
Proof.
  pose proof (start_quiescent 7%N 2) as H1.
  pose proof sample_failing_reachable as H2.
  assert (H3 : calls sample_failing !! 0%nat
               = Some (mkCall 7%N
                         (Publishing 0 sample_hpt (Some sample_failure))))
    by (vm_compute; reflexivity).
  assert (H4 : leads (mkCall 7%N
                        (Publishing 0 sample_hpt (Some sample_failure))) 0)
    by (right; eexists _, _; reflexivity).
  split; [exact (conj H1 (conj H2 (conj H3 H4)))|].
  exact (single_flight _ _ 0%nat 0%nat _ _ 0%nat 0%nat H1 H2 H3 H3 eq_refl
           H4 H4).
Defined.

Lemma waiter_of_success_panics_witness :
  (quiescent (start newPriceTables 7%N 2) /\
   PriceTables.reachable (start newPriceTables 7%N 2) sample_published /\
   calls sample_published !! 1%nat = Some (mkCall 7%N (Waiting 0)) /\
   updates (st_pts sample_published) !! 0%nat
     = Some (mkUpdate None true None)) /\
  step (Wake 1) sample_published =
    Some (mkState (st_pts sample_published)
            (set_pc 1 (mkCall 7%N (Waiting 0)) (Panicked PanicNilDereference)
               (calls sample_published))
            (transports sample_published)).
Proof.
  pose proof (start_quiescent 7%N 2) as H1.
  pose proof sample_published_reachable as H2.
  assert (H3 : calls sample_published !! 1%nat = Some (mkCall 7%N (Waiting 0)))
    by (vm_compute; reflexivity).
  assert (H4 : updates (st_pts sample_published) !! 0%nat
               = Some (mkUpdate None true None)) by (vm_compute; reflexivity).
  split; [exact (conj H1 (conj H2 (conj H3 H4)))|].
  exact (waiter_of_success_panics _ _ 1%nat _ 0%nat _ H1 H2 H3 eq_refl H4
           eq_refl eq_refl).
Defined.

Lemma Update_then_PriceTable_witness :
  (quiescent (start newPriceTables 7%N 1) /\
   PriceTables.reachable (start newPriceTables 7%N 1) sample_publishing /\
   calls sample_publishing !! 0%nat
     = Some (mkCall 7%N (Publishing 0 sample_hpt None))) /\
  exists st',
    step (Publish 0 1000) sample_publishing = Some st' /\
    PriceTable (st_pts st') 7%N 2000
    = (st_pts st',
       (sample_hpt,
        2000 <? 1000 + Validity sample_hpt + priceTableValidityLeeway)).
Proof.
  pose proof (start_quiescent 7%N 1) as H1.
  pose proof sample_publishing_reachable as H2.
  assert (H3 : calls sample_publishing !! 0%nat
               = Some (mkCall 7%N (Publishing 0 sample_hpt None)))
    by (vm_compute; reflexivity).
  split; [exact (conj H1 (conj H2 H3))|].
  exact (Update_then_PriceTable _ _ 0%nat _ 0%nat sample_hpt None 1000 2000
           H1 H2 H3 eq_refl).
Defined.

Lemma waiter_of_failure_returns_error_witness :
  (quiescent (start newPriceTables 7%N 2) /\
   PriceTables.reachable (start newPriceTables 7%N 2) sample_failing /\
   calls sample_failing !! 0%nat
     = Some (mkCall 7%N (Publishing 0 sample_hpt (Some sample_failure))) /\
   calls sample_failing !! 1%nat = Some (mkCall 7%N (Waiting 0))) /\
  step (Wake 1) sample_failing = None /\
  exists st1 st2,
    step (Publish 0 1000) sample_failing = Some st1 /\
    step (Wake 1) st1 = Some st2 /\
    calls st2 !! 1%nat
      = Some (mkCall 7%N (Returned zeroHostPriceTable (Some sample_failure))).
Proof.
  pose proof (start_quiescent 7%N 2) as H1.
  pose proof sample_failing_reachable as H2.
  assert (H3 : calls sample_failing !! 0%nat
               = Some (mkCall 7%N
                         (Publishing 0 sample_hpt (Some sample_failure))))
    by (vm_compute; reflexivity).
  assert (H4 : calls sample_failing !! 1%nat = Some (mkCall 7%N (Waiting 0)))
    by (vm_compute; reflexivity).
  split; [exact (conj H1 (conj H2 (conj H3 H4)))|].
  destruct (waiter_of_failure_returns_error _ _ 0%nat _ 0%nat sample_hpt
              sample_failure 1000 1%nat _ H1 H2 H3 eq_refl H4 eq_refl)
    as (Hw & st1 & st2 & Ha & Hb & _ & Hc & _).
  split; [exact Hw|]. exists st1, st2.
  split; [exact Ha|]. split; [exact Hb | exact Hc].
Defined.

Lemma entries_never_evicted_witness :
  (PriceTables.reachable sample_failing
     (default sample_failing (run [Publish 0 1000; Wake 1] sample_failing)) /\
   is_Some (tables (st_pts sample_failing) !! 7%N)) /\
  is_Some
    (tables
       (st_pts
          (default sample_failing
             (run [Publish 0 1000; Wake 1] sample_failing))) !! 7%N).
Proof.
  assert (H1 : PriceTables.reachable sample_failing
                 (default sample_failing
                    (run [Publish 0 1000; Wake 1] sample_failing))).
  { apply (run_reachable [Publish 0 1000; Wake 1] _ sample_failing).
    - apply PriceTables.reachable_init.
    - vm_compute. reflexivity. }
  assert (H2 : is_Some (tables (st_pts sample_failing) !! 7%N))
    by (eexists; vm_compute; reflexivity).
  split; [exact (conj H1 H2)|].
  exact (entries_never_evicted _ _ 7%N H1 H2).
Defined.

Lemma one_transport_per_update_witness :
  PriceTables.reachable (start newPriceTables 7%N 2) sample_published /\
  (List.length (transports sample_published) + leading (calls sample_published)
   + List.length (updates (st_pts (start newPriceTables 7%N 2)))
   = List.length (transports (start newPriceTables 7%N 2))
     + leading (calls (start newPriceTables 7%N 2))
     + List.length (updates (st_pts sample_published)))%nat.
Proof.
  split; [exact sample_published_reachable|].
  exact (one_transport_per_update _ _ sample_published_reachable).
Defined.

End PriceTableFacts.
